(** * Uro: lexer, parser, IR lowering and x86-64 generator

    A shallow embedding of the [uro] package (tokens.py, lexer.py, ast.py,
    parser.py, ir.py, generator.py) and the properties of its specification.

    Python values are modelled as follows.
    - [str] is [string]; a character is a code point below 256.
    - [int] is [Z]; label counters, which start at 1 and only grow, are [N].
    - A raised exception is a value of [exn]; a call returns [res A].
    - The parser's functions call one another without bound; they are
      modelled with a number of nested calls allowed, and [None] is the
      outcome of a run that was allowed too few.
    - The token list the parser pops from is threaded explicitly.
    - The generator object is mutated in place: every method is a function
      from the generator to a result and the generator as the call left it,
      so that what a raising call did before it raised stays visible. *)

From Stdlib Require Import ZArith Lia Ascii String.
From stdpp Require Import base strings list gmap pretty sorting.

Set Warnings "-register-all".

Open Scope Z_scope.
Open Scope string_scope.
Open Scope list_scope.

(** ** Tokens, exceptions and results *)

(** tokens.py, the [TOKEN_...] constants. *)
Inductive TokenType :=
  | TOKEN_WHITESPACE | TOKEN_COMMENT | TOKEN_KEYWORD | TOKEN_NUMBER
  | TOKEN_STRING | TOKEN_IDENTIFIER | TOKEN_LBRACKET | TOKEN_RBRACKET
  | TOKEN_LCURLYBRACKET | TOKEN_RCURLYBRACKET | TOKEN_LSTRAIGHTBRACKET
  | TOKEN_RSTRAIGHTBRACKET | TOKEN_PERIOD | TOKEN_COMMA | TOKEN_EQUAL
  | TOKEN_GREATERTHAN | TOKEN_LESSTHAN | TOKEN_ASSIGN | TOKEN_COLON
  | TOKEN_SEMICOLON | TOKEN_MINUS | TOKEN_PLUS | TOKEN_ASTERISK
  | TOKEN_UNKNOWN | TOKEN_EMPTY | TOKEN_EOF.

Global Instance TokenType_eq_dec : EqDecision TokenType.
Proof. solve_decision. Defined.

(** tokens.py, [class Token]. *)
Record Token := mkToken { type : TokenType; value : string; line : Z }.

Global Instance Token_eq_dec : EqDecision Token.
Proof. solve_decision. Defined.

(** The exceptions the package raises, and the built-in ones its code can
    run into.  [ParseError_ token] is a constructed [ParseError]; the
    constructor that may raise [UnexpectedEOF] instead is [ParseError]
    below. *)
Inductive exn :=
  | ParseError_ (token : Token)
  | UnexpectedEOF
  | NotImplementedError
  | AssertionError
  | IndexError
  | KeyError (key : string)
  | ValueError (msg : string)
  | TypeError
  | AttributeError (attr : string).

Global Instance exn_eq_dec : EqDecision exn.
Proof. solve_decision. Defined.

(** How a call ends: it returns a value or raises. *)
Inductive res (A : Type) :=
  | Ok (a : A)
  | Raise (e : exn).
Arguments Ok {A} a.
Arguments Raise {A} e.

Definition res_bind {A B} (m : res A) (k : A -> res B) : res B :=
  match m with
  | Ok a => k a
  | Raise e => Raise e
  end.

Declare Scope res_scope.
Delimit Scope res_scope with res.
Notation "'let*' x ':=' m 'in' k" := (res_bind m (fun x => k))
  (at level 10, x pattern, m at level 100, k at level 200) : res_scope.

(** tokens.py, [KEYWORDS]. *)
Definition KEYWORDS : list string :=
  ["fn"; "for"; "import"; "in"; "return"; "True"; "False"; "extern"; "free"].

(** [Token.__eq__]: a token equals a token type when its type is that one. *)
Definition tok_eq (t : Token) (ty : TokenType) : bool := bool_decide (type t = ty).

(** [token in {TYPE, ...}]: hashing and equality both go through the type. *)
Definition tok_in (t : Token) (tys : list TokenType) : bool :=
  bool_decide (type t ∈ tys).

(** [token.value in {"fn", ...}] *)
Definition value_in (t : Token) (vs : list string) : bool :=
  bool_decide (value t ∈ vs).

(** ** lexer.py *)

Module Lexer.

Definition code (c : ascii) : N := N_of_ascii c.

(** [\s] on [str]: the ASCII white space, the separators 28 to 31, NEL and
    the no-break space. *)
Definition is_space (c : ascii) : bool :=
  let n := code c in
  ((9 <=? n) && (n <=? 13) || (28 <=? n) && (n <=? 32)
   || (n =? 133) || (n =? 160))%N.

(** [\d] on [str], below 256. *)
Definition is_digit (c : ascii) : bool :=
  let n := code c in ((48 <=? n) && (n <=? 57))%N.

(** [[a-zA-Z_]] *)
Definition is_ident_start (c : ascii) : bool :=
  let n := code c in
  ((97 <=? n) && (n <=? 122) || (65 <=? n) && (n <=? 90) || (n =? 95))%N.

(** [[a-zA-Z_0-9]] *)
Definition is_ident_char (c : ascii) : bool :=
  is_ident_start c || is_digit c.

Fixpoint take_while (p : ascii -> bool) (s : string) : string :=
  match s with
  | String c s' => if p c then String c (take_while p s') else ""
  | EmptyString => ""
  end.

Fixpoint drop (n : nat) (s : string) : string :=
  match n, s with
  | S n', String _ s' => drop n' s'
  | _, _ => s
  end.

(** [X+] for a character class [X]. *)
Definition match_plus (p : ascii -> bool) (s : string) : option string :=
  match take_while p s with
  | EmptyString => None
  | m => Some m
  end.

(** [#.*$]: a line holds no newline, so the match is the rest of it. *)
Definition match_comment (s : string) : option string :=
  match s with
  | String "#" _ => Some s
  | _ => None
  end.

(** The characters up to and including the first [q], if there is one. *)
Fixpoint upto_quote (q : ascii) (s : string) : option string :=
  match s with
  | String c s' =>
      if bool_decide (c = q) then Some (String c "")
      else match upto_quote q s' with
           | Some m => Some (String c m)
           | None => None
           end
  | EmptyString => None
  end.

(** [q.*?q]: lazy, so it stops at the first closing quote. *)
Definition match_quoted (q : ascii) (s : string) : option string :=
  match s with
  | String c s' =>
      if bool_decide (c = q) then
        match upto_quote q s' with
        | Some m => Some (String c m)
        | None => None
        end
      else None
  | EmptyString => None
  end.

(** [[a-zA-Z_][a-zA-Z_0-9]*] *)
Definition match_identifier (s : string) : option string :=
  match s with
  | String c s' =>
      if is_ident_start c then Some (String c (take_while is_ident_char s'))
      else None
  | EmptyString => None
  end.

Fixpoint is_prefix (p s : string) : bool :=
  match p, s with
  | EmptyString, _ => true
  | String a p', String b s' => bool_decide (a = b) && is_prefix p' s'
  | String _ _, EmptyString => false
  end.

(** A rule that is a literal text. *)
Definition match_lit (lit : string) (s : string) : option string :=
  if is_prefix lit s then Some lit else None.

(** tokens.py, [PATTERNS], each regular expression as its matcher at the
    start of the text ([re.match]). *)
Definition PATTERNS : list ((string -> option string) * TokenType) :=
  [ (match_plus is_space, TOKEN_WHITESPACE);
    (match_plus is_digit, TOKEN_NUMBER);
    (match_comment, TOKEN_COMMENT);
    (match_quoted "'", TOKEN_STRING);
    (match_quoted "034"%char, TOKEN_STRING);
    (match_identifier, TOKEN_IDENTIFIER);
    (match_lit "(", TOKEN_LBRACKET);
    (match_lit ")", TOKEN_RBRACKET);
    (match_lit "{", TOKEN_LCURLYBRACKET);
    (match_lit "}", TOKEN_RCURLYBRACKET);
    (match_lit "[", TOKEN_LSTRAIGHTBRACKET);
    (match_lit "]", TOKEN_RSTRAIGHTBRACKET);
    (match_lit ".", TOKEN_PERIOD);
    (match_lit ",", TOKEN_COMMA);
    (match_lit "==", TOKEN_EQUAL);
    (match_lit ">", TOKEN_GREATERTHAN);
    (match_lit "<", TOKEN_LESSTHAN);
    (match_lit "=", TOKEN_ASSIGN);
    (match_lit ":", TOKEN_COLON);
    (match_lit ";", TOKEN_SEMICOLON);
    (match_lit "-", TOKEN_MINUS);
    (match_lit "+", TOKEN_PLUS);
    (match_lit "*", TOKEN_ASTERISK) ].

(** [_find_token]: the first rule that matches wins. *)
Fixpoint find_in (rules : list ((string -> option string) * TokenType))
    (s : string) : TokenType * string :=
  match rules with
  | (rule, token_type) :: rules' =>
      match rule s with
      | Some token_value =>
          if bool_decide (token_value ∈ KEYWORDS)
          then (TOKEN_KEYWORD, token_value)
          else (token_type, token_value)
      | None => find_in rules' s
      end
  | [] => (TOKEN_UNKNOWN, s)
  end.

Definition _find_token (s : string) : TokenType * string :=
  find_in PATTERNS s.

(** The [while line:] loop.  Every round drops at least one character, so
    the length of the line bounds the rounds. *)
Fixpoint scan (fuel : nat) (line_number : Z) (line : string) : list Token :=
  match fuel, line with
  | _, EmptyString => []
  | O, _ => []
  | S fuel', _ =>
      let '(token_type, token_value) := _find_token line in
      let rest := drop (String.length token_value) line in
      if bool_decide (token_type ∈ [TOKEN_WHITESPACE; TOKEN_COMMENT])
      then scan fuel' line_number rest
      else mkToken token_type token_value (line_number + 1)
             :: scan fuel' line_number rest
  end.

(** [code.split("\n")] *)
Fixpoint split_lines (cur : string) (s : string) : list string :=
  match s with
  | String c s' =>
      if bool_decide (c = "010"%char) then String.rev cur :: split_lines "" s'
      else split_lines (String c cur) s'
  | EmptyString => [String.rev cur]
  end.

Fixpoint scan_lines (line_number : Z) (lines : list string) : list Token :=
  match lines with
  | line :: lines' =>
      scan (String.length line) line_number line
        ++ scan_lines (line_number + 1) lines'
  | [] => []
  end.

Definition tokenize (code : string) : list Token :=
  scan_lines 0 (split_lines "" code).

End Lexer.

(** ** ast.py *)

(** The [NODE_...] constants. *)
Inductive NodeType :=
  | NODE_STATEMENT | NODE_ASSIGNMENT | NODE_IDENTITY | NODE_KEY
  | NODE_STRING_LITERAL | NODE_NUMBER_LITERAL | NODE_FUNCTION_CALL
  | NODE_FUNCTION | NODE_ARG | NODE_BLOCK | NODE_RETURN | NODE_DICTIONARY
  | NODE_KEY_VALUE | NODE_IMPORT | NODE_FOR | NODE_BOOLEAN | NODE_COMPARISON
  | NODE_EXTERN | NODE_FREE.

Global Instance NodeType_eq_dec : EqDecision NodeType.
Proof. solve_decision. Defined.

(** What a node's content can hold: a token, a node ([class Node]: a type and
    a content), a list or a tuple of such values. *)
Inductive obj :=
  | OTok (token : Token)
  | Node (node_type : NodeType) (content : obj)
  | OList (items : list obj)
  | OTuple (items : list obj).

(** Python truth of a value: [Node] and [Token] define neither [__bool__] nor
    [__len__], so their instances are true; a list or tuple is true when it
    is not empty. *)
Definition truthy (o : obj) : bool :=
  match o with
  | OTok _ | Node _ _ => true
  | OList l | OTuple l => match l with [] => false | _ => true end
  end.

(** [Node.__eq__]: [o == NODE_X].  A token compares its own type, a token
    type, with the node type, and a list is no string: both give false. *)
Definition node_eq (o : obj) (ty : NodeType) : bool :=
  match o with
  | Node t _ => bool_decide (t = ty)
  | _ => false
  end.

(** ** parser.py *)

Module Parser.

(** [ParseError.__init__]: building the error for the end-of-input token
    raises [UnexpectedEOF] instead. *)
Definition ParseError (token : Token) : exn :=
  if tok_eq token TOKEN_EOF then UnexpectedEOF else ParseError_ token.

(** A parsing function reads and pops the token list it is handed.
    [None] is a run cut short by the bound on nested calls. *)
Definition P (A : Type) : Type :=
  list Token -> option (res (A * list Token)).

Definition ret {A} (a : A) : P A := fun tokens => Some (Ok (a, tokens)).
Definition raise {A} (e : exn) : P A := fun _ => Some (Raise e).
Definition out_of_fuel {A} : P A := fun _ => None.
Definition bind {A B} (m : P A) (k : A -> P B) : P B :=
  fun tokens =>
    match m tokens with
    | Some (Ok (a, tokens')) => k a tokens'
    | Some (Raise e) => Some (Raise e)
    | None => None
    end.

Declare Scope parser_scope.
Delimit Scope parser_scope with parser.
Notation "'let*' x ':=' m 'in' k" := (bind m (fun x => k))
  (at level 10, x pattern, m at level 100, k at level 200) : parser_scope.
Local Open Scope parser_scope.

(** [tokens[0]] *)
Definition peek : P Token := fun tokens =>
  match tokens with
  | t :: _ => Some (Ok (t, tokens))
  | [] => Some (Raise IndexError)
  end.

(** [tokens.pop(0)] *)
Definition pop0 : P Token := fun tokens =>
  match tokens with
  | t :: tokens' => Some (Ok (t, tokens'))
  | [] => Some (Raise IndexError)
  end.

(** The test that opens [parse_program] and [parse_statements]. *)
Definition first_statements (t : Token) : bool :=
  tok_in t [TOKEN_IDENTIFIER; TOKEN_STRING; TOKEN_NUMBER; TOKEN_LBRACKET;
            TOKEN_LCURLYBRACKET]
  || (tok_eq t TOKEN_KEYWORD
      && value_in t ["return"; "import"; "fn"; "for"; "True"; "False";
                     "extern"; "free"]).

(** The test that opens [parse_statement] (first branch),
    [parse_return_cont], [parse_args], [parse_arg], [parse_key_values] and
    [parse_key_value]. *)
Definition first_expression (t : Token) : bool :=
  tok_in t [TOKEN_STRING; TOKEN_NUMBER; TOKEN_LBRACKET; TOKEN_IDENTIFIER;
            TOKEN_LCURLYBRACKET]
  || (tok_eq t TOKEN_KEYWORD && value_in t ["fn"; "True"; "False"]).

Definition kw (t : Token) (v : string) : bool :=
  tok_eq t TOKEN_KEYWORD && bool_decide (value t = v).

Definition parse_extern : P obj :=
  let* t0 := peek in
  if kw t0 "extern" then
    let* extern := pop0 in
    let* lbracket := pop0 in
    if negb (tok_eq lbracket TOKEN_LBRACKET) then raise (ParseError lbracket) else
    let* string := pop0 in
    if negb (tok_eq string TOKEN_STRING) then raise (ParseError string) else
    let* comma := pop0 in
    if negb (tok_eq comma TOKEN_COMMA) then raise (ParseError string) else
    let* number := pop0 in
    if negb (tok_eq number TOKEN_NUMBER) then raise (ParseError number) else
    let* rbracket := pop0 in
    if negb (tok_eq rbracket TOKEN_RBRACKET) then raise (ParseError rbracket) else
    ret (Node NODE_EXTERN (OTuple [OTok string; OTok number]))
  else raise (ParseError t0).

Definition parse_import : P obj :=
  let* t0 := peek in
  if kw t0 "import" then
    let* keyword := pop0 in
    let* module := pop0 in
    if negb (tok_eq module TOKEN_STRING) then raise (ParseError module) else
    ret (Node NODE_IMPORT (OTok module))
  else raise (ParseError t0).

Definition parse_identity_cont : P obj :=
  let* t0 := peek in
  if tok_in t0 [TOKEN_ASSIGN; TOKEN_RBRACKET; TOKEN_RSTRAIGHTBRACKET;
                TOKEN_COMMA; TOKEN_SEMICOLON; TOKEN_COLON;
                TOKEN_RCURLYBRACKET; TOKEN_EQUAL; TOKEN_GREATERTHAN;
                TOKEN_LESSTHAN]
  then ret (Node NODE_IDENTITY (OList []))
  else raise (ParseError t0).

Definition parse_boolean : P obj :=
  let* t0 := peek in
  if tok_eq t0 TOKEN_KEYWORD && value_in t0 ["True"; "False"] then
    let* boolean := pop0 in
    ret (Node NODE_BOOLEAN (OTok boolean))
  else raise (ParseError t0).

(** [if comparison: return Node(NODE_COMPARISON, [node] + comparison.content)
    else: return node], for the value [parse_comparison_cont] returned. *)
Definition with_comparison (node comparison : obj) : P obj :=
  if truthy comparison then
    match comparison with
    | Node _ (OList content) => ret (Node NODE_COMPARISON (OList (node :: content)))
    | Node _ _ => raise TypeError
    | _ => raise (AttributeError "content")
    end
  else ret node.

(** The recursive descent.  The functions call one another with the same
    token list, so the recursion is on the number of nested calls still
    allowed ([fuel]). *)
Fixpoint parse_statements (fuel : nat) : P (list obj) :=
  match fuel with O => out_of_fuel | S fuel =>
  let* t0 := peek in
  if first_statements t0 then
    let* statement := parse_statement fuel in
    let* semicolon := pop0 in
    if negb (tok_eq semicolon TOKEN_SEMICOLON) then raise (ParseError semicolon) else
    let* statements := parse_statements fuel in
    ret (Node NODE_STATEMENT statement :: statements)
  else if tok_in t0 [TOKEN_EOF; TOKEN_RCURLYBRACKET] then ret []
  else raise (ParseError t0)
  end

with parse_statement (fuel : nat) : P obj :=
  match fuel with O => out_of_fuel | S fuel =>
  let* t0 := peek in
  if first_expression t0 then parse_expression fuel
  else if kw t0 "for" then parse_for fuel
  else if kw t0 "return" then
    let* keyword := pop0 in
    parse_return_cont fuel
  else if kw t0 "import" then parse_import
  else if kw t0 "free" then parse_free fuel
  else raise (ParseError t0)
  end

with parse_free (fuel : nat) : P obj :=
  match fuel with O => out_of_fuel | S fuel =>
  let* t0 := peek in
  if kw t0 "free" then
    let* free := pop0 in
    let* lbracket := pop0 in
    if negb (tok_eq lbracket TOKEN_LBRACKET) then raise (ParseError lbracket) else
    let* identity := parse_identity fuel in
    let* rbracket := pop0 in
    if negb (tok_eq rbracket TOKEN_RBRACKET) then raise (ParseError rbracket) else
    ret (Node NODE_FREE identity)
  else raise (ParseError t0)
  end

with parse_for (fuel : nat) : P obj :=
  match fuel with O => out_of_fuel | S fuel =>
  let* t0 := peek in
  if kw t0 "for" then
    let* keyword_for := pop0 in
    let* obj := parse_identity fuel in
    let* keyword_in := pop0 in
    if negb (tok_eq keyword_in TOKEN_KEYWORD)
       || negb (bool_decide (value keyword_in = "in"))
    then raise (ParseError keyword_in) else
    let* iterable := parse_identity fuel in
    let* block := parse_block fuel in
    ret (Node NODE_FOR (OList [obj; iterable; block]))
  else raise (ParseError t0)
  end

with parse_return_cont (fuel : nat) : P obj :=
  match fuel with O => out_of_fuel | S fuel =>
  let* t0 := peek in
  if first_expression t0 then
    let* expression := parse_expression fuel in
    ret (Node NODE_RETURN expression)
  else if tok_eq t0 TOKEN_SEMICOLON then ret (Node NODE_RETURN (OList []))
  else raise (ParseError t0)
  end

with parse_assignment_or_identity_or_function_call (fuel : nat) : P obj :=
  match fuel with O => out_of_fuel | S fuel =>
  let* t0 := peek in
  if tok_eq t0 TOKEN_ASSIGN then parse_assignment_cont fuel
  else if tok_in t0 [TOKEN_LBRACKET; TOKEN_RBRACKET; TOKEN_RSTRAIGHTBRACKET;
                     TOKEN_COMMA; TOKEN_SEMICOLON; TOKEN_COLON;
                     TOKEN_RCURLYBRACKET; TOKEN_EQUAL; TOKEN_GREATERTHAN;
                     TOKEN_LESSTHAN]
  then parse_identity_or_function_call fuel
  else raise (ParseError t0)
  end

with parse_assignment_cont (fuel : nat) : P obj :=
  match fuel with O => out_of_fuel | S fuel =>
  let* t0 := peek in
  if tok_eq t0 TOKEN_ASSIGN then
    let* assign := pop0 in
    let* expression := parse_expression fuel in
    ret (Node NODE_ASSIGNMENT (OList [expression]))
  else raise (ParseError t0)
  end

with parse_identity (fuel : nat) : P obj :=
  match fuel with O => out_of_fuel | S fuel =>
  let* t0 := peek in
  if tok_eq t0 TOKEN_IDENTIFIER then
    let* identifier := pop0 in
    let* keys := parse_keys fuel in
    ret (Node NODE_IDENTITY (OList [OTok identifier; OList keys]))
  else raise (ParseError t0)
  end

with parse_keys (fuel : nat) : P (list obj) :=
  match fuel with O => out_of_fuel | S fuel =>
  let* t0 := peek in
  if tok_eq t0 TOKEN_LSTRAIGHTBRACKET then
    let* key := parse_key fuel in
    let* keys := parse_keys fuel in
    ret (Node NODE_KEY key :: keys)
  else if tok_in t0 [TOKEN_SEMICOLON; TOKEN_ASSIGN; TOKEN_RBRACKET;
                     TOKEN_RSTRAIGHTBRACKET; TOKEN_LBRACKET; TOKEN_COMMA;
                     TOKEN_COLON; TOKEN_LCURLYBRACKET; TOKEN_RCURLYBRACKET;
                     TOKEN_EQUAL; TOKEN_GREATERTHAN; TOKEN_LESSTHAN]
          || kw t0 "in"
  then ret []
  else raise (ParseError t0)
  end

with parse_key (fuel : nat) : P obj :=
  match fuel with O => out_of_fuel | S fuel =>
  let* t0 := peek in
  if tok_eq t0 TOKEN_LSTRAIGHTBRACKET then
    let* lstraightbracket := pop0 in
    let* expression := parse_expression fuel in
    let* rstraightbracket := pop0 in
    if negb (tok_eq rstraightbracket TOKEN_RSTRAIGHTBRACKET)
    then raise AssertionError else
    ret expression
  else raise (ParseError t0)
  end

with parse_expression (fuel : nat) : P obj :=
  match fuel with O => out_of_fuel | S fuel =>
  let* t0 := peek in
  if tok_eq t0 TOKEN_STRING then
    let* tok := pop0 in
    let node := Node NODE_STRING_LITERAL (OTok tok) in
    let* comparison := parse_comparison_cont fuel in
    with_comparison node comparison
  else if tok_eq t0 TOKEN_NUMBER then
    let* tok := pop0 in
    let node := Node NODE_NUMBER_LITERAL (OTok tok) in
    let* comparison := parse_comparison_cont fuel in
    with_comparison node comparison
  else if tok_eq t0 TOKEN_IDENTIFIER then
    let* identity := parse_identity fuel in
    let* _node := parse_assignment_or_identity_or_function_call fuel in
    match identity, _node with
    | Node _ identity_content, Node node_type (OList _node_content) =>
        let content := OList (identity_content :: _node_content) in
        let node := Node node_type content in
        let* comparison := parse_comparison_cont fuel in
        with_comparison node comparison
    | _, _ => raise TypeError
    end
  else if tok_eq t0 TOKEN_LBRACKET then
    let* lbracket := pop0 in
    let* expression := parse_expression fuel in
    let* rbracket := pop0 in
    if negb (tok_eq rbracket TOKEN_RBRACKET) then raise (ParseError rbracket) else
    let* comparison := parse_comparison_cont fuel in
    with_comparison expression comparison
  else if kw t0 "fn" then
    let* node := parse_function fuel in
    let* comparison := parse_comparison_cont fuel in
    with_comparison node comparison
  else if tok_eq t0 TOKEN_LCURLYBRACKET then
    let* node := parse_dictionary fuel in
    let* comparison := parse_comparison_cont fuel in
    with_comparison node comparison
  else if tok_eq t0 TOKEN_KEYWORD && value_in t0 ["True"; "False"] then
    let* node := parse_boolean in
    let* comparison := parse_comparison_cont fuel in
    with_comparison node comparison
  else if kw t0 "extern" then parse_extern
  else raise (ParseError t0)
  end

with parse_identity_or_function_call (fuel : nat) : P obj :=
  match fuel with O => out_of_fuel | S fuel =>
  let* t0 := peek in
  if tok_eq t0 TOKEN_LBRACKET then parse_function_call_cont fuel
  else if tok_in t0 [TOKEN_ASSIGN; TOKEN_RBRACKET; TOKEN_RSTRAIGHTBRACKET;
                     TOKEN_COMMA; TOKEN_SEMICOLON; TOKEN_COLON;
                     TOKEN_RCURLYBRACKET; TOKEN_EQUAL; TOKEN_GREATERTHAN;
                     TOKEN_LESSTHAN]
  then parse_identity_cont
  else raise (ParseError t0)
  end

with parse_function_call_cont (fuel : nat) : P obj :=
  match fuel with O => out_of_fuel | S fuel =>
  let* t0 := peek in
  if tok_eq t0 TOKEN_LBRACKET then
    let* lbracket := pop0 in
    let* args := parse_args fuel in
    let* rbracket := pop0 in
    if negb (tok_eq rbracket TOKEN_RBRACKET) then raise (ParseError rbracket) else
    ret (Node NODE_FUNCTION_CALL (OList [OList args]))
  else raise (ParseError t0)
  end

with parse_args (fuel : nat) : P (list obj) :=
  match fuel with O => out_of_fuel | S fuel =>
  let* t0 := peek in
  if first_expression t0 then
    let* arg := parse_arg fuel in
    let* later_args := parse_later_args fuel in
    ret (arg :: later_args)
  else if tok_eq t0 TOKEN_RBRACKET then ret []
  else raise (ParseError t0)
  end

with parse_later_args (fuel : nat) : P (list obj) :=
  match fuel with O => out_of_fuel | S fuel =>
  let* t0 := peek in
  if tok_eq t0 TOKEN_COMMA then
    let* comma := pop0 in
    let* args := parse_args fuel in
    ret args
  else if tok_eq t0 TOKEN_RBRACKET then ret []
  else raise (ParseError t0)
  end

with parse_arg (fuel : nat) : P obj :=
  match fuel with O => out_of_fuel | S fuel =>
  let* t0 := peek in
  if first_expression t0 then
    let* arg := parse_expression fuel in
    ret (Node NODE_ARG arg)
  else raise (ParseError t0)
  end

with parse_function (fuel : nat) : P obj :=
  match fuel with O => out_of_fuel | S fuel =>
  let* t0 := peek in
  if kw t0 "fn" then
    let* keyword := pop0 in
    let* lbracket := pop0 in
    if negb (tok_eq lbracket TOKEN_LBRACKET) then raise (ParseError lbracket) else
    let* args := parse_args fuel in
    let* rbracket := pop0 in
    if negb (tok_eq rbracket TOKEN_RBRACKET) then raise (ParseError rbracket) else
    let* block := parse_block fuel in
    ret (Node NODE_FUNCTION (OList [OList args; block]))
  else raise (ParseError t0)
  end

with parse_block (fuel : nat) : P obj :=
  match fuel with O => out_of_fuel | S fuel =>
  let* t0 := peek in
  if tok_eq t0 TOKEN_LCURLYBRACKET then
    let* lcurlybraket := pop0 in
    let* statements := parse_statements fuel in
    let* rcurlybracket := pop0 in
    if negb (tok_eq rcurlybracket TOKEN_RCURLYBRACKET)
    then raise (ParseError rcurlybracket) else
    ret (Node NODE_BLOCK (OList statements))
  else raise (ParseError t0)
  end

with parse_dictionary (fuel : nat) : P obj :=
  match fuel with O => out_of_fuel | S fuel =>
  let* t0 := peek in
  if tok_eq t0 TOKEN_LCURLYBRACKET then
    let* lcurlybraket := pop0 in
    let* key_values := parse_key_values fuel in
    let* rcurlybracket := pop0 in
    if negb (tok_eq rcurlybracket TOKEN_RCURLYBRACKET)
    then raise (ParseError rcurlybracket) else
    ret (Node NODE_DICTIONARY (OList key_values))
  else raise (ParseError t0)
  end

with parse_key_values (fuel : nat) : P (list obj) :=
  match fuel with O => out_of_fuel | S fuel =>
  let* t0 := peek in
  if first_expression t0 then
    let* key_value := parse_key_value fuel in
    let* later_key_values := parse_later_key_values fuel in
    ret (key_value :: later_key_values)
  else if tok_eq t0 TOKEN_RCURLYBRACKET then ret []
  else raise (ParseError t0)
  end

with parse_later_key_values (fuel : nat) : P (list obj) :=
  match fuel with O => out_of_fuel | S fuel =>
  let* t0 := peek in
  if tok_eq t0 TOKEN_COMMA then
    let* comma := pop0 in
    let* key_values := parse_key_values fuel in
    ret key_values
  else if tok_eq t0 TOKEN_RCURLYBRACKET then ret []
  else raise (ParseError t0)
  end

with parse_key_value (fuel : nat) : P obj :=
  match fuel with O => out_of_fuel | S fuel =>
  let* t0 := peek in
  if first_expression t0 then
    let* key := parse_expression fuel in
    let* colon := pop0 in
    if negb (tok_eq colon TOKEN_COLON) then raise (ParseError colon) else
    let* value := parse_expression fuel in
    ret (Node NODE_KEY_VALUE (OList [key; value]))
  else raise (ParseError t0)
  end

with parse_comparison_cont (fuel : nat) : P obj :=
  match fuel with O => out_of_fuel | S fuel =>
  let* t0 := peek in
  if tok_eq t0 TOKEN_EQUAL then
    let* equal := pop0 in
    let* expression := parse_expression fuel in
    ret (Node NODE_COMPARISON (OList [OTok equal; expression]))
  else if tok_eq t0 TOKEN_GREATERTHAN then
    let* gt := pop0 in
    let* expression := parse_expression fuel in
    ret (Node NODE_COMPARISON (OList [OTok gt; expression]))
  else if tok_eq t0 TOKEN_LESSTHAN then
    let* lt := pop0 in
    let* expression := parse_expression fuel in
    ret (Node NODE_COMPARISON (OList [OTok lt; expression]))
  else if tok_in t0 [TOKEN_ASSIGN; TOKEN_RBRACKET; TOKEN_RSTRAIGHTBRACKET;
                     TOKEN_COMMA; TOKEN_SEMICOLON; TOKEN_COLON;
                     TOKEN_RCURLYBRACKET]
  then ret (OList [])
  else raise (ParseError t0)
  end.

Definition parse_program (fuel : nat) : P (list obj) :=
  let* t0 := peek in
  if first_statements t0 then parse_statements fuel
  else raise (ParseError t0).

(** [class Parser]: the token buffer and the last committed tree. *)
Record Parser := mkParser { _tokens : list Token; ast : list obj }.

(** [Parser.__init__] *)
Definition init : Parser := mkParser [] [].

Definition add_tokens (tokens : list Token) (self : Parser) : Parser :=
  mkParser (_tokens self ++ tokens) (ast self).

Definition reset (self : Parser) : Parser := mkParser [] (ast self).

(** [tokens[-1]] of a list that is not empty. *)
Definition line_range (self : Parser) : Z * Z :=
  match _tokens self, last (_tokens self) with
  | first :: _, Some final => (line first, line final)
  | _, _ => (0, 0)
  end.

(** [tokens.pop()]: the last element leaves the list. *)
Definition pop_last (tokens : list Token) : res (Token * list Token) :=
  match last tokens with
  | Some t => Ok (t, removelast tokens)
  | None => Raise IndexError
  end.

(** Calls nest deeper only by popping a token or by moving to a function
    further down the grammar, fewer than forty times in a row. *)
Definition parse_fuel (tokens : list Token) : nat :=
  40 * S (length tokens).

(** [Parser.parse]: the returned flag, and the parser after the call.  A
    raise leaves the parser as it was. *)
Definition parse (self : Parser) : option (res (bool * Parser)) :=
  let tokens :=
    _tokens self ++ [mkToken TOKEN_EOF "$" (snd (line_range self))] in
  match parse_program (parse_fuel tokens) tokens with
  | Some (Ok (ast, tokens)) =>
      match pop_last tokens with
      | Ok (final, _) =>
          if tok_eq final TOKEN_EOF
          then Some (Ok (true, reset (mkParser (_tokens self) ast)))
          else Some (Ok (false, self))
      | Raise e => Some (Raise e)
      end
  | Some (Raise e) => Some (Raise e)
  | None => None
  end.

End Parser.

(** ** ir.py *)

(** An IR instruction is a pair [(op, args)].  Each constructor is an
    opcode with the arguments the package builds for it:
    [(IR_SET_NAME, (name,))], [(IR_MAKE_STRING, (string,))],
    [(IR_MAKE_NUMBER, (number,))], [(IR_MAKE_BOOLEAN, (boolean,))],
    [(IR_MAKE_FUNCTION, (args, block))], [(IR_CALL_FUNCTION, (name, args))],
    [(IR_EXTERN, (name, arg_len))] and [(IR_NOP, ())].  The arguments of
    [IR_PUSH_REFERENCE] are the name itself, [(IR_PUSH_REFERENCE, name)],
    not a tuple that holds it. *)
Inductive instr :=
  | IR_SET_NAME (name : string)
  | IR_PUSH_REFERENCE (name : string)
  | IR_MAKE_STRING (value : string)
  | IR_MAKE_NUMBER (value : Z)
  | IR_MAKE_BOOLEAN (value : bool)
  | IR_MAKE_FUNCTION (args : list string) (block : list instr)
  | IR_CALL_FUNCTION (name : string) (args : list instr)
  | IR_EXTERN (name : string) (arg_len : Z)
  | IR_NOP.

Module IRGenerator.

Local Open Scope res_scope.

Definition is_quote (c : ascii) : bool :=
  bool_decide (c = "'"%char) || bool_decide (c = "034"%char).

Fixpoint last_char (c : ascii) (s : string) : ascii :=
  match s with
  | String c' s' => last_char c' s'
  | EmptyString => c
  end.

(** [s[:-1]] *)
Fixpoint drop_last (s : string) : string :=
  match s with
  | String c EmptyString => EmptyString
  | String c s' => String c (drop_last s')
  | EmptyString => EmptyString
  end.

(** [_remove_quotes]: [s[0]] of the empty string is an [IndexError]. *)
Definition _remove_quotes (s : string) : res string :=
  match s with
  | String c s' =>
      if is_quote c && is_quote (last_char c s')
      then Ok (drop_last s')
      else Raise AssertionError
  | EmptyString => Raise IndexError
  end.

Fixpoint all_digits (s : string) : bool :=
  match s with
  | String c s' => Lexer.is_digit c && all_digits s'
  | EmptyString => true
  end.

Fixpoint digits_value (acc : Z) (s : string) : Z :=
  match s with
  | String c s' => digits_value (10 * acc + (Z.of_N (N_of_ascii c) - 48)) s'
  | EmptyString => acc
  end.

(** [int(s)] for the texts of [NUMBER] tokens, which are one or more
    digits.  Python's [int] reads further spellings (a sign, blanks around
    the digits, underscores between them); the lexer produces none, and
    the model refuses them. *)
Definition int (s : string) : res Z :=
  match s with
  | String _ _ =>
      if all_digits s then Ok (digits_value 0 s)
      else Raise (ValueError "invalid literal for int()")
  | EmptyString => Raise (ValueError "invalid literal for int()")
  end.

(** [o.value] *)
Definition value_of (o : obj) : res string :=
  match o with
  | OTok t => Ok (value t)
  | _ => Raise (AttributeError "value")
  end.

(** Which exception an ill-formed node raises (no [content], not two
    items, not iterable) is kept as close as the match allows; the parser
    builds no such node. *)

Definition _generate_identity (node : obj) : res (list instr) :=
  match node with
  | Node _ (OList (first :: _)) | Node _ (OTuple (first :: _)) =>
      match first with
      | OList [identity_token; keys_tokens]
      | OTuple [identity_token; keys_tokens] =>
          if truthy keys_tokens then Raise NotImplementedError
          else
            let* name := value_of identity_token in
            Ok [IR_PUSH_REFERENCE name]
      | OList _ | OTuple _ => Raise (ValueError "unpack")
      | _ => Raise TypeError
      end
  | Node _ (OList []) | Node _ (OTuple []) => Raise IndexError
  | Node _ _ => Raise TypeError
  | _ => Raise (AttributeError "content")
  end.

Definition _generate_string_literal (node : obj) : res (list instr) :=
  match node with
  | Node _ content =>
      let* v := value_of content in
      let* string := _remove_quotes v in
      Ok [IR_MAKE_STRING string]
  | _ => Raise (AttributeError "content")
  end.

Definition _generate_number_literal (node : obj) : res (list instr) :=
  match node with
  | Node _ content =>
      let* v := value_of content in
      let* number := int v in
      Ok [IR_MAKE_NUMBER number]
  | _ => Raise (AttributeError "content")
  end.

Definition _generate_boolean (node : obj) : res (list instr) :=
  match node with
  | Node _ content =>
      let* v := value_of content in
      let boolean := bool_decide (v = "True") in
      Ok [IR_MAKE_BOOLEAN boolean]
  | _ => Raise (AttributeError "content")
  end.

Definition _generate_extern (node : obj) : res (list instr) :=
  match node with
  | Node _ (OList [name_token; arg_len_token])
  | Node _ (OTuple [name_token; arg_len_token]) =>
      let* v := value_of name_token in
      let* name := _remove_quotes v in
      let* n := value_of arg_len_token in
      let* arg_len := int n in
      Ok [IR_EXTERN name arg_len]
  | Node _ (OList _) | Node _ (OTuple _) => Raise (ValueError "unpack")
  | Node _ _ => Raise TypeError
  | _ => Raise (AttributeError "content")
  end.

(** [name.value for arg in args_node for name, _ in arg.content.content] *)
Fixpoint names_of_pairs (pairs : list obj) : res (list string) :=
  match pairs with
  | OList [name; _] :: pairs' | OTuple [name; _] :: pairs' =>
      let* v := value_of name in
      let* vs := names_of_pairs pairs' in
      Ok (v :: vs)
  | (OList _ | OTuple _) :: _ => Raise (ValueError "unpack")
  | _ :: _ => Raise TypeError
  | [] => Ok []
  end.

Fixpoint names_of_args (args_node : list obj) : res (list string) :=
  match args_node with
  | Node _ (Node _ (OList pairs)) :: args' | Node _ (Node _ (OTuple pairs)) :: args' =>
      let* vs := names_of_pairs pairs in
      let* ws := names_of_args args' in
      Ok (vs ++ ws)
  | Node _ (Node _ _) :: _ => Raise TypeError
  | _ :: _ => Raise (AttributeError "content")
  | [] => Ok []
  end.

(** [all(arg.content == NODE_IDENTITY for arg in args_node)]; [None] when
    an [arg] has no [content]. *)
Fixpoint all_identity (args_node : list obj) : option bool :=
  match args_node with
  | Node _ c :: args' =>
      if node_eq c NODE_IDENTITY then all_identity args' else Some false
  | _ :: _ => None
  | [] => Some true
  end.

Section Lowering.

(** The functions below call [_generate_expression] and one another on
    parts of the node they were given; they are written over the
    function to call and closed into one recursion afterwards. *)
Variable generate_expression : obj -> res (list instr).

Definition _generate_assignment_ (node : obj) : res (list instr) :=
  match node with
  | Node _ (OList [identity_node; expression_node])
  | Node _ (OTuple [identity_node; expression_node]) =>
      match identity_node with
      | OList [identity_token; keys_tokens]
      | OTuple [identity_token; keys_tokens] =>
          let* ir_expression := generate_expression expression_node in
          if truthy keys_tokens then Raise NotImplementedError
          else
            let* name := value_of identity_token in
            let ir_identity := IR_SET_NAME name in
            Ok (ir_expression ++ [ir_identity])
      | OList _ | OTuple _ => Raise (ValueError "unpack")
      | _ => Raise TypeError
      end
  | Node _ (OList _) | Node _ (OTuple _) => Raise (ValueError "unpack")
  | Node _ _ => Raise TypeError
  | _ => Raise (AttributeError "content")
  end.

(** [[ir for a in args_node for ir in self._generate_expression(a.content)]] *)
Fixpoint generate_args (args_node : list obj) : res (list instr) :=
  match args_node with
  | Node _ content :: args' =>
      let* ir := generate_expression content in
      let* rest := generate_args args' in
      Ok (ir ++ rest)
  | _ :: _ => Raise (AttributeError "content")
  | [] => Ok []
  end.

Definition _generate_function_call_ (node : obj) : res (list instr) :=
  match node with
  | Node _ (OList [identifier_node; args_node])
  | Node _ (OTuple [identifier_node; args_node]) =>
      match identifier_node with
      | OList (first :: _) | OTuple (first :: _) =>
          let* name := value_of first in
          match args_node with
          | OList items | OTuple items =>
              let* args := generate_args items in
              let ir_function_call := IR_CALL_FUNCTION name args in
              Ok [ir_function_call]
          | _ => Raise TypeError
          end
      | OList [] | OTuple [] => Raise IndexError
      | _ => Raise TypeError
      end
  | Node _ (OList _) | Node _ (OTuple _) => Raise (ValueError "unpack")
  | Node _ _ => Raise TypeError
  | _ => Raise (AttributeError "content")
  end.

Definition _generate_statement_ (node : obj) : res (list instr) :=
  match node with
  | Node _ statement =>
      if node_eq statement NODE_ASSIGNMENT then
        _generate_assignment_ statement
      else if node_eq statement NODE_FUNCTION_CALL then
        _generate_function_call_ statement
      else generate_expression statement
  | _ => Raise (AttributeError "content")
  end.

Fixpoint _generate_program_ (root : list obj) : res (list instr) :=
  match root with
  | node :: root' =>
      let* statement_ir := _generate_statement_ node in
      let* ir := _generate_program_ root' in
      Ok (statement_ir ++ ir)
  | [] => Ok []
  end.

Definition _generate_function_ (node : obj) : res (list instr) :=
  match node with
  | Node _ (OList [args_node; block_node])
  | Node _ (OTuple [args_node; block_node]) =>
      match args_node with
      | OList items | OTuple items =>
          match all_identity items with
          | Some true =>
              let* args := names_of_args items in
              match block_node with
              | Node _ (OList statements) | Node _ (OTuple statements) =>
                  let* block := _generate_program_ statements in
                  let ir_function := IR_MAKE_FUNCTION args block in
                  Ok [ir_function]
              | Node _ _ => Raise TypeError
              | _ => Raise (AttributeError "content")
              end
          | Some false => Raise AssertionError
          | None => Raise (AttributeError "content")
          end
      | _ => Raise TypeError
      end
  | Node _ (OList _) | Node _ (OTuple _) => Raise (ValueError "unpack")
  | Node _ _ => Raise TypeError
  | _ => Raise (AttributeError "content")
  end.

End Lowering.

Fixpoint _generate_expression (node : obj) : res (list instr) :=
  if node_eq node NODE_IDENTITY then _generate_identity node
  else if node_eq node NODE_STRING_LITERAL then _generate_string_literal node
  else if node_eq node NODE_NUMBER_LITERAL then _generate_number_literal node
  else if node_eq node NODE_BOOLEAN then _generate_boolean node
  else if node_eq node NODE_FUNCTION then
    _generate_function_ _generate_expression node
  else if node_eq node NODE_FUNCTION_CALL then
    _generate_function_call_ _generate_expression node
  else if node_eq node NODE_EXTERN then _generate_extern node
  else Raise NotImplementedError.

Definition _generate_assignment := _generate_assignment_ _generate_expression.
Definition _generate_function_call := _generate_function_call_ _generate_expression.
Definition _generate_function := _generate_function_ _generate_expression.
Definition _generate_statement := _generate_statement_ _generate_expression.
Definition _generate_program := _generate_program_ _generate_expression.

(** [IRGenerator(ast).ir] *)
Definition ir (ast : list obj) : res (list instr) := _generate_program ast.

End IRGenerator.

(** ** generator.py *)

Module Generator.

(** A dict whose keys are strings, in insertion order. *)
Definition dict (V : Type) : Type := list (string * V).

Fixpoint dict_get {V} (k : string) (d : dict V) : option V :=
  match d with
  | (k', v) :: d' => if bool_decide (k' = k) then Some v else dict_get k d'
  | [] => None
  end.

(** [d[k] = v]: a key already there keeps its place. *)
Fixpoint dict_set {V} (k : string) (v : V) (d : dict V) : dict V :=
  match d with
  | (k', v') :: d' =>
      if bool_decide (k' = k) then (k', v) :: d' else (k', v') :: dict_set k v d'
  | [] => [(k, v)]
  end.

Definition dict_keys {V} (d : dict V) : list string := map fst d.

(** One line of assembly: label, mnemonic, operands. *)
Definition asm_line : Type := string * string * string.

(** [class Context].  A context made by [Context(parent=...)] has the
    name [None]. *)
Inductive Context := mkContext {
  name : option string;
  _variables : gmap string Z;
  _parent : option Context;
  _position : Z
}.

(** [Context.__init__] *)
Definition Context_init (name : option string) (parent : option Context)
  : Context := mkContext name ∅ parent 0.

(** [Context.variables].  With a parent the property reads [self.parent],
    an attribute no [Context] has: the object stores its parent as
    [_parent]. *)
Definition variables (self : Context) : res (gmap string Z) :=
  match _parent self with
  | Some _ => Raise (AttributeError "parent")
  | None => Ok (_variables self)
  end.

(** [Context.child] *)
Definition child (self : Context) : Context :=
  Context_init None (Some self).

Definition add_variable (name' : string) (self : Context) : Context :=
  mkContext (name self) (<[name' := _position self]> (_variables self))
    (_parent self) (_position self).

Definition move_stack_pointer (self : Context) : Context :=
  mkContext (name self) (_variables self) (_parent self) (_position self - 8).

(** [Context.get_position]: [not position] holds for [None] and for 0. *)
Definition get_position (name' : string) (self : Context) : res Z :=
  match _variables self !! name' with
  | Some position =>
      if bool_decide (position = 0)
      then Raise (ValueError ("Unknown variable: " +:+ name'))
      else Ok position
  | None => Raise (ValueError ("Unknown variable: " +:+ name'))
  end.

(** [class GeneratorX86_64Linux] *)
Record GeneratorX86_64Linux := mkGenerator {
  _global : string;
  _extern : list string;
  _functions : dict (list asm_line);
  _data : dict asm_line;
  _labels : gmap string N;
  _context : Context
}.

(** [GeneratorX86_64Linux.__init__] *)
Definition init : GeneratorX86_64Linux :=
  mkGenerator "main" []
    [ ("main", [("", "mov", "rbp, rsp")]);
      ("exit", [("", "mov", "rax, 60");
                ("", "mov", "rdi, [rsp+8]");
                ("", "syscall", "")]) ]
    [] ∅ (Context_init (Some "main") None).

(** A method runs on the generator and leaves it changed, whether it
    returns or raises. *)
Definition G (A : Type) : Type :=
  GeneratorX86_64Linux -> res A * GeneratorX86_64Linux.

Definition ret {A} (a : A) : G A := fun self => (Ok a, self).
Definition raise {A} (e : exn) : G A := fun self => (Raise e, self).
Definition bind {A B} (m : G A) (k : A -> G B) : G B :=
  fun self =>
    match m self with
    | (Ok a, self') => k a self'
    | (Raise e, self') => (Raise e, self')
    end.

Declare Scope gen_scope.
Delimit Scope gen_scope with gen.
Notation "'let*' x ':=' m 'in' k" := (bind m (fun x => k))
  (at level 10, x pattern, m at level 100, k at level 200) : gen_scope.
Notation "m ;; k" := (bind m (fun _ => k))
  (at level 100, k at level 200, right associativity) : gen_scope.
Local Open Scope gen_scope.

Definition when (b : bool) (m : G unit) : G unit := if b then m else ret tt.

Definition with_context (f : Context -> Context) : G unit := fun self =>
  (Ok tt, mkGenerator (_global self) (_extern self) (_functions self)
            (_data self) (_labels self) (f (_context self))).

Definition set_functions (fs : dict (list asm_line)) : G unit := fun self =>
  (Ok tt, mkGenerator (_global self) (_extern self) fs (_data self)
            (_labels self) (_context self)).

(** [self._functions[key].append(line)] *)
Definition append_to (key : string) (line : asm_line) : G unit := fun self =>
  match dict_get key (_functions self) with
  | Some lines => set_functions (dict_set key (lines ++ [line]) (_functions self)) self
  | None => (Raise (KeyError key), self)
  end.

(** [self._functions[self._context.name].append(line)] *)
Definition append (line : asm_line) : G unit := fun self =>
  match name (_context self) with
  | Some key => append_to key line self
  | None => (Raise (KeyError "None"), self)
  end.

Fixpoint zeros (k : nat) : string :=
  match k with
  | S k' => String "0" (zeros k')
  | O => ""
  end.

(** [f"{number:06d}"]: zeros on the left up to six characters. *)
Definition format_06d (number : N) : string :=
  let digits := pretty number in
  zeros (6 - String.length digits) +:+ digits.

(** [_Generator._next_label] *)
Definition _next_label (prefix : string) : G string := fun self =>
  let number := default 1%N (_labels self !! prefix) in
  let label := prefix +:+ "_" +:+ format_06d number in
  (Ok label,
   mkGenerator (_global self) (_extern self) (_functions self) (_data self)
     (<[prefix := (number + 1)%N]> (_labels self)) (_context self)).

Definition extern (name : string) (param_len : Z) : G unit :=
  if bool_decide (param_len > 4) then raise NotImplementedError else
  fun self =>
  if bool_decide (name ∈ _extern self) then (Ok tt, self) else
  (let* label := _next_label "f" in
   (fun self => (Ok tt, mkGenerator (_global self) (_extern self ++ [name])
                          (_functions self) (_data self) (_labels self)
                          (_context self))) ;;
   append ("", "mov", "rax, " +:+ label) ;;
   append ("", "push", "rax") ;;
   (fun self => set_functions
                  (dict_set label [("", "push", "rbp")] (_functions self)) self) ;;
   when (bool_decide (param_len > 0)) (append_to label ("", "push", "rdi")) ;;
   when (bool_decide (param_len > 1)) (append_to label ("", "push", "rsi")) ;;
   when (bool_decide (param_len > 2)) (append_to label ("", "push", "rdx")) ;;
   when (bool_decide (param_len > 3)) (append_to label ("", "push", "rcx")) ;;
   append_to label ("", "mov", "rbp, rsp") ;;
   when (bool_decide (param_len > 0))
     (append_to label ("", "mov", "rdi, [rbp+" +:+ pretty (16 + 8 * param_len) +:+ "]")) ;;
   when (bool_decide (param_len > 1))
     (append_to label ("", "mov", "rsi, [rbp+" +:+ pretty (24 + 8 * param_len) +:+ "]")) ;;
   when (bool_decide (param_len > 2))
     (append_to label ("", "mov", "rdx, [rbp+" +:+ pretty (32 + 8 * param_len) +:+ "]")) ;;
   when (bool_decide (param_len > 3))
     (append_to label ("", "mov", "rcx, [rbp+" +:+ pretty (40 + 8 * param_len) +:+ "]")) ;;
   append_to label ("", "call", name) ;;
   append_to label ("", "mov", "rsp, rbp") ;;
   when (bool_decide (param_len > 3)) (append_to label ("", "pop", "rcx")) ;;
   when (bool_decide (param_len > 2)) (append_to label ("", "pop", "rdx")) ;;
   when (bool_decide (param_len > 1)) (append_to label ("", "pop", "rsi")) ;;
   when (bool_decide (param_len > 0)) (append_to label ("", "pop", "rdi")) ;;
   append_to label ("", "pop", "rbp") ;;
   append_to label ("", "ret", "") ;;
   with_context move_stack_pointer) self.

Definition set_name (name : string) : G unit :=
  with_context (add_variable name).

Definition make_number (value : Z) : G unit :=
  append ("", "push", pretty value) ;;
  with_context move_stack_pointer.

(** [self._context.get_position(name)] *)
Definition position_of (name : string) : G Z := fun self =>
  (get_position name (_context self), self).

Definition push_reference (name : string) : G unit :=
  let* position := position_of name in
  if bool_decide (position <= 0) then
    append ("", "mov", "rax, [rbp-" +:+ pretty (- position) +:+ "]") ;;
    append ("", "push", "rax") ;;
    with_context move_stack_pointer
  else raise AssertionError.

Definition set_data (label : string) (line : asm_line) : G unit := fun self =>
  (Ok tt, mkGenerator (_global self) (_extern self) (_functions self)
            (dict_set label line (_data self)) (_labels self) (_context self)).

Definition quoted (value : string) : string :=
  String "034"%char (value +:+ String "034"%char "").

Section Methods.

(** [call_function] and, through it, [make_string] call [compile]; they
    are written over the function to call. *)
Variable compile : list instr -> G unit.

Definition call_function_ (name : string) (args : list instr) : G unit :=
  compile args ;;
  let* position := position_of name in
  let arg_len := Z.of_nat (length args) in
  if bool_decide (position <= 0) then
    append ("", "call", "[rbp-" +:+ pretty (- position) +:+ "]") ;;
    append ("", "add", "rsp, " +:+ pretty (8 * arg_len)) ;;
    append ("", "push", "rax")
  else raise AssertionError.

Definition make_string_ (value : string) : G unit :=
  let string_length := Z.of_nat (String.length value) + 1 in
  extern "malloc" 1 ;;
  set_name "malloc" ;;
  make_number string_length ;;
  call_function_ "malloc" [IR_NOP] ;;
  let* string_label := _next_label "s" in
  let* start_label := _next_label "l" in
  let* end_label := _next_label "e" in
  set_data string_label ("", "db", quoted value +:+ ", 0") ;;
  append ("", "mov", "rdi, " +:+ string_label) ;;
  append ("", "mov", "rcx, " +:+ pretty string_length) ;;
  append ("", "xor", "rbx, rbx") ;;
  append (start_label +:+ ":", "mov", "bl, byte [rdi]") ;;
  append ("", "mov", "byte [rax], bl") ;;
  append ("", "inc", "rax") ;;
  append ("", "inc", "rdi") ;;
  append ("", "dec", "rcx") ;;
  append ("", "cmp", "rcx, byte 0") ;;
  append ("", "je", end_label) ;;
  append ("", "jmp", start_label) ;;
  append (end_label +:+ ":", "", "") ;;
  with_context move_stack_pointer.

End Methods.

Section Loop.

(** The body of the loop of [compile], on one instruction. *)
Variable compile_instr : instr -> G unit.

(** [for instr, args in ir: ...] *)
Fixpoint compile_ (ir : list instr) : G unit :=
  match ir with
  | i :: ir' => compile_instr i ;; compile_ ir'
  | [] => ret tt
  end.

End Loop.

(** [if instr != IR_NOP: methods[instr](...)], the arguments spread.
    [methods] has no entry for [IR_MAKE_BOOLEAN] and [IR_MAKE_FUNCTION].
    The arguments of [IR_PUSH_REFERENCE] are a string, which spreads into
    its characters, one argument each, where [push_reference] takes one.
    [make_string] compiles the list [[(IR_NOP, ())]], a run that does
    nothing; [make_string_unfold] below gives the equation with [compile]
    itself. *)
Fixpoint compile_instr (i : instr) : G unit :=
  match i with
  | IR_NOP => ret tt
  | IR_MAKE_NUMBER value => make_number value
  | IR_EXTERN name param_len => extern name param_len
  | IR_SET_NAME name => set_name name
  | IR_CALL_FUNCTION name args =>
      call_function_ (compile_ compile_instr) name args
  | IR_MAKE_STRING value => make_string_ (fun _ => ret tt) value
  | IR_PUSH_REFERENCE name =>
      match name with
      | String _ EmptyString => push_reference name
      | _ => raise TypeError
      end
  | IR_MAKE_BOOLEAN _ => raise (KeyError "ir_make_boolean")
  | IR_MAKE_FUNCTION _ _ => raise (KeyError "ir_make_function")
  end.

(** [_Generator.compile] *)
Definition compile : list instr -> G unit := compile_ compile_instr.

Definition call_function := call_function_ compile.
Definition make_string := make_string_ compile.

(** *** The assembly text *)

Fixpoint blanks (k : nat) : string :=
  match k with
  | S k' => String " " (blanks k')
  | O => ""
  end.

(** [f"{s:10s}"]: blanks on the right up to ten characters. *)
Definition format_10s (s : string) : string :=
  s +:+ blanks (10 - String.length s).

(** [_format_line], the function inside [asm]. *)
Definition _format_line (line : asm_line) : string :=
  let '(left_, middle, right_) := line in
  format_10s left_ +:+ " " +:+ format_10s middle +:+ " " +:+ format_10s right_
  +:+ String "010"%char "".

(** [for x in xs: asm += f(x)] *)
Fixpoint join {A} (f : A -> string) (xs : list A) : string :=
  match xs with
  | x :: xs' => f x +:+ join f xs'
  | [] => ""
  end.

(** The text [asm] builds once it has added the exit sequence. *)
Definition text_of (self : GeneratorX86_64Linux) : string :=
  ("; Generated by uro0 compiler - written by Joris Hartog"
   +:+ String "010"%char "")
  +:+ _format_line ("", "global", _global self)
  +:+ join (fun module => _format_line ("", "extern", module)) (_extern self)
  +:+ _format_line ("", "section", ".text")
  +:+ join (fun '(name, function) =>
              _format_line (name +:+ ":", "", "") +:+ join _format_line function)
        (_functions self)
  +:+ _format_line ("", "section", ".data")
  +:+ join (fun '(name, data) =>
              _format_line (name +:+ ": ", "", "") +:+ _format_line data)
        (_data self).

(** [GeneratorX86_64Linux.asm]: reading the property appends the exit
    sequence to the global function before the text is built. *)
Definition asm : G string :=
  (fun self => append_to (_global self) ("", "push", "0") self) ;;
  (fun self => append_to (_global self) ("", "call", "exit") self) ;;
  (fun self => (Ok (text_of self), self)).

End Generator.

(** ** uro.py *)

Module Uro.

(** A double quote, and a text between double quotes. *)
Definition dq : string := String "034"%char "".
Definition in_dq (s : string) : string := dq +:+ s +:+ dq.

(** [parser = Parser(); parser.add_tokens(tokens); parser.parse()] *)
Definition parse_tokens (tokens : list Token)
  : option (res (bool * Parser.Parser)) :=
  Parser.parse (Parser.add_tokens tokens Parser.init).

Definition parse_source (code : string) : option (res (bool * Parser.Parser)) :=
  parse_tokens (Lexer.tokenize code).

(** [assert parser.parse(); irg = IRGenerator(parser.ast); irg.ir] *)
Definition lower (code : string) : option (res (list instr)) :=
  match parse_source code with
  | Some (Ok (true, parser)) => Some (IRGenerator.ir (Parser.ast parser))
  | Some (Ok (false, _)) => Some (Raise AssertionError)
  | Some (Raise e) => Some (Raise e)
  | None => None
  end.

(** [main], for a file that holds [code]: the generator after
    [gen.compile(irg.ir)]. *)
Definition main (code : string)
  : option (res Generator.GeneratorX86_64Linux) :=
  match lower code with
  | Some (Ok ir) =>
      match Generator.compile ir Generator.init with
      | (Ok _, gen) => Some (Ok gen)
      | (Raise e, _) => Some (Raise e)
      end
  | Some (Raise e) => Some (Raise e)
  | None => None
  end.

End Uro.

(** ** repl.py *)

Module Repl.

(** [class Shell]: the prompts are constants and the history file is
    left out; what [evaluate] works on is the parser. *)
Record Shell := mkShell { parser : Parser.Parser }.

(** [Shell.__init__] *)
Definition init : Shell := mkShell Parser.init.

(** The [except] clauses of [evaluate]: a [ParseError] empties the buffer
    (and is logged), [UnexpectedEOF] asks for more input, and anything
    else leaves [evaluate] as it was raised. *)
Definition handle (e : exn) (self : Shell)
  : res (bool * option string) * Shell :=
  match e with
  | ParseError_ _ => (Ok (false, None), mkShell (Parser.reset (parser self)))
  | UnexpectedEOF => (Ok (true, None), self)
  | _ => (Raise e, self)
  end.

(** [Shell.evaluate]: the pair [(continuation, result)] it returns or the
    exception it lets through, and the shell after the call. *)
Definition evaluate (statement : string) (self : Shell)
  : option (res (bool * option string) * Shell) :=
  let tokens := Lexer.tokenize statement in
  let self1 := mkShell (Parser.add_tokens tokens (parser self)) in
  match Parser.parse (parser self1) with
  | Some (Ok (success, parser2)) =>
      let self2 := mkShell parser2 in
      if success then
        match IRGenerator.ir (Parser.ast parser2) with
        | Ok ir =>
            match Generator.compile ir Generator.init with
            | (Ok _, gen) =>
                match Generator.asm gen with
                | (Ok text, _) => Some (Ok (false, Some text), self2)
                | (Raise e, _) => Some (handle e self2)
                end
            | (Raise e, _) => Some (handle e self2)
            end
        | Raise e => Some (handle e self2)
        end
      else Some (handle AssertionError self2)
  | Some (Raise e) => Some (handle e self1)
  | None => None
  end.

End Repl.

(** * Vocabulary of the properties *)

Module Descent.

Import Parser.

(** The last token of [ts], when it is the end-of-input token, is still
    the last token of [ts']. *)
Definition keeps (ts ts' : list Token) : Prop :=
  forall e, last ts = Some e -> type e = TOKEN_EOF -> last ts' = Some e.

(** A run of [m] that returns leaves a list no longer than it found, or
    shorter when [strict], and keeps the end-of-input token at its end. *)
Definition advances (strict : bool) {A} (m : P A) : Prop :=
  forall ts a ts',
    m ts = Some (Ok (a, ts')) ->
    keeps ts ts'
    /\ (if strict then length ts' < length ts else length ts' <= length ts)%nat.

Definition descent_advances (n : nat) : Prop :=
  advances false (parse_statements n)
  /\ advances true (parse_statement n)
  /\ advances true (parse_free n)
  /\ advances true (parse_for n)
  /\ advances false (parse_return_cont n)
  /\ advances false (parse_assignment_or_identity_or_function_call n)
  /\ advances true (parse_assignment_cont n)
  /\ advances true (parse_identity n)
  /\ advances false (parse_keys n)
  /\ advances true (parse_key n)
  /\ advances true (parse_expression n)
  /\ advances false (parse_identity_or_function_call n)
  /\ advances true (parse_function_call_cont n)
  /\ advances false (parse_args n)
  /\ advances false (parse_later_args n)
  /\ advances true (parse_arg n)
  /\ advances true (parse_function n)
  /\ advances true (parse_block n)
  /\ advances true (parse_dictionary n)
  /\ advances false (parse_key_values n)
  /\ advances false (parse_later_key_values n)
  /\ advances true (parse_key_value n)
  /\ advances false (parse_comparison_cont n).

(** With [r] nested calls and five more for every token, the run is not
    cut short. *)
Definition enough (r : nat) {A} (m : P A) (n : nat) : Prop :=
  forall ts, (r + 5 * length ts <= n)%nat -> m ts <> None.

Definition descent_enough (n : nat) : Prop :=
  enough 4 (parse_statements n) n
  /\ enough 3 (parse_statement n) n
  /\ enough 1 (parse_free n) n
  /\ enough 1 (parse_for n) n
  /\ enough 3 (parse_return_cont n) n
  /\ enough 3 (parse_assignment_or_identity_or_function_call n) n
  /\ enough 1 (parse_assignment_cont n) n
  /\ enough 1 (parse_identity n) n
  /\ enough 2 (parse_keys n) n
  /\ enough 1 (parse_key n) n
  /\ enough 2 (parse_expression n) n
  /\ enough 2 (parse_identity_or_function_call n) n
  /\ enough 1 (parse_function_call_cont n) n
  /\ enough 4 (parse_args n) n
  /\ enough 1 (parse_later_args n) n
  /\ enough 3 (parse_arg n) n
  /\ enough 1 (parse_function n) n
  /\ enough 1 (parse_block n) n
  /\ enough 1 (parse_dictionary n) n
  /\ enough 4 (parse_key_values n) n
  /\ enough 1 (parse_later_key_values n) n
  /\ enough 3 (parse_key_value n) n
  /\ enough 1 (parse_comparison_cont n) n.

End Descent.

Module Spec.

Import Generator.

(** ** The trampoline of an extern *)

(** The body [extern] builds for the trampoline of [name], read off the
    appends of [extern] in their order. *)
Definition thunk (name : string) (param_len : Z) : list asm_line :=
  [("", "push", "rbp")]
  ++ (if bool_decide (param_len > 0) then [("", "push", "rdi")] else [])
  ++ (if bool_decide (param_len > 1) then [("", "push", "rsi")] else [])
  ++ (if bool_decide (param_len > 2) then [("", "push", "rdx")] else [])
  ++ (if bool_decide (param_len > 3) then [("", "push", "rcx")] else [])
  ++ [("", "mov", "rbp, rsp")]
  ++ (if bool_decide (param_len > 0)
      then [("", "mov", "rdi, [rbp+" +:+ pretty (16 + 8 * param_len) +:+ "]")]
      else [])
  ++ (if bool_decide (param_len > 1)
      then [("", "mov", "rsi, [rbp+" +:+ pretty (24 + 8 * param_len) +:+ "]")]
      else [])
  ++ (if bool_decide (param_len > 2)
      then [("", "mov", "rdx, [rbp+" +:+ pretty (32 + 8 * param_len) +:+ "]")]
      else [])
  ++ (if bool_decide (param_len > 3)
      then [("", "mov", "rcx, [rbp+" +:+ pretty (40 + 8 * param_len) +:+ "]")]
      else [])
  ++ [("", "call", name); ("", "mov", "rsp, rbp")]
  ++ (if bool_decide (param_len > 3) then [("", "pop", "rcx")] else [])
  ++ (if bool_decide (param_len > 2) then [("", "pop", "rdx")] else [])
  ++ (if bool_decide (param_len > 1) then [("", "pop", "rsi")] else [])
  ++ (if bool_decide (param_len > 0) then [("", "pop", "rdi")] else [])
  ++ [("", "pop", "rbp"); ("", "ret", "")].

(** ** Labels *)

(** The number the next label for [prefix] carries:
    [self._labels.get(prefix, 1)]. *)
Definition counter (self : GeneratorX86_64Linux) (prefix : string) : N :=
  default 1%N (_labels self !! prefix).

(** The label [_next_label] hands out for [prefix] when the generator is
    [self]. *)
Definition next_label_of (prefix : string) (self : GeneratorX86_64Linux)
  : string :=
  prefix +:+ "_" +:+ format_06d (counter self prefix).

(** The labels a run of calls of [_next_label] hands out, one call for
    each prefix of the list, in order. *)
Fixpoint issue (prefixes : list string) : G (list string) :=
  match prefixes with
  | prefix :: prefixes' =>
      bind (_next_label prefix) (fun label =>
      bind (issue prefixes') (fun labels => ret (label :: labels)))
  | [] => ret []
  end.

(** The labels that stand in front of the lines of a stream. *)
Definition line_labels (stream : list asm_line) : list string :=
  filter (fun label => label ≠ "") (map (fun line => line.1.1) stream).

(** ** The statements both later stages implement *)

(** The text of a [NUMBER] token: one digit or more. *)
Definition number_text (s : string) : bool :=
  match s with
  | EmptyString => false
  | _ => IRGenerator.all_digits s
  end.

(** The text of a [STRING] token: [_remove_quotes] accepts it. *)
Definition quoted_text (s : string) : bool :=
  match IRGenerator._remove_quotes s with
  | Ok _ => true
  | Raise _ => false
  end.

Section Args.

Variable check : obj -> bool.

(** The arguments of a call, as [parse_args] builds them. *)
Fixpoint args_ok (args : list obj) : bool :=
  match args with
  | Node NODE_ARG a :: args' => check a && args_ok args'
  | _ :: _ => false
  | [] => true
  end.

End Args.

(** An expression made of number and string literals, extern declarations
    of at most four parameters, and calls of names in [bound] on such
    expressions, each node as the parser builds it. *)
Fixpoint expr_ok (bound : list string) (e : obj) : bool :=
  match e with
  | Node NODE_NUMBER_LITERAL (OTok t) => number_text (value t)
  | Node NODE_STRING_LITERAL (OTok t) => quoted_text (value t)
  | Node NODE_EXTERN (OTuple [OTok s; OTok n]) =>
      quoted_text (value s) && number_text (value n)
      && bool_decide (IRGenerator.digits_value 0 (value n) <= 4)
  | Node NODE_FUNCTION_CALL (OList [OList [OTok f; OList _]; OList args]) =>
      bool_decide (value f ∈ bound) && args_ok (expr_ok bound) args
  | _ => false
  end.

(** The target and right-hand side of an assignment to a name without
    keys. *)
Definition assignment_of (statement : obj) : option (Token * obj) :=
  match statement with
  | Node NODE_ASSIGNMENT (OList [OList [OTok x; OList []]; rhs]) => Some (x, rhs)
  | _ => None
  end.

(** A statement that is such an expression, or the assignment of one to a
    name without keys; the names assigned so far, the statement's own
    included. *)
Definition stmt_ok (bound : list string) (s : obj) : option (list string) :=
  match s with
  | Node NODE_STATEMENT statement =>
      match assignment_of statement with
      | Some (x, rhs) =>
          if expr_ok bound rhs then Some (value x :: bound) else None
      | None => if expr_ok bound statement then Some bound else None
      end
  | _ => None
  end.

Fixpoint program_ok (bound : list string) (ast : list obj) : bool :=
  match ast with
  | s :: ast' =>
      match stmt_ok bound s with
      | Some bound' => program_ok bound' ast'
      | None => false
      end
  | [] => true
  end.

(** A statement of one of the kinds lowering or [compile] has no code for:
    a boolean, a function literal, a dictionary, a comparison, [for],
    [free], [import], [return]. *)
Definition unimplemented (s : obj) : bool :=
  match s with
  | Node NODE_STATEMENT (Node ty _) =>
      bool_decide (ty ∈ [NODE_BOOLEAN; NODE_FUNCTION; NODE_DICTIONARY;
                         NODE_COMPARISON; NODE_FOR; NODE_FREE; NODE_IMPORT;
                         NODE_RETURN])
  | _ => false
  end.

(** From every generator, the run of [compile] on [ir] raises. *)
Definition always_raises (ir : list instr) : Prop :=
  forall g, exists e g', compile ir g = (Raise e, g').

(** ** What a run of the generator keeps *)

Definition position (g : GeneratorX86_64Linux) : Z := _position (_context g).

(** The current function has a stream; the offset is at most 0, and below
    0 once an extern is declared; the names of [bound] are bound below 0;
    no name is bound below the offset. *)
Definition Inv (bound : list string) (g : GeneratorX86_64Linux) : Prop :=
  (exists key, name (_context g) = Some key
               /\ is_Some (dict_get key (_functions g)))
  /\ position g <= 0
  /\ (_extern g ≠ [] -> position g < 0)
  /\ (forall x, x ∈ bound ->
        exists p, _variables (_context g) !! x = Some p /\ p < 0)
  /\ (forall x p, _variables (_context g) !! x = Some p -> position g <= p).

(** [g'] has the context and the externs of [g], and a stream for every
    function [g] has one for. *)
Definition frame (g g' : GeneratorX86_64Linux) : Prop :=
  _context g' = _context g /\ _extern g' = _extern g
  /\ (forall k, is_Some (dict_get k (_functions g)) ->
                is_Some (dict_get k (_functions g'))).

(** [m] returns from [g], with a result and a generator that satisfy [Q]. *)
Definition wp {A} (m : G A) (Q : A -> GeneratorX86_64Linux -> Prop)
    (g : GeneratorX86_64Linux) : Prop :=
  exists a g', m g = (Ok a, g') /\ Q a g'.

Fixpoint size (o : obj) : nat :=
  match o with
  | OTok _ => 1
  | Node _ c => S (size c)
  | OList l | OTuple l => S (list_sum (map size l))
  end.

(** What an expression of the fragment does: it lowers, and its
    instructions compile, keep the invariant and leave a value pushed. *)
Definition expr_runs (bound : list string) (e : obj) : Prop :=
  exists ir,
    IRGenerator._generate_expression e = Ok ir
    /\ forall g (Q : unit -> _ -> Prop),
         Inv bound g ->
         (forall g', Inv bound g' -> position g' < 0 -> Q tt g') ->
         wp (compile ir) Q g.

End Spec.

(** ** Texts *)

Module Text.

(** [c] is one of the characters of [s]. *)
Fixpoint occurs (c : ascii) (s : string) : bool :=
  match s with
  | String c' s' => bool_decide (c' = c) || occurs c s'
  | EmptyString => false
  end.

(** A rule that fails on a text fails on what the text starts with, and a
    rule that matches the start of a text matches it alone. *)
Definition stable (rule : string -> option string) : Prop :=
  forall v post,
    (rule (v +:+ post) = None -> rule v = None)
    /\ (rule (v +:+ post) = Some v -> rule v = Some v).

(** A token moved [k] lines down. *)
Definition shift (k : Z) (t : Token) : Token :=
  mkToken (type t) (value t) (line t + k).

End Text.

(** ** Runs of the generator *)

Module Run.

Import Generator.

(** What the generator [g'] a run left has to do with the generator [g]
    the run started from. *)
Record steps (g g' : GeneratorX86_64Linux) : Prop := mkSteps {
  steps_global : _global g' = _global g;
  steps_name : name (_context g') = name (_context g);
  steps_parent : _parent (_context g') = _parent (_context g);
  steps_position :
    exists k : nat,
      _position (_context g') = _position (_context g) - 8 * Z.of_nat k;
  steps_labels :
    forall prefix, (Spec.counter g prefix <= Spec.counter g' prefix)%N;
  steps_extern :
    exists added,
      _extern g' = _extern g ++ added
      /\ NoDup added
      /\ (forall x, x ∈ added -> x ∉ _extern g);
  steps_variables :
    forall x p,
      _variables (_context g') !! x = Some p ->
      _variables (_context g) !! x = Some p
      \/ _position (_context g') <= p <= _position (_context g);
  steps_functions :
    forall k, is_Some (dict_get k (_functions g)) ->
              is_Some (dict_get k (_functions g'));
  steps_data :
    forall k, is_Some (dict_get k (_data g)) -> is_Some (dict_get k (_data g'))
}.

(** Whatever [m] is run from, and whether it returns or raises. *)
Definition moves {A} (m : G A) : Prop := forall g, steps g (m g).2.

(** A generator as [compile] finds it: the current function has a
    stream, no offset is above 0, and no function is named by a
    trampoline label still to come. *)
Definition ready (g : GeneratorX86_64Linux) : Prop :=
  (exists key, name (_context g) = Some key
               /\ is_Some (dict_get key (_functions g)))
  /\ _position (_context g) <= 0
  /\ (forall x p, _variables (_context g) !! x = Some p -> p <= 0)
  /\ (forall n, (Spec.counter g "f" <= n)%N ->
                dict_get ("f" +:+ "_" +:+ format_06d n) (_functions g) = None).

(** The exceptions [compile] raises from such a generator. *)
Definition expected (e : exn) : Prop :=
  e = NotImplementedError
  \/ e = TypeError
  \/ e = KeyError "ir_make_boolean"
  \/ e = KeyError "ir_make_function"
  \/ exists x, e = ValueError ("Unknown variable: " +:+ x).

(** Every stream of [g] is in [g'] with lines added at its end, and with
    none added unless it is the stream of the current function. *)
Definition grows (g g' : GeneratorX86_64Linux) : Prop :=
  name (_context g') = name (_context g)
  /\ forall k s,
       dict_get k (_functions g) = Some s ->
       exists s',
         dict_get k (_functions g') = Some (s ++ s')
         /\ (name (_context g) ≠ Some k -> s' = []).

Definition sound {A} (Q : A -> Prop) (m : G A) : Prop :=
  forall g,
    ready g ->
    ready (m g).2
    /\ grows g (m g).2
    /\ match (m g).1 with
       | Ok a => Q a
       | Raise e => expected e
       end.

End Run.

(** ** Trees of the parser *)

Module Tree.

(** A token whose text is what the lexer gives its type: a [STRING]
    between quotes, a [NUMBER] made of digits. *)
Definition tok_ok (t : Token) : bool :=
  match type t with
  | TOKEN_STRING => Spec.quoted_text (value t)
  | TOKEN_NUMBER => Spec.number_text (value t)
  | _ => true
  end.

Section Items.

Variable check : obj -> bool.

(** The statements of a program or block, as [parse_statements] builds
    them. *)
Fixpoint statements_ok (statements : list obj) : bool :=
  match statements with
  | Node NODE_STATEMENT s :: statements' => check s && statements_ok statements'
  | _ :: _ => false
  | [] => true
  end.

End Items.

(** The nodes [parse_statement] returns: the parts that lowering takes
    apart are where it looks for them.  Lowering has no code for the last
    six kinds and takes nothing of them apart. *)
Fixpoint wf (o : obj) : bool :=
  match o with
  | Node NODE_STRING_LITERAL (OTok t) => Spec.quoted_text (value t)
  | Node NODE_NUMBER_LITERAL (OTok t) => Spec.number_text (value t)
  | Node NODE_BOOLEAN (OTok _) => true
  | Node NODE_IDENTITY (OList [OList [OTok _; OList _]]) => true
  | Node NODE_ASSIGNMENT (OList [OList [OTok _; OList _]; e]) => wf e
  | Node NODE_FUNCTION_CALL (OList [OList [OTok _; OList _]; OList args]) =>
      Spec.args_ok wf args
  | Node NODE_FUNCTION
      (OList [OList args; Node NODE_BLOCK (OList statements)]) =>
      Spec.args_ok wf args && statements_ok wf statements
  | Node NODE_EXTERN (OTuple [OTok s; OTok n]) =>
      Spec.quoted_text (value s) && Spec.number_text (value n)
  | Node ty _ =>
      bool_decide (ty ∈ [NODE_COMPARISON; NODE_DICTIONARY; NODE_FOR;
                         NODE_FREE; NODE_IMPORT; NODE_RETURN])
  | _ => false
  end.

(** What [parse_identity] returns. *)
Definition identity_ok (o : obj) : bool :=
  match o with
  | Node NODE_IDENTITY (OList [OTok _; OList _]) => true
  | _ => false
  end.

(** What follows an identity in an expression. *)
Definition cont_ok (o : obj) : bool :=
  match o with
  | Node NODE_ASSIGNMENT (OList [e]) => wf e
  | Node NODE_FUNCTION_CALL (OList [OList args]) => Spec.args_ok wf args
  | Node NODE_IDENTITY (OList []) => true
  | _ => false
  end.

(** What [parse_comparison_cont] returns. *)
Definition comparison_ok (o : obj) : bool :=
  match o with
  | Node _ (OList _) => true
  | OList [] => true
  | _ => false
  end.

Definition arg_ok (o : obj) : bool :=
  match o with
  | Node NODE_ARG e => wf e
  | _ => false
  end.

Definition block_ok (o : obj) : bool :=
  match o with
  | Node NODE_BLOCK (OList statements) => statements_ok wf statements
  | _ => false
  end.

(** The exceptions of [parse]. *)
Definition syntax (e : exn) : Prop :=
  e = AssertionError \/ e = UnexpectedEOF \/ exists t, e = ParseError_ t.

(** The exceptions of lowering on such nodes. *)
Definition unsupported (e : exn) : Prop :=
  e = NotImplementedError \/ e = AssertionError.

(** The outcome of lowering a node the parser built. *)
Definition lowers (r : res (list instr)) : Prop :=
  match r with
  | Ok _ => True
  | Raise e => unsupported e
  end.

End Tree.

(** ** Outcomes of the parser *)

Module Safe.

Import Parser Tree.

(** A token list as [parse] hands it to the descent: closed by an
    end-of-input token, every token with a text of its type. *)
Definition good (ts : list Token) : Prop :=
  (exists eof, last ts = Some eof /\ type eof = TOKEN_EOF)
  /\ Forall (fun t => tok_ok t = true) ts.

(** On such a list, a run of [m] that returns gives a value of the shape
    [shape] and leaves such a list; a run that raises, raises a syntax
    error. *)
Definition outcome {A} (shape : A -> bool)
    (r : option (res (A * list Token))) : Prop :=
  match r with
  | Some (Ok (a, ts')) => shape a = true /\ good ts'
  | Some (Raise e) => syntax e
  | None => True
  end.

Definition safe {A} (shape : A -> bool) (m : P A) : Prop :=
  forall ts, good ts -> outcome shape (m ts).

Definition any {A} (a : A) : bool := true.

Definition descent_safe (n : nat) : Prop :=
  safe (statements_ok wf) (parse_statements n)
  /\ safe wf (parse_statement n)
  /\ safe wf (parse_free n)
  /\ safe wf (parse_for n)
  /\ safe wf (parse_return_cont n)
  /\ safe cont_ok (parse_assignment_or_identity_or_function_call n)
  /\ safe cont_ok (parse_assignment_cont n)
  /\ safe identity_ok (parse_identity n)
  /\ safe any (parse_keys n)
  /\ safe any (parse_key n)
  /\ safe wf (parse_expression n)
  /\ safe cont_ok (parse_identity_or_function_call n)
  /\ safe cont_ok (parse_function_call_cont n)
  /\ safe (Spec.args_ok wf) (parse_args n)
  /\ safe (Spec.args_ok wf) (parse_later_args n)
  /\ safe arg_ok (parse_arg n)
  /\ safe wf (parse_function n)
  /\ safe block_ok (parse_block n)
  /\ safe wf (parse_dictionary n)
  /\ safe any (parse_key_values n)
  /\ safe any (parse_later_key_values n)
  /\ safe any (parse_key_value n)
  /\ safe comparison_ok (parse_comparison_cont n).

End Safe.

(** ** Texts that differ in their layout *)

Module Layout.

Import Parser.

(** A token without its line. *)
Definition unline (t : Token) : Token := mkToken (type t) (value t) 0.

(** A tree without the lines of its tokens. *)
Fixpoint erase (o : obj) : obj :=
  match o with
  | OTok t => OTok (unline t)
  | Node ty c => Node ty (erase c)
  | OList l => OList (map erase l)
  | OTuple l => OTuple (map erase l)
  end.

(** An exception without the line of the token it carries. *)
Definition erase_exn (e : exn) : exn :=
  match e with
  | ParseError_ t => ParseError_ (unline t)
  | _ => e
  end.

(** The result of a parsing function, its lines erased by [f] in the
    value and by [unline] in the tokens left. *)
Definition erased {A} (f : A -> A) (r : option (res (A * list Token)))
  : option (res (A * list Token)) :=
  match r with
  | Some (Ok (a, tokens)) => Some (Ok (f a, map unline tokens))
  | Some (Raise e) => Some (Raise (erase_exn e))
  | None => None
  end.

(** ["\n".join(lines)]: the text of a file from its lines. *)
Fixpoint unlines (lines : list string) : string :=
  match lines with
  | [] => ""
  | [l] => l
  | l :: lines' => l +:+ String "010"%char (unlines lines')
  end.

(** [m1] on tokens without lines does what [m2] does, lines apart. *)
Definition sim {A} (f : A -> A) (m1 m2 : P A) : Prop :=
  forall tokens, m1 (map unline tokens) = erased f (m2 tokens).

(** Every function of the descent, at one bound on the nested calls. *)
Definition descent_sim (n : nat) : Prop :=
  sim (map erase) (parse_statements n) (parse_statements n)
  /\ sim erase (parse_statement n) (parse_statement n)
  /\ sim erase (parse_free n) (parse_free n)
  /\ sim erase (parse_for n) (parse_for n)
  /\ sim erase (parse_return_cont n) (parse_return_cont n)
  /\ sim erase (parse_assignment_or_identity_or_function_call n)
       (parse_assignment_or_identity_or_function_call n)
  /\ sim erase (parse_assignment_cont n) (parse_assignment_cont n)
  /\ sim erase (parse_identity n) (parse_identity n)
  /\ sim (map erase) (parse_keys n) (parse_keys n)
  /\ sim erase (parse_key n) (parse_key n)
  /\ sim erase (parse_expression n) (parse_expression n)
  /\ sim erase (parse_identity_or_function_call n)
       (parse_identity_or_function_call n)
  /\ sim erase (parse_function_call_cont n) (parse_function_call_cont n)
  /\ sim (map erase) (parse_args n) (parse_args n)
  /\ sim (map erase) (parse_later_args n) (parse_later_args n)
  /\ sim erase (parse_arg n) (parse_arg n)
  /\ sim erase (parse_function n) (parse_function n)
  /\ sim erase (parse_block n) (parse_block n)
  /\ sim erase (parse_dictionary n) (parse_dictionary n)
  /\ sim (map erase) (parse_key_values n) (parse_key_values n)
  /\ sim (map erase) (parse_later_key_values n) (parse_later_key_values n)
  /\ sim erase (parse_key_value n) (parse_key_value n)
  /\ sim erase (parse_comparison_cont n) (parse_comparison_cont n).

End Layout.

(** * Properties *)

(** ** The lexer *)

Section LexerFacts.

Import Lexer.

Lemma _find_token_nonempty c s : (_find_token (String c s)).2 <> "".
Proof.
  unfold _find_token, PATTERNS. cbn [find_in].
  unfold match_plus, match_comment, match_quoted, match_identifier, match_lit.
  repeat (case_match; simplify_eq; try done).
Qed.

Lemma drop_length k s : (String.length (drop k s) <= String.length s)%nat.
Proof.
  revert s. induction k as [|k IH]; intros [|c s]; simpl; try lia.
  specialize (IH s). lia.
Qed.

(** The rounds of [scan] are bounded by the length of the line: more fuel
    changes nothing. *)
Lemma scan_enough fuel fuel' line_number line :
  (String.length line <= fuel)%nat -> (String.length line <= fuel')%nat ->
  scan fuel line_number line = scan fuel' line_number line.
Proof.
  revert fuel' line. induction fuel as [|fuel IH]; intros fuel' line H1 H2.
  { destruct line; [by destruct fuel'|simpl in H1; lia]. }
  destruct line as [|c s]; [by destruct fuel'|].
  destruct fuel' as [|fuel']; [simpl in H2; lia|].
  cbn [scan].
  pose proof (_find_token_nonempty c s) as Hne.
  destruct (_find_token (String c s)) as [token_type token_value].
  destruct token_value as [|c' v]; [done|].
  assert (String.length (drop (String.length (String c' v)) (String c s))
          <= String.length s)%nat as Hrest by (simpl; apply drop_length).
  simpl in H1, H2.
  rewrite (IH fuel') by lia. done.
Qed.

End LexerFacts.

(** ** The parser *)

Section ParserFacts.

Import Parser Descent.

(** [ParseError(token)] is [UnexpectedEOF] for the end-of-input token and
    for no other. *)
Lemma ParseError_eof token :
  ParseError token = UnexpectedEOF <-> type token = TOKEN_EOF.
Proof.
  unfold ParseError, tok_eq. case_bool_decide; split; intros; try done.
Qed.

Lemma ParseError_other token :
  type token ≠ TOKEN_EOF -> ParseError token = ParseError_ token.
Proof.
  intros. unfold ParseError, tok_eq. by rewrite bool_decide_eq_false_2.
Qed.

Lemma keeps_refl ts : keeps ts ts.
Proof. by intros e. Qed.

Lemma keeps_trans a b c : keeps a b -> keeps b c -> keeps a c.
Proof. intros Hab Hbc e He Hty. apply Hbc; [|done]. by apply Hab. Qed.

Lemma keeps_cons t ts ts' :
  type t ≠ TOKEN_EOF -> keeps ts ts' -> keeps (t :: ts) ts'.
Proof.
  intros Ht Hk e He Hty. apply Hk; [|done].
  destruct ts as [|t' ts]; [|by rewrite last_cons_cons in He].
  simpl in He. congruence.
Qed.

Ltac not_eof :=
  let Heq := fresh in
  intros Heq;
  unfold first_statements, first_expression, kw, tok_eq, tok_in in *;
  repeat match goal with
  | H : context [type ?t] |- _ =>
      lazymatch type of Heq with type t = _ => idtac end;
      tryif constr_eq H Heq then fail else (rewrite Heq in H; cbn in H)
  end;
  done.

Ltac chain :=
  first
    [ apply keeps_refl
    | match goal with
      | H : keeps ?a ?b |- keeps ?a ?c => apply (keeps_trans a b c H); chain
      end
    | apply keeps_cons; [not_eof | chain] ].

Ltac use_facts :=
  repeat match goal with
  | IH : advances _ ?m, H : ?m ?ts = Some (Ok (?a, ?ts')) |- _ =>
      let Hk := fresh "Hk" in
      let Hl := fresh "Hl" in
      destruct (IH ts a ts' H) as [Hk Hl]; clear H; cbn beta iota in Hl
  end.

Ltac run H :=
  unfold parse_extern, parse_import, parse_identity_cont, parse_boolean,
    with_comparison in H;
  unfold bind, peek, pop0, ret, raise, out_of_fuel in H;
  repeat (case_match; simplify_eq; try done);
  use_facts;
  (split; [chain | cbn [length] in *; lia]).

Lemma descent_advances_all n : descent_advances n.
Proof.
  induction n as [|n IH]; unfold descent_advances.
  { repeat match goal with |- _ /\ _ => split end;
      intros ts a ts' H; discriminate H. }
  destruct IH as (? & ? & ? & ? & ? & ? & ? & ? & ? & ? & ? & ? & ? & ? & ? & ?
                  & ? & ? & ? & ? & ? & ? & ?).
  repeat match goal with |- _ /\ _ => split end; intros ts a ts' Hrun;
    cbn [parse_statements parse_statement parse_free parse_for parse_return_cont parse_assignment_or_identity_or_function_call parse_assignment_cont parse_identity parse_keys parse_key parse_expression parse_identity_or_function_call parse_function_call_cont parse_args parse_later_args parse_arg parse_function parse_block parse_dictionary parse_key_values parse_later_key_values parse_key_value parse_comparison_cont] in Hrun.
  all: run Hrun.
Qed.

Ltac use_enough :=
  match goal with
  | IH : enough _ ?m _, H : ?m ?ts = None |- _ =>
      exfalso; apply (IH ts); [cbn [length] in *; lia | exact H]
  end.

Ltac run_total H :=
  unfold parse_extern, parse_import, parse_identity_cont, parse_boolean,
    with_comparison in H;
  unfold bind, peek, pop0, ret, raise, out_of_fuel in H;
  repeat (case_match; simplify_eq; try done);
  use_facts;
  use_enough.

Lemma descent_enough_all n : descent_enough n.
Proof.
  induction n as [|n IH]; unfold descent_enough, enough.
  { repeat match goal with |- _ /\ _ => split end; intros ts Hfuel; lia. }
  destruct IH as (? & ? & ? & ? & ? & ? & ? & ? & ? & ? & ? & ? & ? & ? & ? & ?
                  & ? & ? & ? & ? & ? & ? & ?).
  destruct (descent_advances_all n)
    as (? & ? & ? & ? & ? & ? & ? & ? & ? & ? & ? & ? & ? & ? & ? & ?
        & ? & ? & ? & ? & ? & ? & ?).
  repeat match goal with |- _ /\ _ => split end; intros ts Hfuel Hrun;
    cbn [parse_statements parse_statement parse_free parse_for parse_return_cont parse_assignment_or_identity_or_function_call parse_assignment_cont parse_identity parse_keys parse_key parse_expression parse_identity_or_function_call parse_function_call_cont parse_args parse_later_args parse_arg parse_function parse_block parse_dictionary parse_key_values parse_later_key_values parse_key_value parse_comparison_cont] in Hrun.
  all: run_total Hrun.
Qed.

Lemma parse_program_advances n : advances false (parse_program n).
Proof.
  destruct (descent_advances_all n) as (Hstatements & _).
  intros ts a ts' Hrun. unfold parse_program in Hrun. run Hrun.
Qed.

Lemma parse_program_enough n ts :
  (4 + 5 * length ts <= n)%nat -> parse_program n ts <> None.
Proof.
  destruct (descent_enough_all n) as (Hstatements & _).
  intros Hfuel Hrun. unfold parse_program in Hrun.
  unfold bind, peek, raise in Hrun.
  repeat (case_match; simplify_eq; try done). use_enough.
Qed.

(** [parse] is never cut short. *)
Lemma parse_total self : parse self <> None.
Proof.
  unfold parse.
  set (tokens := _tokens self ++ [_]).
  pose proof (parse_program_enough (parse_fuel tokens) tokens) as Hfuel.
  destruct (parse_program _ tokens) as [[[ast rest]|e]|]; [|done|].
  - by repeat case_match.
  - exfalso. apply Hfuel; [|done]. unfold parse_fuel. lia.
Qed.

(** When [parse] returns, it returns true: the token it pops from the end
    of the list is the end-of-input token it appended. *)
Lemma parse_returns_true self b self' :
  parse self = Some (Ok (b, self')) -> b = true.
Proof.
  unfold parse.
  set (eof := mkToken TOKEN_EOF "$" _).
  set (tokens := _tokens self ++ [eof]).
  destruct (parse_program _ tokens) as [[[ast rest]|e]|] eqn:Hrun; [|done..].
  apply parse_program_advances in Hrun as [Hkeeps _].
  specialize (Hkeeps eof). unfold tokens in Hkeeps.
  rewrite last_snoc in Hkeeps.
  unfold pop_last. rewrite Hkeeps by done.
  change (tok_eq eof TOKEN_EOF) with true. by intros [= <- _].
Qed.

End ParserFacts.

(** C2.  The statement [extern("puts", 1);] is refused: [parse_program] and
    [parse_statements] let the keyword [extern] through, and
    [parse_statement], which has no branch for it, raises a [ParseError] at
    that keyword.  The same declaration between brackets is an expression
    statement, and lowers to the one instruction [EXTERN("puts", 1)]. *)
Theorem C2_extern_statement_rejected :
  Uro.parse_source ("extern(" +:+ Uro.in_dq "puts" +:+ ", 1);")
    = Some (Raise (ParseError_ (mkToken TOKEN_KEYWORD "extern" 1)))
  /\ Uro.lower ("extern(" +:+ Uro.in_dq "puts" +:+ ", 1);")
    = Some (Raise (ParseError_ (mkToken TOKEN_KEYWORD "extern" 1)))
  /\ Uro.lower ("(extern(" +:+ Uro.in_dq "puts" +:+ ", 1));")
    = Some (Ok [IR_EXTERN "puts" 1]).
Proof. do 2 (split; [vm_compute; reflexivity|]). vm_compute; reflexivity. Qed.

(** C3.  On the buffer [x ; }] the descent returns after the statement
    and leaves [}] and the end-of-input token unread; [parse] pops the
    last token of the list, which is the end-of-input token it appended,
    returns true and commits the one statement.  On every buffer [parse]
    comes to an end, and when it returns it returns true: no run of the
    descent pops the end-of-input token. *)
Theorem C3_parse_true_with_tokens_left :
  let x := mkToken TOKEN_IDENTIFIER "x" 1 in
  let semicolon := mkToken TOKEN_SEMICOLON ";" 1 in
  let rcurly := mkToken TOKEN_RCURLYBRACKET "}" 1 in
  let eof := mkToken TOKEN_EOF "$" 1 in
  let tree :=
    [Node NODE_STATEMENT
       (Node NODE_IDENTITY (OList [OList [OTok x; OList []]]))] in
  Lexer.tokenize "x; }" = [x; semicolon; rcurly]
  /\ Parser.parse_program (Parser.parse_fuel [x; semicolon; rcurly; eof])
       [x; semicolon; rcurly; eof]
     = Some (Ok (tree, [rcurly; eof]))
  /\ Uro.parse_tokens [x; semicolon; rcurly]
     = Some (Ok (true, Parser.mkParser [] tree))
  /\ (forall self, Parser.parse self <> None)
  /\ (forall self flag self',
        Parser.parse self = Some (Ok (flag, self')) -> flag = true).
Proof.
  do 3 (split; [vm_compute; reflexivity|]).
  split; [apply parse_total|apply parse_returns_true].
Qed.

(** C6.  The unclosed block [fn(x){ return x;] raises [UnexpectedEOF], and
    [ParseError(token)] turns into [UnexpectedEOF] for the end-of-input
    token only.  Two statements cut off at the end of input raise
    something else.  In [x = extern("puts"], [parse_extern] finds the
    end-of-input token where the comma should be and reports the string
    before it: a plain [ParseError].  In [x[extern('a', 1)], [parse_key]
    finds it where the closing bracket should be and fails its
    assertion. *)
Theorem C6_cut_off_extern_is_syntax_error :
  Uro.parse_source "fn(x){ return x;" = Some (Raise UnexpectedEOF)
  /\ (forall token,
        Parser.ParseError token = UnexpectedEOF <-> type token = TOKEN_EOF)
  /\ Lexer.tokenize ("x = extern(" +:+ Uro.in_dq "puts")
     = [mkToken TOKEN_IDENTIFIER "x" 1; mkToken TOKEN_ASSIGN "=" 1;
        mkToken TOKEN_KEYWORD "extern" 1; mkToken TOKEN_LBRACKET "(" 1;
        mkToken TOKEN_STRING (Uro.in_dq "puts") 1]
  /\ Uro.parse_source ("x = extern(" +:+ Uro.in_dq "puts")
     = Some (Raise (ParseError_ (mkToken TOKEN_STRING (Uro.in_dq "puts") 1)))
  /\ Uro.parse_source "x[extern('a', 1)" = Some (Raise AssertionError).
Proof.
  split; [vm_compute; reflexivity|].
  split; [apply ParseError_eof|].
  do 2 (split; [vm_compute; reflexivity|]). vm_compute; reflexivity.
Qed.

(** ** Lowering *)

(** C7.  An assignment to a name without keys lowers to the instructions
    of its right-hand side followed by [SET_NAME] of the name (and raises
    what the right-hand side raises); [x = 5;] lowers to
    [MAKE_NUMBER(5)], [SET_NAME("x")]. *)
Theorem C7_assignment_lowering :
  (forall (target : Token) (rhs : obj),
     IRGenerator._generate_statement
       (Node NODE_STATEMENT
          (Node NODE_ASSIGNMENT (OList [OList [OTok target; OList []]; rhs])))
     = res_bind (IRGenerator._generate_expression rhs)
         (fun ir_expression => Ok (ir_expression ++ [IR_SET_NAME (value target)])))
  /\ Uro.parse_source "x = 5;"
     = Some (Ok (true,
           Parser.mkParser []
             [Node NODE_STATEMENT
                (Node NODE_ASSIGNMENT
                   (OList [OList [OTok (mkToken TOKEN_IDENTIFIER "x" 1); OList []];
                           Node NODE_NUMBER_LITERAL
                             (OTok (mkToken TOKEN_NUMBER "5" 1))]))]))
  /\ Uro.lower "x = 5;" = Some (Ok [IR_MAKE_NUMBER 5; IR_SET_NAME "x"]).
Proof.
  split; [|split; vm_compute; reflexivity].
  intros target rhs. cbn.
  destruct (IRGenerator._generate_expression rhs); reflexivity.
Qed.

(** ** The generator *)

Section ContextFacts.

Import Generator.

Lemma get_position_None name ctx :
  _variables ctx !! name = None ->
  get_position name ctx = Raise (ValueError ("Unknown variable: " +:+ name)).
Proof. unfold get_position. by intros ->. Qed.

Lemma get_position_zero name ctx :
  _variables ctx !! name = Some 0 ->
  get_position name ctx = Raise (ValueError ("Unknown variable: " +:+ name)).
Proof. unfold get_position. by intros ->. Qed.

Lemma get_position_Some name ctx p :
  _variables ctx !! name = Some p -> p ≠ 0 ->
  get_position name ctx = Ok p.
Proof.
  unfold get_position. intros -> Hp. by rewrite bool_decide_eq_false_2.
Qed.

End ContextFacts.

Section CompileFacts.

Import Generator.

(** The equations of [compile] and of the two methods that call it. *)
Lemma compile_cons i ir :
  compile (i :: ir) = bind (compile_instr i) (fun _ => compile ir).
Proof. reflexivity. Qed.

Lemma call_function_unfold name args :
  compile_instr (IR_CALL_FUNCTION name args) = call_function name args.
Proof. reflexivity. Qed.

Lemma make_string_unfold value :
  compile_instr (IR_MAKE_STRING value) = make_string value.
Proof. reflexivity. Qed.

End CompileFacts.

(** C4.  A name bound in the enclosing context only is unknown to the
    child: [get_position] reads the context's own [_variables] and never
    its parent, so the lookup of [x], bound at -8 in the parent, raises
    the unknown-variable error in the child, as does every lookup in a
    fresh child.  The merged view [variables] is not used by the lookup,
    and on a context with a parent it raises on the missing attribute
    [parent]. *)
Theorem C4_child_lookup_ignores_parent :
  let root :=
    Generator.add_variable "x"
      (Generator.move_stack_pointer (Generator.Context_init (Some "main") None)) in
  let inner := Generator.child root in
  let gen :=
    Generator.mkGenerator "main" [] (Generator._functions Generator.init) []
      ∅ inner in
  Generator.get_position "x" root = Ok (-8)
  /\ Generator._parent inner = Some root
  /\ Generator.get_position "x" inner = Raise (ValueError "Unknown variable: x")
  /\ Generator.push_reference "x" gen = (Raise (ValueError "Unknown variable: x"), gen)
  /\ Generator.call_function "x" [] gen = (Raise (ValueError "Unknown variable: x"), gen)
  /\ Generator.variables inner = Raise (AttributeError "parent")
  /\ (forall parent name,
        Generator.get_position name (Generator.child parent)
        = Raise (ValueError ("Unknown variable: " +:+ name))).
Proof.
  do 6 (split; [vm_compute; reflexivity|]).
  intros parent name. apply get_position_None. apply lookup_empty.
Qed.

(** C10.  A name that [SET_NAME] binds while the offset of the context is
    0 is bound to 0, and the lookup takes 0 for no binding: [get_position],
    [PUSH_REFERENCE] and [CALL_FUNCTION] (once its arguments are compiled,
    the binding still being 0) raise the unknown-variable error. *)
Theorem C10_offset_zero_lookup_fails
    (g g1 g2 : Generator.GeneratorX86_64Linux) (name : string)
    (args : list instr) :
  Generator._position (Generator._context g) = 0 ->
  Generator.set_name name g = (Ok tt, g1) ->
  Generator.compile args g1 = (Ok tt, g2) ->
  Generator._variables (Generator._context g2) !! name = Some 0 ->
  Generator._variables (Generator._context g1) !! name = Some 0
  /\ Generator.get_position name (Generator._context g1)
     = Raise (ValueError ("Unknown variable: " +:+ name))
  /\ Generator.push_reference name g1
     = (Raise (ValueError ("Unknown variable: " +:+ name)), g1)
  /\ Generator.call_function name args g1
     = (Raise (ValueError ("Unknown variable: " +:+ name)), g2).
Proof.
  intros Hpos Hset Hargs Hstill.
  unfold Generator.set_name, Generator.with_context in Hset.
  injection Hset as <-. cbn [Generator._context Generator.add_variable Generator._variables].
  assert (Hbound :
    <[name:=Generator._position (Generator._context g)]>
      (Generator._variables (Generator._context g)) !! name = Some 0).
  { rewrite Hpos. apply lookup_insert_eq. }
  split; [exact Hbound|].
  split; [by apply get_position_zero|].
  split.
  - unfold Generator.push_reference, Generator.bind, Generator.position_of.
    by rewrite get_position_zero.
  - unfold Generator.call_function, Generator.call_function_, Generator.bind.
    fold Generator.compile. rewrite Hargs.
    unfold Generator.position_of. by rewrite get_position_zero.
Qed.

Lemma C10_offset_zero_lookup_fails_witness :
  let g1 := (Generator.set_name "x" Generator.init).2 in
  let g2 := (Generator.compile [IR_MAKE_NUMBER 1] g1).2 in
  Generator._variables (Generator._context g1) !! "x" = Some 0
  /\ Generator.get_position "x" (Generator._context g1)
     = Raise (ValueError "Unknown variable: x")
  /\ Generator.push_reference "x" g1
     = (Raise (ValueError "Unknown variable: x"), g1)
  /\ Generator.call_function "x" [IR_MAKE_NUMBER 1] g1
     = (Raise (ValueError "Unknown variable: x"), g2).
Proof.
  apply (C10_offset_zero_lookup_fails Generator.init); vm_compute; reflexivity.
Defined.

Section DictFacts.

Import Generator.
Context {V : Type}.
Implicit Types (d : dict V) (k : string) (v : V).

Lemma dict_get_set_eq k v d : dict_get k (dict_set k v d) = Some v.
Proof.
  induction d as [|[k' v'] d IH]; simpl.
  - by rewrite bool_decide_eq_true_2.
  - case_bool_decide; simpl; [by rewrite bool_decide_eq_true_2|].
    by rewrite bool_decide_eq_false_2.
Qed.

Lemma dict_get_set_ne k k' v d :
  k ≠ k' -> dict_get k (dict_set k' v d) = dict_get k d.
Proof.
  intros Hne. induction d as [|[k'' v''] d IH]; simpl.
  - by rewrite bool_decide_eq_false_2.
  - case_bool_decide; simpl; case_bool_decide; try done; congruence.
Qed.

Lemma dict_set_set k v v' d : dict_set k v' (dict_set k v d) = dict_set k v' d.
Proof.
  induction d as [|[k'' v''] d IH]; simpl.
  - by rewrite bool_decide_eq_true_2.
  - case_bool_decide; simpl; [by rewrite bool_decide_eq_true_2|].
    rewrite bool_decide_eq_false_2 by done. by rewrite IH.
Qed.

(** An assignment never removes a key. *)
Lemma dict_get_set_is_Some k k' v d :
  is_Some (dict_get k d) -> is_Some (dict_get k (dict_set k' v d)).
Proof.
  intros Hk. destruct (decide (k = k')) as [->|Hne].
  - rewrite dict_get_set_eq. by eexists.
  - by rewrite dict_get_set_ne.
Qed.

End DictFacts.

Section ExternFacts.

Import Generator Spec.

Lemma bind_Ok {A B} (m : G A) (k : A -> G B) g a g' :
  m g = (Ok a, g') -> bind m k g = k a g'.
Proof. unfold bind. by intros ->. Qed.

Lemma bind_Raise {A B} (m : G A) (k : A -> G B) g e g' :
  m g = (Raise e, g') -> bind m k g = (Raise e, g').
Proof. unfold bind. by intros ->. Qed.

Lemma append_to_set key line gl ex lines d da lb cx :
  append_to key line (mkGenerator gl ex (dict_set key lines d) da lb cx)
  = (Ok tt, mkGenerator gl ex (dict_set key (lines ++ [line]) d) da lb cx).
Proof.
  unfold append_to. cbn [_functions]. rewrite dict_get_set_eq.
  unfold set_functions. cbn. by rewrite dict_set_set.
Qed.

Lemma when_append_to_set (b : bool) key line gl ex lines d da lb cx :
  when b (append_to key line)
    (mkGenerator gl ex (dict_set key lines d) da lb cx)
  = (Ok tt,
     mkGenerator gl ex
       (dict_set key (lines ++ (if b then [line] else [])) d) da lb cx).
Proof.
  destruct b; simpl; [apply append_to_set|]. by rewrite app_nil_r.
Qed.

(** More than four parameters: the call raises before it touches the
    generator. *)
Lemma extern_over_budget name n g :
  n > 4 -> extern name n g = (Raise NotImplementedError, g).
Proof. intros. unfold extern. by rewrite bool_decide_eq_true_2. Qed.

(** A symbol already declared: the call returns at once. *)
Lemma extern_declared name n g :
  n <= 4 -> name ∈ _extern g -> extern name n g = (Ok tt, g).
Proof.
  intros. unfold extern. rewrite bool_decide_eq_false_2 by lia.
  by rewrite bool_decide_eq_true_2.
Qed.

(** A symbol not yet declared, in a generator whose current function has
    a stream. *)
Lemma extern_fresh g name n key stream :
  n <= 4 -> name ∉ _extern g ->
  Generator.name (_context g) = Some key ->
  dict_get key (_functions g) = Some stream ->
  let label := next_label_of "f" g in
  extern name n g
  = (Ok tt,
     mkGenerator (_global g) (_extern g ++ [name])
       (dict_set label (thunk name n)
          (dict_set key
             (stream ++ [("", "mov", "rax, " +:+ label); ("", "push", "rax")])
             (_functions g)))
       (_data g)
       (<["f" := (default 1%N (_labels g !! "f") + 1)%N]> (_labels g))
       (move_stack_pointer (_context g))).
Proof.
  intros Hn Hfresh Hkey Hstream label.
  unfold extern.
  rewrite bool_decide_eq_false_2 by lia.
  rewrite bool_decide_eq_false_2 by done.
  destruct g as [gl ex fs da lb cx].
  cbn [_global _extern _functions _data _labels _context] in *.
  unfold bind at 1. unfold _next_label at 1.
  cbn [_global _extern _functions _data _labels _context].
  change ("f" +:+ "_" +:+ format_06d (default 1%N (lb !! "f"))) with label.
  unfold bind at 1. cbn [_global _extern _functions _data _labels _context].
  unfold bind at 1. unfold append at 1.
  cbn [_global _extern _functions _data _labels _context].
  rewrite Hkey. unfold append_to at 1. cbn [_functions]. rewrite Hstream.
  unfold set_functions at 1.
  cbn [_global _extern _functions _data _labels _context].
  unfold bind at 1. unfold append at 1.
  cbn [_global _extern _functions _data _labels _context].
  rewrite Hkey. rewrite append_to_set.
  unfold bind at 1. unfold set_functions at 1.
  cbn [_global _extern _functions _data _labels _context].
  repeat (unfold bind at 1;
          first [rewrite when_append_to_set | rewrite append_to_set]).
  unfold with_context. cbn [_global _extern _functions _data _labels _context].
  do 2 f_equal. unfold thunk. rewrite <- !app_assoc. simpl. reflexivity.
Qed.

End ExternFacts.




(** C8.  With more than four parameters [extern] raises
    [NotImplementedError] and leaves the generator as it was.  With four,
    for a symbol not yet declared, it returns, and the trampoline loads
    [rdi], [rsi], [rdx] and [rcx] from [rbp+48], [rbp+56], [rbp+64] and
    [rbp+72]: 16, 24, 32 and 40 plus 8 times 4. *)
Theorem C8_extern_parameter_budget
    (g : Generator.GeneratorX86_64Linux) (name : string)
    (key : string) (stream : list Generator.asm_line) :
  name ∉ Generator._extern g ->
  Generator.name (Generator._context g) = Some key ->
  Generator.dict_get key (Generator._functions g) = Some stream ->
  (forall g0 name0 n, n > 4 ->
     Generator.extern name0 n g0 = (Raise NotImplementedError, g0))
  /\ Generator.extern name 5 g = (Raise NotImplementedError, g)
  /\ exists g1,
       Generator.extern name 4 g = (Ok tt, g1)
       /\ Generator.dict_get (Spec.next_label_of "f" g) (Generator._functions g1)
          = Some [("", "push", "rbp");
                  ("", "push", "rdi"); ("", "push", "rsi");
                  ("", "push", "rdx"); ("", "push", "rcx");
                  ("", "mov", "rbp, rsp");
                  ("", "mov", "rdi, [rbp+48]"); ("", "mov", "rsi, [rbp+56]");
                  ("", "mov", "rdx, [rbp+64]"); ("", "mov", "rcx, [rbp+72]");
                  ("", "call", name); ("", "mov", "rsp, rbp");
                  ("", "pop", "rcx"); ("", "pop", "rdx");
                  ("", "pop", "rsi"); ("", "pop", "rdi");
                  ("", "pop", "rbp"); ("", "ret", "")].
Proof.
  intros Hfresh Hkey Hstream.
  split; [intros; by apply extern_over_budget|].
  split; [apply extern_over_budget; lia|].
  eexists. split; [apply (extern_fresh g name 4 key stream); [lia|done..]|].
  cbn [Generator._functions]. rewrite dict_get_set_eq. reflexivity.
Qed.

Lemma C8_extern_parameter_budget_witness :
  (forall g0 name0 n, n > 4 ->
     Generator.extern name0 n g0 = (Raise NotImplementedError, g0))
  /\ Generator.extern "puts" 5 Generator.init
     = (Raise NotImplementedError, Generator.init)
  /\ exists g1,
       Generator.extern "puts" 4 Generator.init = (Ok tt, g1)
       /\ Generator.dict_get (Spec.next_label_of "f" Generator.init)
            (Generator._functions g1)
          = Some [("", "push", "rbp");
                  ("", "push", "rdi"); ("", "push", "rsi");
                  ("", "push", "rdx"); ("", "push", "rcx");
                  ("", "mov", "rbp, rsp");
                  ("", "mov", "rdi, [rbp+48]"); ("", "mov", "rsi, [rbp+56]");
                  ("", "mov", "rdx, [rbp+64]"); ("", "mov", "rcx, [rbp+72]");
                  ("", "call", "puts"); ("", "mov", "rsp, rbp");
                  ("", "pop", "rcx"); ("", "pop", "rdx");
                  ("", "pop", "rsi"); ("", "pop", "rdi");
                  ("", "pop", "rbp"); ("", "ret", "")].
Proof.
  apply (C8_extern_parameter_budget Generator.init "puts" "main"
           [("", "mov", "rbp, rsp")]);
    [intros Hin; inversion Hin | reflexivity | reflexivity].
Defined.

(** ** Labels *)

Section DecimalFacts.

Import IRGenerator Generator.

Lemma app_cons_s (x : ascii) (a b : string) :
  String x a +:+ b = String x (a +:+ b).
Proof. reflexivity. Qed.

Lemma app_nil_s (a : string) : "" +:+ a = a.
Proof. reflexivity. Qed.

Lemma app_assoc_s (a b c : string) : (a +:+ b) +:+ c = a +:+ (b +:+ c).
Proof.
  induction a as [|x a IH]; [done|]. by rewrite !app_cons_s, IH.
Qed.

Lemma length_app_s (a b : string) :
  String.length (a +:+ b) = (String.length a + String.length b)%nat.
Proof.
  induction a as [|x a IH]; [done|]. rewrite app_cons_s. simpl. by rewrite IH.
Qed.

Lemma all_digits_app (a b : string) :
  all_digits (a +:+ b) = all_digits a && all_digits b.
Proof.
  induction a as [|x a IH]; [done|]. rewrite app_cons_s. simpl.
  by rewrite IH, andb_assoc.
Qed.

Lemma digits_value_app acc (a b : string) :
  digits_value acc (a +:+ b) = digits_value (digits_value acc a) b.
Proof.
  revert acc. induction a as [|x a IH]; intros acc; [done|].
  rewrite app_cons_s. simpl. by rewrite IH.
Qed.

Lemma app_empty_s (a b : string) : a +:+ b = "" -> a = "" /\ b = "".
Proof. destruct a; [done|]. rewrite app_cons_s. discriminate. Qed.

Lemma pretty_N_char_digit (m : N) :
  (m < 10)%N ->
  Lexer.is_digit (pretty_N_char m) = true
  /\ Z.of_N (N_of_ascii (pretty_N_char m)) - 48 = Z.of_N m.
Proof.
  intros Hm.
  assert (m = 0 \/ m = 1 \/ m = 2 \/ m = 3 \/ m = 4 \/ m = 5
          \/ m = 6 \/ m = 7 \/ m = 8 \/ m = 9)%N as Hcases by lia.
  repeat (destruct Hcases as [->|Hcases]; [by vm_compute|]).
  subst. by vm_compute.
Qed.

(** The digits of [x] go in front of what is already there. *)
Lemma pretty_N_go_app (x : N) (s : string) :
  pretty_N_go x s = pretty_N_go x "" +:+ s.
Proof.
  revert s. induction (N.lt_wf_0 x) as [x _ IH]. intros s.
  destruct (decide (x = 0)%N) as [->|Hx]; [done|].
  assert (x `div` 10 < x)%N as Hlt by (apply N.div_lt; lia).
  rewrite !(pretty_N_go_step x) by lia.
  rewrite (IH _ Hlt (String _ s)), (IH _ Hlt (String _ "")).
  by rewrite app_assoc_s.
Qed.

Lemma pretty_N_go_digits (x : N) :
  all_digits (pretty_N_go x "") = true
  /\ digits_value 0 (pretty_N_go x "") = Z.of_N x.
Proof.
  induction (N.lt_wf_0 x) as [x _ IH].
  destruct (decide (x = 0)%N) as [->|Hx]; [done|].
  rewrite pretty_N_go_step by lia. rewrite pretty_N_go_app.
  destruct (IH (x `div` 10)%N) as [Hd Hv]; [apply N.div_lt; lia|].
  destruct (pretty_N_char_digit (x `mod` 10)%N) as [Hc Hcv];
    [apply N.mod_lt; lia|].
  rewrite all_digits_app, digits_value_app, Hd, Hv. simpl.
  rewrite Hc. split; [done|]. rewrite Hcv.
  rewrite (N.div_mod x 10) at 3 by lia. lia.
Qed.

Lemma pretty_N_go_length (k : nat) (x : N) :
  (x < 10 ^ N.of_nat k)%N -> (String.length (pretty_N_go x "") <= k)%nat.
Proof.
  revert x. induction k as [|k IH]; intros x Hx.
  - assert (x = 0%N) as -> by (simpl in Hx; lia). done.
  - destruct (decide (x = 0)%N) as [->|Hx0]; [simpl; lia|].
    rewrite pretty_N_go_step by lia. rewrite pretty_N_go_app, length_app_s.
    assert (x `div` 10 < 10 ^ N.of_nat k)%N.
    { apply N.Div0.div_lt_upper_bound.
      rewrite Nat2N.inj_succ, N.pow_succ_r' in Hx. lia. }
    specialize (IH _ H). simpl. lia.
Qed.

Lemma pretty_N_digits (n : N) :
  pretty n ≠ "" /\ all_digits (pretty n) = true
  /\ digits_value 0 (pretty n) = Z.of_N n.
Proof.
  unfold pretty, pretty_N. case_decide as Hn; [by subst|].
  destruct (pretty_N_go_digits n) as [Hd Hv]. split; [|done].
  rewrite pretty_N_go_step by lia. rewrite pretty_N_go_app.
  intros [_ [=]]%app_empty_s.
Qed.

Lemma zeros_digits (k : nat) :
  all_digits (zeros k) = true
  /\ digits_value 0 (zeros k) = 0
  /\ String.length (zeros k) = k.
Proof.
  induction k as [|k (Hd & Hv & Hl)]; [done|].
  change (zeros (S k)) with (String "0" (zeros k)).
  change (all_digits (String "0" (zeros k))) with (all_digits (zeros k)).
  change (digits_value 0 (String "0" (zeros k)))
    with (digits_value 0 (zeros k)).
  simpl. by rewrite Hl.
Qed.

(** [f"{number:06d}"] is a run of digits that reads back as [number], six
    of them as long as the number is below a million. *)
Lemma format_06d_digits (n : N) :
  format_06d n ≠ "" /\ all_digits (format_06d n) = true
  /\ digits_value 0 (format_06d n) = Z.of_N n.
Proof.
  unfold format_06d.
  destruct (pretty_N_digits n) as (Hne & Hd & Hv).
  destruct (zeros_digits (6 - String.length (pretty n))) as (Hzd & Hzv & _).
  rewrite all_digits_app, digits_value_app, Hzd, Hzv, Hd, Hv.
  split; [|done]. by intros [_ ?]%app_empty_s.
Qed.

Lemma format_06d_int (n : N) : int (format_06d n) = Ok (Z.of_N n).
Proof.
  destruct (format_06d_digits n) as (Hne & Hd & Hv). unfold int.
  destruct (format_06d n) eqn:E; [done|]. by rewrite Hd, Hv.
Qed.

Lemma format_06d_length (n : N) :
  (n < 1000000)%N -> String.length (format_06d n) = 6%nat.
Proof.
  intros Hn. unfold format_06d.
  destruct (zeros_digits (6 - String.length (pretty n))) as (_ & _ & Hl).
  rewrite length_app_s, Hl.
  assert (String.length (pretty n) <= 6)%nat; [|lia].
  unfold pretty, pretty_N. case_decide; [simpl; lia|].
  by apply pretty_N_go_length.
Qed.

Lemma format_06d_inj (n m : N) : format_06d n = format_06d m -> n = m.
Proof.
  intros Heq. apply N2Z.inj.
  destruct (format_06d_digits n) as (_ & _ & <-).
  destruct (format_06d_digits m) as (_ & _ & <-). by rewrite Heq.
Qed.

End DecimalFacts.

Section LabelFacts.

Import IRGenerator Generator Spec.

Lemma label_split (p p' d d' : string) :
  all_digits d = true -> all_digits d' = true ->
  p +:+ "_" +:+ d = p' +:+ "_" +:+ d' -> p = p' /\ d = d'.
Proof.
  intros Hd Hd'. revert p'.
  induction p as [|c p IH]; intros [|c' p'] Heq;
    rewrite ?app_cons_s, ?app_nil_s in Heq.
  - split; [done|]. by injection Heq.
  - exfalso. injection Heq as _ Heq.
    rewrite Heq, all_digits_app in Hd.
    apply andb_true_iff in Hd as [_ Hd]. by vm_compute in Hd.
  - exfalso. injection Heq as _ Heq.
    rewrite <- Heq, all_digits_app in Hd'.
    apply andb_true_iff in Hd' as [_ Hd']. by vm_compute in Hd'.
  - injection Heq as -> Heq.
    destruct (IH _ Heq) as [-> ->]. done.
Qed.

(** A prefix and a number give one label, and a label comes from one
    prefix and one number. *)
Lemma label_inj (p p' : string) (n n' : N) :
  p +:+ "_" +:+ format_06d n = p' +:+ "_" +:+ format_06d n' ->
  p = p' /\ n = n'.
Proof.
  intros Heq.
  destruct (format_06d_digits n) as (_ & Hd & _).
  destruct (format_06d_digits n') as (_ & Hd' & _).
  destruct (label_split _ _ _ _ Hd Hd' Heq) as [-> Hf].
  split; [done|]. by apply format_06d_inj.
Qed.

Lemma _next_label_counter prefix g q :
  counter (_next_label prefix g).2 q
  = if decide (q = prefix) then (counter g prefix + 1)%N else counter g q.
Proof.
  unfold counter, _next_label. cbn [snd _labels].
  destruct (decide (q = prefix)) as [->|Hne].
  - by rewrite lookup_insert_eq.
  - by rewrite lookup_insert_ne.
Qed.

Lemma issue_fresh (prefixes : list string) (g : GeneratorX86_64Linux) :
  exists labels g',
    issue prefixes g = (Ok labels, g')
    /\ (forall label, label ∈ labels ->
          exists p n, label = p +:+ "_" +:+ format_06d n
                      /\ (counter g p <= n)%N)
    /\ NoDup labels.
Proof.
  revert g. induction prefixes as [|prefix prefixes IH]; intros g.
  { exists [], g. split; [done|].
    split; [by intros label Hin%elem_of_nil|constructor]. }
  destruct (IH (_next_label prefix g).2) as (labels & g' & Hrun & Hform & Hnodup).
  exists ((prefix +:+ "_" +:+ format_06d (counter g prefix)) :: labels), g'.
  split.
  { simpl. unfold bind at 1.
    change (_next_label prefix g)
      with (Ok (prefix +:+ "_" +:+ format_06d (counter g prefix)),
            (_next_label prefix g).2).
    cbv beta iota. unfold bind at 1. by rewrite Hrun. }
  split.
  - intros label [->|Hin]%elem_of_cons.
    + exists prefix, (counter g prefix). split; [done|lia].
    + destruct (Hform _ Hin) as (p & n & -> & Hle). exists p, n.
      split; [done|]. rewrite _next_label_counter in Hle.
      destruct (decide (p = prefix)) as [->|]; lia.
  - constructor; [|done]. intros Hin.
    destruct (Hform _ Hin) as (p & n & Heq & Hle).
    apply label_inj in Heq as [<- <-].
    rewrite _next_label_counter in Hle. rewrite decide_True in Hle by done. lia.
Qed.

End LabelFacts.

(** ** Programs that compile *)

Section Wp.

Import IRGenerator Generator Spec.
Context {A : Type}.
Implicit Types (m : G A) (Q : A -> GeneratorX86_64Linux -> Prop).

Lemma wp_ret (a : A) Q g : Q a g -> wp (ret a) Q g.
Proof. intros. by exists a, g. Qed.

Lemma wp_bind {B} m (k : A -> G B) (Q : B -> GeneratorX86_64Linux -> Prop) g :
  wp m (fun a g' => wp (k a) Q g') g -> wp (bind m k) Q g.
Proof.
  intros (a & g' & Hm & b & g'' & Hk & HQ). exists b, g''.
  split; [|done]. unfold bind. by rewrite Hm.
Qed.

Lemma wp_mono m Q Q' g :
  wp m Q g -> (forall a g', Q a g' -> Q' a g') -> wp m Q' g.
Proof. intros (a & g' & Hm & HQ) Himp. exists a, g'. eauto. Qed.
End Wp.

Section InvFacts.

Import IRGenerator Generator Spec.
Implicit Types (g : GeneratorX86_64Linux) (bound : list string).

Lemma frame_refl g : frame g g.
Proof. by repeat split. Qed.

Lemma Inv_frame bound g g' : Inv bound g -> frame g g' -> Inv bound g'.
Proof.
  intros ((key & Hkey & Hsome) & Hpos & Hext & Hbound & Hvars) (Hc & He & Hf).
  unfold Inv, position in *. rewrite Hc, He. repeat split; eauto.
Qed.

Lemma Inv_init : Inv [] init.
Proof.
  repeat split; try done.
  - exists "main". split; [done|]. by eexists.
  - intros x Hx. by apply elem_of_nil in Hx.
Qed.

Lemma wp_append bound line (Q : unit -> _ -> Prop) g :
  Inv bound g -> (forall g', frame g g' -> Q tt g') -> wp (append line) Q g.
Proof.
  intros ((key & Hkey & [stream Hstream]) & _) HQ.
  eexists tt, _. unfold append, append_to. rewrite Hkey, Hstream.
  split; [reflexivity|]. apply HQ. repeat split; cbn.
  intros k Hk. by apply dict_get_set_is_Some.
Qed.

Lemma wp_next_label prefix (Q : string -> _ -> Prop) g :
  (forall label g', frame g g' -> Q label g') -> wp (_next_label prefix) Q g.
Proof. intros HQ. eexists _, _. split; [reflexivity|]. apply HQ. by repeat split. Qed.

Lemma wp_set_data label line (Q : unit -> _ -> Prop) g :
  (forall g', frame g g' -> Q tt g') -> wp (set_data label line) Q g.
Proof. intros HQ. eexists _, _. split; [reflexivity|]. apply HQ. by repeat split. Qed.

Lemma wp_move bound (Q : unit -> _ -> Prop) g :
  Inv bound g ->
  (forall g', Inv bound g' -> position g' < 0 -> Q tt g') ->
  wp (with_context move_stack_pointer) Q g.
Proof.
  intros ((key & Hkey & Hsome) & Hpos & Hext & Hbound & Hvars) HQ.
  eexists _, _. split; [reflexivity|]. unfold position in *.
  apply HQ; unfold Inv, position; cbn; [|lia].
  repeat split; eauto; try lia.
  intros x p Hx. specialize (Hvars _ _ Hx). lia.
Qed.

Lemma wp_set_name bound x (Q : unit -> _ -> Prop) g :
  Inv bound g -> position g < 0 ->
  (forall g', Inv (x :: bound) g' -> position g' < 0 ->
              _extern g' = _extern g ->
              _variables (_context g') !! x = Some (position g') -> Q tt g') ->
  wp (set_name x) Q g.
Proof.
  intros ((key & Hkey & Hsome) & Hpos & Hext & Hbound & Hvars) Hneg HQ.
  eexists _, _. split; [reflexivity|]. unfold position in *.
  apply HQ; unfold Inv, position; cbn; [|lia|done|apply lookup_insert_eq].
  repeat split; eauto.
  - intros y Hy. destruct (decide (y = x)) as [->|Hne].
    + rewrite lookup_insert_eq. eauto.
    + rewrite lookup_insert_ne by done. apply Hbound.
      by apply elem_of_cons in Hy as [?|?].
  - intros y p. destruct (decide (y = x)) as [->|Hne].
    + rewrite lookup_insert_eq. intros [= <-]. lia.
    + rewrite lookup_insert_ne by done. apply Hvars.
Qed.

Lemma wp_extern bound name n (Q : unit -> _ -> Prop) g :
  n <= 4 -> Inv bound g ->
  (forall g', Inv bound g' -> position g' < 0 -> _extern g' ≠ [] -> Q tt g') ->
  wp (extern name n) Q g.
Proof.
  intros Hn HInv HQ. destruct (decide (name ∈ _extern g)) as [Hin|Hnin].
  - eexists _, _. split; [by apply extern_declared|].
    assert (_extern g ≠ []) as Hne
      by (intros Heq; rewrite Heq in Hin; by apply elem_of_nil in Hin).
    apply HQ; [done| |done]. by apply HInv.
  - destruct HInv as ((key & Hkey & [stream Hstream]) & Hpos & Hext & Hbound & Hvars).
    eexists _, _. split; [by eapply extern_fresh|]. unfold position in *.
    apply HQ; unfold Inv, position; cbn; [|lia|by destruct (_extern g)].
    repeat split; eauto; try lia.
    + exists key. split; [done|]. do 2 apply dict_get_set_is_Some. by eexists.
    + intros x p Hx. specialize (Hvars _ _ Hx). lia.
Qed.

Lemma wp_make_number bound v (Q : unit -> _ -> Prop) g :
  Inv bound g ->
  (forall g', Inv bound g' -> position g' < 0 -> _extern g' = _extern g ->
              _variables (_context g') = _variables (_context g) -> Q tt g') ->
  wp (make_number v) Q g.
Proof.
  intros HInv HQ. unfold make_number. apply wp_bind.
  eapply wp_append; [done|]. intros g1 Hf.
  pose proof (Inv_frame _ _ _ HInv Hf) as HInv1.
  destruct Hf as (Hc & He & _).
  destruct HInv1 as ((key & Hkey & Hsome) & Hpos & Hext & Hbound & Hvars).
  eexists _, _. split; [reflexivity|]. unfold position in *.
  apply HQ; unfold Inv, position; cbn; [|lia|done|by rewrite Hc].
  repeat split; eauto; try lia.
  intros x p Hx. specialize (Hvars _ _ Hx). lia.
Qed.

Lemma wp_position_of x p (Q : Z -> _ -> Prop) g :
  _variables (_context g) !! x = Some p -> p ≠ 0 -> Q p g ->
  wp (position_of x) Q g.
Proof.
  intros Hx Hp HQ. exists p, g. split; [|done].
  unfold position_of. by erewrite get_position_Some.
Qed.

End InvFacts.

Section MethodFacts.

Import IRGenerator Generator Spec.
Implicit Types (g : GeneratorX86_64Linux) (bound : list string).

Lemma Inv_weaken bound x g : Inv (x :: bound) g -> Inv bound g.
Proof.
  intros (Hkey & Hpos & Hext & Hbound & Hvars). repeat split; eauto.
  intros y Hy. apply Hbound. by right.
Qed.

Lemma Inv_bound_neg bound x g : Inv bound g -> x ∈ bound -> position g < 0.
Proof.
  intros (_ & _ & _ & Hbound & Hvars) Hx.
  destruct (Hbound _ Hx) as (p & Hp & Hneg). specialize (Hvars _ _ Hp). lia.
Qed.

Lemma wp_call bound (run : list instr -> G unit) f args (Q : unit -> _ -> Prop) g :
  f ∈ bound ->
  wp (run args) (fun _ g' => Inv bound g') g ->
  (forall g', Inv bound g' -> position g' < 0 -> Q tt g') ->
  wp (call_function_ run f args) Q g.
Proof.
  intros Hf Hargs HQ. unfold call_function_.
  apply wp_bind. eapply wp_mono; [exact Hargs|]. intros [] g1 HInv1. cbv beta.
  assert (exists p, _variables (_context g1) !! f = Some p /\ p < 0)
    as (p & Hp & Hneg) by (by apply HInv1).
  apply wp_bind. eapply wp_position_of; [done|lia|].
  rewrite bool_decide_eq_true_2 by lia.
  apply wp_bind. eapply wp_append; [done|]. intros g2 Hf2.
  pose proof (Inv_frame _ _ _ HInv1 Hf2) as HInv2.
  apply wp_bind. eapply wp_append; [done|]. intros g3 Hf3.
  pose proof (Inv_frame _ _ _ HInv2 Hf3) as HInv3.
  eapply wp_append; [done|]. intros g4 Hf4.
  pose proof (Inv_frame _ _ _ HInv3 Hf4) as HInv4.
  apply HQ; [done|]. by eapply Inv_bound_neg.
Qed.

Ltac step_frame HInv :=
  first
    [ apply wp_bind; eapply wp_append; [exact HInv|]
    | apply wp_bind; eapply wp_next_label
    | apply wp_bind; eapply wp_set_data ];
  let g' := fresh "g" in
  let Hf := fresh "Hf" in
  first [intros ? g' Hf | intros g' Hf];
  apply (fun H => Inv_frame _ _ _ H Hf) in HInv;
  clear Hf.

Lemma wp_make_string bound v (Q : unit -> _ -> Prop) g :
  Inv bound g ->
  (forall g', Inv bound g' -> position g' < 0 -> Q tt g') ->
  wp (make_string_ (fun _ => ret tt) v) Q g.
Proof.
  intros HInv HQ. unfold make_string_.
  apply wp_bind. eapply wp_extern; [lia|done|]. intros g1 HInv1 Hneg1 _.
  apply wp_bind. eapply wp_set_name; [done..|]. intros g2 HInv2 Hneg2 _ _.
  apply wp_bind. eapply wp_make_number; [done|]. intros g3 HInv3 _ _ _.
  apply wp_bind.
  eapply (wp_call ("malloc" :: bound)); [by left|by apply wp_ret|].
  intros g4 HInv4 _.
  do 16 step_frame HInv4.
  eapply wp_move; [exact HInv4|]. intros gz HInvz Hnegz.
  apply HQ; [|done]. by eapply Inv_weaken.
Qed.

Lemma compile_app (l1 l2 : list instr) g :
  compile (l1 ++ l2) g = bind (compile l1) (fun _ => compile l2) g.
Proof.
  revert g. induction l1 as [|i l1 IH]; intros g; [done|].
  change (compile ((i :: l1) ++ l2) g)
    with (bind (compile_instr i) (fun _ => compile (l1 ++ l2)) g).
  change (compile (i :: l1))
    with (bind (compile_instr i) (fun _ => compile l1)).
  unfold bind. destruct (compile_instr i g) as [[[]|e] g1]; [|done].
  apply IH.
Qed.

Lemma wp_compile_app l1 l2 (Q : unit -> _ -> Prop) g :
  wp (compile l1) (fun _ g' => wp (compile l2) Q g') g ->
  wp (compile (l1 ++ l2)) Q g.
Proof.
  intros H. apply wp_bind in H. destruct H as (a & g' & Hrun & HQ).
  exists a, g'. by rewrite compile_app.
Qed.

Lemma wp_compile_one i (Q : unit -> _ -> Prop) g :
  wp (compile_instr i) Q g -> wp (compile [i]) Q g.
Proof.
  intros H. change (compile [i]) with (bind (compile_instr i) (fun _ => ret tt)).
  apply wp_bind. eapply wp_mono; [exact H|]. intros [] g' HQ. by apply wp_ret.
Qed.

End MethodFacts.

Section LoweringFacts.

Import IRGenerator Generator Spec.
Implicit Types (g : GeneratorX86_64Linux) (bound : list string).

Lemma int_number_text s :
  number_text s = true -> int s = Ok (digits_value 0 s).
Proof. unfold number_text, int. destruct s; [done|]. by intros ->. Qed.

Lemma quoted_text_Ok s :
  quoted_text s = true -> exists u, _remove_quotes s = Ok u.
Proof. unfold quoted_text. destruct (_remove_quotes s); [eauto|done]. Qed.

Lemma args_run bound (n : nat) :
  (forall e, (size e < n)%nat -> expr_ok bound e = true -> expr_runs bound e) ->
  forall args,
    (list_sum (map size args) < n)%nat ->
    args_ok (expr_ok bound) args = true ->
    exists ir,
      generate_args _generate_expression args = Ok ir
      /\ forall g (Q : unit -> _ -> Prop),
           Inv bound g -> (forall g', Inv bound g' -> Q tt g') ->
           wp (compile ir) Q g.
Proof.
  intros IH. unfold list_sum.
  induction args as [|arg args IHargs]; intros Hsize Hok.
  { exists []. split; [done|]. intros g Q HInv HQ. apply wp_ret. by apply HQ. }
  destruct arg as [|[] a| |]; try done.
  cbn in Hsize. apply andb_true_iff in Hok as [Ha Hargs].
  destruct (IH a) as (ir_a & Hgen_a & Hrun_a); [lia|done|].
  destruct IHargs as (ir_args & Hgen_args & Hrun_args); [lia|done|].
  exists (ir_a ++ ir_args). split.
  { cbn. rewrite Hgen_a. cbn. by rewrite Hgen_args. }
  intros g Q HInv HQ. apply wp_compile_app.
  apply Hrun_a; [done|]. intros g1 HInv1 _. by apply Hrun_args.
Qed.

Lemma expr_run bound (n : nat) :
  forall e, (size e < n)%nat -> expr_ok bound e = true -> expr_runs bound e.
Proof.
  induction n as [|n IH]; intros e Hsize Hok; [lia|].
  destruct e as [|ty c| |]; try done.
  destruct ty; try done.
  - (* a string *)
    destruct c as [t| | |]; try done. cbn in Hok.
    apply quoted_text_Ok in Hok as [u Hu].
    exists [IR_MAKE_STRING u]. split; [cbn; by rewrite Hu|].
    intros g Q HInv HQ. apply wp_compile_one. by eapply wp_make_string.
  - (* a number *)
    destruct c as [t| | |]; try done. cbn in Hok.
    exists [IR_MAKE_NUMBER (digits_value 0 (value t))].
    split; [cbn; by rewrite int_number_text|].
    intros g Q HInv HQ. apply wp_compile_one.
    eapply wp_make_number; [done|]. intros g' HInv' Hneg _ _. by apply HQ.
  - (* a call *)
    destruct c as [| |[|[| |[|[f| | |] [|[| |keys|] [|]]]|] [|[| |args|] [|]]]|];
      try done.
    cbn in Hok. apply andb_true_iff in Hok as [Hf Hargs].
    apply bool_decide_eq_true_1 in Hf.
    destruct (args_run bound n IH args) as (ir & Hgen & Hrun);
      [cbn in Hsize; unfold list_sum in *; cbn in Hsize; lia|done|].
    exists [IR_CALL_FUNCTION (value f) ir]. split; [cbn; by rewrite Hgen|].
    intros g Q HInv HQ. apply wp_compile_one.
    eapply wp_call; [done| |done]. by apply Hrun.
  - (* an extern *)
    destruct c as [| | |[|[s| | |] [|[k| | |] [|]]]]; try done.
    cbn in Hok. apply andb_true_iff in Hok as [[Hs Hk]%andb_true_iff Hle].
    apply bool_decide_eq_true_1 in Hle.
    apply quoted_text_Ok in Hs as [u Hu].
    exists [IR_EXTERN u (digits_value 0 (value k))].
    split; [cbn; by rewrite Hu, int_number_text|].
    intros g Q HInv HQ. apply wp_compile_one.
    eapply wp_extern; [done..|]. intros g' HInv' Hneg _. by apply HQ.
Qed.

End LoweringFacts.



Section ProgramFacts.

Import IRGenerator Generator Spec.
Implicit Types (g : GeneratorX86_64Linux) (bound : list string).

Lemma assignment_of_Some statement x rhs :
  assignment_of statement = Some (x, rhs) ->
  statement = Node NODE_ASSIGNMENT (OList [OList [OTok x; OList []]; rhs]).
Proof.
  unfold assignment_of. intros H. repeat case_match; by simplify_eq.
Qed.

Lemma statement_is_expression bound statement :
  expr_ok bound statement = true ->
  _generate_statement (Node NODE_STATEMENT statement)
  = _generate_expression statement.
Proof.
  destruct statement as [|ty c| |]; try done. by destruct ty.
Qed.

Lemma stmt_run bound s bound' :
  stmt_ok bound s = Some bound' ->
  exists ir,
    _generate_statement s = Ok ir
    /\ forall g (Q : unit -> _ -> Prop),
         Inv bound g -> (forall g', Inv bound' g' -> Q tt g') ->
         wp (compile ir) Q g.
Proof.
  destruct s as [|[] statement| |]; try done. unfold stmt_ok.
  destruct (assignment_of statement) as [[x rhs]|] eqn:Hshape.
  - apply assignment_of_Some in Hshape as ->.
    destruct (expr_ok bound rhs) eqn:Hok; [|done]. intros [= <-].
    destruct (expr_run bound (S (size rhs)) rhs) as (ir & Hgen & Hrun);
      [lia|done|].
    exists (ir ++ [IR_SET_NAME (value x)]). split; [cbn; by rewrite Hgen|].
    intros g Q HInv HQ. apply wp_compile_app.
    apply Hrun; [done|]. intros g1 HInv1 Hneg1. apply wp_compile_one.
    eapply wp_set_name; [done..|]. intros g2 HInv2 _ _ _. by apply HQ.
  - destruct (expr_ok bound statement) eqn:Hok; [|done]. intros [= <-].
    destruct (expr_run bound (S (size statement)) statement)
      as (ir & Hgen & Hrun); [lia|done|].
    exists ir. split; [by rewrite (statement_is_expression bound)|].
    intros g Q HInv HQ. apply Hrun; [done|]. intros g1 HInv1 _. by apply HQ.
Qed.

Lemma program_run bound ast :
  program_ok bound ast = true ->
  exists ir,
    _generate_program ast = Ok ir
    /\ forall g, Inv bound g -> wp (compile ir) (fun _ _ => True) g.
Proof.
  revert bound. induction ast as [|s ast IH]; intros bound Hok.
  { exists []. split; [done|]. intros g _. by apply wp_ret. }
  cbn in Hok. destruct (stmt_ok bound s) as [bound'|] eqn:Hs; [|done].
  destruct (stmt_run _ _ _ Hs) as (ir_s & Hgen_s & Hrun_s).
  destruct (IH _ Hok) as (ir & Hgen & Hrun).
  exists (ir_s ++ ir). split.
  { change (_generate_program (s :: ast))
      with (res_bind (_generate_statement s) (fun statement_ir =>
            res_bind (_generate_program ast) (fun ir =>
            Ok (statement_ir ++ ir)))).
    by rewrite Hgen_s, Hgen. }
  intros g HInv. apply wp_compile_app. apply Hrun_s; [done|].
  intros g1 HInv1. by apply Hrun.
Qed.

Lemma unimplemented_statement s :
  unimplemented s = true ->
  (exists e, _generate_statement s = Raise e)
  \/ (exists i k, _generate_statement s = Ok [i]
                  /\ forall g, compile_instr i g = (Raise (KeyError k), g)).
Proof.
  destruct s as [|[] [|ty c| |]| |]; try done. intros Hty.
  destruct ty; try done; try (left; eexists; reflexivity).
  - (* a function *)
    destruct (_generate_statement _) as [ir|e] eqn:Hgen; [|eauto]. right.
    cbn in Hgen. unfold _generate_function_ in Hgen.
    repeat case_match; simplify_eq;
      repeat match goal with
      | H : res_bind ?m _ = Ok _ |- _ => destruct m; simplify_eq/=
      end.
    all: eauto.
  - (* a boolean *)
    destruct c; try (left; eexists; reflexivity). right. eauto.
Qed.

Lemma always_raises_cons_bad i k ir :
  (forall g, compile_instr i g = (Raise (KeyError k), g)) ->
  always_raises (i :: ir).
Proof.
  intros Hi g. exists (KeyError k), g.
  change (compile (i :: ir)) with (bind (compile_instr i) (fun _ => compile ir)).
  by apply bind_Raise.
Qed.

Lemma always_raises_app ir1 ir2 : always_raises ir2 -> always_raises (ir1 ++ ir2).
Proof.
  intros H2 g. rewrite compile_app. unfold bind.
  destruct (compile ir1 g) as [[[]|e] g1]; [apply H2|eauto].
Qed.

Lemma unimplemented_program ast :
  Exists (fun s => unimplemented s = true) ast ->
  (exists e, _generate_program ast = Raise e)
  \/ (exists ir, _generate_program ast = Ok ir /\ always_raises ir).
Proof.
  induction 1 as [s ast Hs|s ast _ IH];
    change (_generate_program (s :: ast))
      with (res_bind (_generate_statement s) (fun statement_ir =>
            res_bind (_generate_program ast) (fun ir =>
            Ok (statement_ir ++ ir)))).
  - destruct (unimplemented_statement s Hs) as [[e ->]|(i & k & -> & Hi)];
      [left; by eexists|].
    destruct (_generate_program ast) as [ir|e]; [right|left; by eexists].
    eexists. split; [done|]. by eapply always_raises_cons_bad.
  - destruct (_generate_statement s) as [ir_s|e]; [|left; by eexists].
    destruct IH as [[e ->]|(ir & -> & Hir)]; [left; by eexists|right].
    eexists. split; [done|]. by apply always_raises_app.
Qed.

End ProgramFacts.





(** * Further properties *)

(** ** The tokens of a text *)

Section LexerTokens.

Import Lexer Text.

Lemma drop_split k s : exists pre, s = pre +:+ drop k s.
Proof.
  revert s. induction k as [|k IH]; intros s.
  - exists "". by destruct s.
  - destruct s as [|c s]; [by exists ""|].
    destruct (IH s) as [pre Hpre]. exists (String c pre).
    rewrite app_cons_s. simpl. by rewrite <- Hpre.
Qed.

(** Every token of a line is what [_find_token] found at some place of
    the line. *)
Lemma scan_elem fuel ln l t :
  t ∈ scan fuel ln l ->
  exists pre c s,
    l = pre +:+ String c s
    /\ t = mkToken (_find_token (String c s)).1 (_find_token (String c s)).2
             (ln + 1)
    /\ (_find_token (String c s)).1 ∉ [TOKEN_WHITESPACE; TOKEN_COMMENT].
Proof.
  revert l t. induction fuel as [|fuel IH]; intros l t Hin.
  { destruct l; simpl in Hin; by apply elem_of_nil in Hin. }
  destruct l as [|c s]; [by apply elem_of_nil in Hin|].
  cbn [scan] in Hin.
  destruct (_find_token (String c s)) as [token_type token_value] eqn:Hfind.
  destruct (drop_split (String.length token_value) (String c s)) as [pre Hpre].
  assert (forall t, t ∈ scan fuel ln (drop (String.length token_value) (String c s)) ->
    exists pre c0 s0, String c s = pre +:+ String c0 s0
    /\ t = mkToken (_find_token (String c0 s0)).1 (_find_token (String c0 s0)).2 (ln + 1)
    /\ (_find_token (String c0 s0)).1 ∉ [TOKEN_WHITESPACE; TOKEN_COMMENT]) as Hrest.
  { intros t' Ht'. destruct (IH _ _ Ht') as (pre' & c0 & s0 & Heq & Ht & Hty).
    exists (pre +:+ pre'), c0, s0. split; [|done].
    rewrite app_assoc_s, <- Heq. exact Hpre. }
  case_bool_decide as Hskip.
  - by apply Hrest.
  - apply elem_of_cons in Hin as [->|Hin]; [|by apply Hrest].
    exists "", c, s. rewrite Hfind. done.
Qed.

Lemma scan_lines_elem ln lines t :
  t ∈ scan_lines ln lines ->
  exists (i : nat) l, lines !! i = Some l
    /\ t ∈ scan (String.length l) (ln + Z.of_nat i) l.
Proof.
  revert ln. induction lines as [|l lines IH]; intros ln Hin.
  { by apply elem_of_nil in Hin. }
  cbn [scan_lines] in Hin. apply elem_of_app in Hin as [Hin|Hin].
  - exists 0%nat, l. split; [done|]. by rewrite Z.add_0_r.
  - destruct (IH _ Hin) as (i & l' & Hl' & Ht).
    exists (S i), l'. split; [done|].
    by replace (ln + Z.of_nat (S i)) with (ln + 1 + Z.of_nat i) by lia.
Qed.

Lemma tokenize_elem code t :
  t ∈ tokenize code ->
  exists (i : nat) l pre c s,
    split_lines "" code !! i = Some l
    /\ l = pre +:+ String c s
    /\ t = mkToken (_find_token (String c s)).1 (_find_token (String c s)).2
             (Z.of_nat i + 1)
    /\ (_find_token (String c s)).1 ∉ [TOKEN_WHITESPACE; TOKEN_COMMENT].
Proof.
  intros Hin. apply scan_lines_elem in Hin as (i & l & Hl & Hin).
  apply scan_elem in Hin as (pre & c & s & Heq & Ht & Hty).
  exists i, l, pre, c, s. by rewrite Z.add_0_l in Ht.
Qed.

(** What [_find_token] returns: the match of one of the rules, as a
    keyword when the text is one, or the whole text when no rule
    matches. *)
Lemma find_in_cases rules s :
  (exists rule ty v,
     (rule, ty) ∈ rules /\ rule s = Some v
     /\ find_in rules s
        = (if bool_decide (v ∈ KEYWORDS) then TOKEN_KEYWORD else ty, v))
  \/ (Forall (fun r => r.1 s = None) rules
      /\ find_in rules s = (TOKEN_UNKNOWN, s)).
Proof.
  induction rules as [|[rule ty] rules IH]; [by right|].
  cbn [find_in]. destruct (rule s) as [v|] eqn:Hrule.
  - left. exists rule, ty, v. split; [by left|]. split; [done|].
    by case_bool_decide.
  - destruct IH as [(rule' & ty' & v & Hin & Hv & Hfind)|[Hall Hfind]].
    + left. exists rule', ty', v. split; [by right|]. done.
    + right. split; [|done]. by constructor.
Qed.

Ltac each_rule H :=
  unfold PATTERNS in H;
  repeat (apply elem_of_cons in H as [H|H]; [simplify_eq|]);
  try (by apply elem_of_nil in H).

Lemma keyword_starts s c :
  String c s ∈ KEYWORDS -> is_ident_start c = true.
Proof.
  unfold KEYWORDS. intros H.
  repeat (apply elem_of_cons in H as [H|H]; [by injection H as -> ->|]).
  by apply elem_of_nil in H.
Qed.

Lemma app_nil_r_s (s : string) : s = s +:+ "".
Proof. induction s as [|c s IH]; [done|]. by rewrite app_cons_s, <- IH. Qed.

Lemma take_while_split p s : exists post, s = take_while p s +:+ post.
Proof.
  induction s as [|c s [post IH]]; [by exists ""|]. simpl.
  destruct (p c); [|by exists (String c s)].
  exists post. by rewrite app_cons_s, <- IH.
Qed.

Lemma upto_quote_split q s m :
  upto_quote q s = Some m ->
  exists body post,
    m = body +:+ String q "" /\ s = m +:+ post /\ occurs q body = false.
Proof.
  revert m. induction s as [|c s IH]; intros m Hm; [done|].
  cbn [upto_quote] in Hm. case_bool_decide as Hc.
  - injection Hm as <-. subst c. by exists "", s.
  - destruct (upto_quote q s) as [m'|]; [|done]. injection Hm as <-.
    destruct (IH m' eq_refl) as (body & post & -> & Hs & Hocc).
    exists (String c body), post. rewrite !app_cons_s.
    split; [done|]. split; [by rewrite <- Hs|].
    cbn [occurs]. rewrite bool_decide_eq_false_2 by done. exact Hocc.
Qed.

Lemma is_prefix_split p s : is_prefix p s = true -> exists post, s = p +:+ post.
Proof.
  revert s. induction p as [|a p IH]; intros s H; [by exists s|].
  destruct s as [|b s]; [done|]. cbn [is_prefix] in H.
  apply andb_true_iff in H as [Hab Hp]. apply bool_decide_eq_true in Hab as ->.
  destruct (IH _ Hp) as [post ->]. by exists post.
Qed.

(** A rule matches a text that the input starts with. *)
Lemma rule_prefix rule ty s v :
  (rule, ty) ∈ PATTERNS -> rule s = Some v -> exists post, s = v +:+ post.
Proof.
  intros Hin Hv. each_rule Hin.
  all: try (unfold match_lit in Hv; case_match; [|done]; injection Hv as <-;
            by apply is_prefix_split).
  - unfold match_plus in Hv. pose proof (take_while_split is_space s) as [post Hs].
    destruct (take_while is_space s); [done|]. injection Hv as <-. by exists post.
  - unfold match_plus in Hv. pose proof (take_while_split is_digit s) as [post Hs].
    destruct (take_while is_digit s); [done|]. injection Hv as <-. by exists post.
  - unfold match_comment in Hv. exists "".
    assert (v = s) as -> by (repeat case_match; congruence).
    apply app_nil_r_s.
  - unfold match_quoted in Hv. destruct s as [|c s]; [done|].
    case_bool_decide; [|done].
    destruct (upto_quote _ s) as [m|] eqn:Hm; [|done]. injection Hv as <-.
    apply upto_quote_split in Hm as (body & post & _ & -> & _).
    by exists post.
  - unfold match_quoted in Hv. destruct s as [|c s]; [done|].
    case_bool_decide; [|done].
    destruct (upto_quote _ s) as [m|] eqn:Hm; [|done]. injection Hv as <-.
    apply upto_quote_split in Hm as (body & post & _ & -> & _).
    by exists post.
  - unfold match_identifier in Hv. destruct s as [|c s]; [done|].
    case_match; [|done]. injection Hv as <-.
    destruct (take_while_split is_ident_char s) as [post Hs].
    exists post. by rewrite app_cons_s, <- Hs.
Qed.

Lemma _find_token_prefix c s :
  exists post, String c s = (_find_token (String c s)).2 +:+ post.
Proof.
  destruct (find_in_cases PATTERNS (String c s))
    as [(rule & ty & v & Hin & Hv & Hfind)|[_ Hfind]];
    unfold _find_token; rewrite Hfind; cbn [snd].
  - by eapply rule_prefix.
  - exists "". apply app_nil_r_s.
Qed.

(** A token is a keyword exactly when its text is one of [KEYWORDS]. *)
Lemma _find_token_keyword c s :
  (_find_token (String c s)).1 = TOKEN_KEYWORD
  <-> (_find_token (String c s)).2 ∈ KEYWORDS.
Proof.
  destruct (find_in_cases PATTERNS (String c s))
    as [(rule & ty & v & Hin & Hv & Hfind)|[Hall Hfind]];
    unfold _find_token; rewrite Hfind; cbn [fst snd].
  - case_bool_decide as Hkw; [done|]. split; [|done].
    intros ->. exfalso. clear -Hin. each_rule Hin.
  - split; [done|]. intros Hkw%keyword_starts. exfalso.
    unfold PATTERNS in Hall.
    do 5 apply Forall_cons_1 in Hall as [_ Hall].
    apply Forall_cons_1 in Hall as [Hid _]. cbn in Hid.
    by rewrite Hkw in Hid.
Qed.

(** The types [_find_token] gives. *)
Lemma _find_token_types c s :
  (_find_token (String c s)).1 ∉ [TOKEN_EMPTY; TOKEN_EOF].
Proof.
  assert (forall ty, ty = TOKEN_KEYWORD \/ ty = TOKEN_UNKNOWN
                     \/ (exists rule, (rule, ty) ∈ PATTERNS) ->
                     ty ∉ [TOKEN_EMPTY; TOKEN_EOF]) as Hno.
  { intros ty Hty Hin.
    apply elem_of_cons in Hin as [->|Hin];
      [|apply elem_of_cons in Hin as [->|Hin]; [|by apply elem_of_nil in Hin]].
    - destruct Hty as [?|[?|[rule Hrule]]]; [done..|]. each_rule Hrule.
    - destruct Hty as [?|[?|[rule Hrule]]]; [done..|]. each_rule Hrule. }
  apply Hno.
  destruct (find_in_cases PATTERNS (String c s))
    as [(rule & ty & v & Hin & Hv & Hfind)|[Hall Hfind]];
    unfold _find_token; rewrite Hfind; cbn [fst snd].
  - case_bool_decide; [by left|]. right. right. by exists rule.
  - right. by left.
Qed.

Lemma all_digits_take_while s :
  IRGenerator.all_digits (take_while is_digit s) = true.
Proof.
  induction s as [|c s IH]; [done|]. simpl.
  destruct (is_digit c) eqn:Hc; [|done]. simpl. by rewrite Hc.
Qed.

(** The text of a [NUMBER] token is a run of digits. *)
Lemma _find_token_number c s :
  (_find_token (String c s)).1 = TOKEN_NUMBER ->
  Spec.number_text (_find_token (String c s)).2 = true.
Proof.
  destruct (find_in_cases PATTERNS (String c s))
    as [(rule & ty & v & Hin & Hv & Hfind)|[Hall Hfind]];
    unfold _find_token; rewrite Hfind; cbn [fst snd]; [|done].
  case_bool_decide; [done|]. intros ->.
  each_rule Hin. unfold match_plus in Hv.
  pose proof (all_digits_take_while (String c s)) as Hd.
  destruct (take_while is_digit (String c s)) eqn:E; [done|].
  injection Hv as <-. exact Hd.
Qed.

(** The text of a [STRING] token: a quote, a body without that quote,
    the same quote. *)
Lemma _find_token_string c s :
  (_find_token (String c s)).1 = TOKEN_STRING ->
  exists q body,
    IRGenerator.is_quote q = true /\ occurs q body = false
    /\ (_find_token (String c s)).2 = String q (body +:+ String q "").
Proof.
  destruct (find_in_cases PATTERNS (String c s))
    as [(rule & ty & v & Hin & Hv & Hfind)|[Hall Hfind]];
    unfold _find_token; rewrite Hfind; cbn [fst snd]; [|done].
  case_bool_decide; [done|]. intros ->.
  each_rule Hin.
  all: unfold match_quoted in Hv; case_bool_decide; [|done];
    destruct (upto_quote _ s) as [m|] eqn:Hm; [|done]; injection Hv as <-;
    apply upto_quote_split in Hm as (body & post & -> & _ & Hocc); subst c;
    match goal with
    | Hq : occurs ?q body = false |- _ => exists q, body
    end; (split; [by vm_compute|done]).
Qed.

Lemma _find_token_unknown c s :
  (_find_token (String c s)).1 = TOKEN_UNKNOWN ->
  (_find_token (String c s)).2 = String c s.
Proof.
  destruct (find_in_cases PATTERNS (String c s))
    as [(rule & ty & v & Hin & Hv & Hfind)|[Hall Hfind]];
    unfold _find_token; rewrite Hfind; cbn [fst snd]; [|done].
  case_bool_decide; [done|]. intros ->. each_rule Hin.
Qed.

End LexerTokens.

Section LexerProps.

Import Lexer Text.

Lemma tokenize_Forall (P : Token -> Prop) code :
  (forall (i : nat) l pre c s,
     split_lines "" code !! i = Some l -> l = pre +:+ String c s ->
     (_find_token (String c s)).1 ∉ [TOKEN_WHITESPACE; TOKEN_COMMENT] ->
     P (mkToken (_find_token (String c s)).1 (_find_token (String c s)).2
          (Z.of_nat i + 1))) ->
  Forall P (tokenize code).
Proof.
  intros HP. apply Forall_forall. intros t Ht.
  apply tokenize_elem in Ht as (i & l & pre & c & s & Hl & Heq & -> & Hty).
  by eapply HP.
Qed.

(** X1.  A token of [tokenize] has the type KEYWORD exactly when its text
    is one of the keywords of the language: no keyword comes out as an identifier,
    and no other text as a keyword. *)
Theorem X1_keyword_tokens code :
  Forall (fun t => type t = TOKEN_KEYWORD <-> value t ∈ KEYWORDS)
    (tokenize code).
Proof.
  apply tokenize_Forall. intros i l pre c s _ _ _. cbn [type value].
  apply _find_token_keyword.
Qed.

Lemma scan_length fuel ln l : (length (scan fuel ln l) <= String.length l)%nat.
Proof.
  revert l. induction fuel as [|fuel IH]; intros l.
  { destruct l; simpl; lia. }
  destruct l as [|c s]; [simpl; lia|]. cbn [scan].
  pose proof (_find_token_nonempty c s) as Hne.
  destruct (_find_token (String c s)) as [token_type token_value].
  destruct token_value as [|c' v]; [done|].
  assert (String.length (drop (String.length (String c' v)) (String c s))
          <= String.length s)%nat as Hrest by (simpl; apply drop_length).
  specialize (IH (drop (String.length (String c' v)) (String c s))).
  case_bool_decide; cbn [length String.length] in *; lia.
Qed.

Lemma length_rev_s (s : string) : String.length (String.rev s) = String.length s.
Proof.
  unfold String.rev.
  assert (forall acc, String.length (String.rev_app s acc)
                      = (String.length s + String.length acc)%nat) as H.
  { induction s as [|c s IH]; intros acc; [done|]. simpl. rewrite IH. simpl. lia. }
  rewrite H. simpl. lia.
Qed.

Lemma split_lines_length cur s :
  (list_sum (map String.length (split_lines cur s))
   <= String.length cur + String.length s)%nat.
Proof.
  revert cur. induction s as [|c s IH]; intros cur.
  { simpl. rewrite length_rev_s. lia. }
  cbn [split_lines]. case_bool_decide.
  - cbn [map list_sum]. rewrite length_rev_s. specialize (IH ""). simpl in *. lia.
  - specialize (IH (String c cur)). simpl in *. lia.
Qed.

Lemma scan_lines_length ln lines :
  (length (scan_lines ln lines) <= list_sum (map String.length lines))%nat.
Proof.
  revert ln. induction lines as [|l lines IH]; intros ln; [done|].
  cbn [scan_lines]. rewrite length_app.
  pose proof (scan_length (String.length l) ln l). specialize (IH (ln + 1)).
  unfold list_sum in *. simpl. lia.
Qed.

(** X2.  [tokenize] returns no whitespace and no comment, and no token
    of the types EMPTY and EOF, which only the parser makes.  No token
    has an empty text, and there are at most as many tokens as the text
    has characters. *)
Theorem X2_tokens_kept code :
  Forall (fun t =>
            (type t ∉ [TOKEN_WHITESPACE; TOKEN_COMMENT; TOKEN_EMPTY; TOKEN_EOF])
            /\ value t <> "")
    (tokenize code)
  /\ (length (tokenize code) <= String.length code)%nat.
Proof.
  split.
  - apply tokenize_Forall. intros i l pre c s _ _ Hskip. cbn [type value].
    split; [|apply _find_token_nonempty].
    pose proof (_find_token_types c s) as Hty.
    intros Hin. apply elem_of_cons in Hin as [Hin|Hin].
    { apply Hskip. rewrite Hin. by left. }
    apply elem_of_cons in Hin as [Hin|Hin].
    { apply Hskip. rewrite Hin. right. by left. }
    by apply Hty.
  - unfold tokenize.
    pose proof (scan_lines_length 0 (split_lines "" code)).
    pose proof (split_lines_length "" code). simpl in *. lia.
Qed.

Lemma scan_lines_lines ln lines :
  Forall (fun t => ln < line t) (scan_lines ln lines).
Proof.
  apply Forall_forall. intros t Ht.
  apply scan_lines_elem in Ht as (i & l & _ & Ht).
  apply scan_elem in Ht as (? & ? & ? & _ & -> & _). simpl. lia.
Qed.

Lemma scan_lines_sorted ln lines :
  StronglySorted (fun t t' => line t <= line t') (scan_lines ln lines).
Proof.
  revert ln. induction lines as [|l lines IH]; intros ln; [constructor|].
  cbn [scan_lines]. apply StronglySorted_app_2; [| |apply IH].
  - intros t t' Ht Ht'.
    apply scan_elem in Ht as (? & ? & ? & _ & -> & _).
    pose proof (scan_lines_lines (ln + 1) lines) as Hl.
    rewrite Forall_forall in Hl. specialize (Hl _ Ht'). simpl. lia.
  - generalize (String.length l) at 1. intros fuel.
    assert (Forall (fun t => line t = ln + 1) (scan fuel ln l)) as Hall.
    { apply Forall_forall. intros t Ht.
      by apply scan_elem in Ht as (? & ? & ? & _ & -> & _). }
    induction Hall as [|t ts Ht Hts IHts]; constructor; [done|].
    eapply Forall_impl; [exact Hts|]. intros t' Ht'. simpl in Ht'. lia.
Qed.

(** X3.  The line of a token is the number, counted from 1, of a line
    of the text (as split at newlines) in which the text of the token
    stands, and the tokens come in the order of their lines. *)
Theorem X3_token_lines code :
  Forall (fun t =>
            exists (i : nat) pre post,
              line t = Z.of_nat i + 1
              /\ split_lines "" code !! i = Some (pre +:+ value t +:+ post))
    (tokenize code)
  /\ StronglySorted (fun t t' => line t <= line t') (tokenize code).
Proof.
  split; [|apply scan_lines_sorted].
  apply tokenize_Forall. intros i l pre c s Hl Heq _. cbn [line value].
  destruct (_find_token_prefix c s) as [post Hpost].
  exists i, pre, post. split; [done|]. by rewrite <- Hpost, <- Heq.
Qed.

End LexerProps.

Section QuoteFacts.

Import IRGenerator.

Lemma last_char_app c body c' : last_char c (body +:+ String c' "") = c'.
Proof.
  revert c. induction body as [|x body IH]; intros c; [done|].
  rewrite app_cons_s. simpl. apply IH.
Qed.

Lemma drop_last_app body c' : drop_last (body +:+ String c' "") = body.
Proof.
  induction body as [|x body IH]; [done|].
  rewrite app_cons_s. cbn [drop_last]. rewrite IH.
  destruct body; reflexivity.
Qed.

Lemma digits_value_nonneg acc s :
  all_digits s = true -> 0 <= acc -> 0 <= digits_value acc s.
Proof.
  revert acc. induction s as [|c s IH]; intros acc Hd Hacc; [done|].
  simpl in Hd. apply andb_true_iff in Hd as [Hc Hs]. simpl.
  apply IH; [done|]. unfold Lexer.is_digit, Lexer.code in Hc.
  apply andb_true_iff in Hc as [Hlo _]. apply N.leb_le in Hlo. lia.
Qed.

Lemma _remove_quotes_between c body c' :
  _remove_quotes (String c (body +:+ String c' ""))
  = if is_quote c && is_quote c' then Ok body else Raise AssertionError.
Proof. unfold _remove_quotes. by rewrite last_char_app, drop_last_app. Qed.

(** X9.  [_remove_quotes] on every text.  The empty text has no first
    character: [IndexError].  A text of one character is its own first
    and last character, and gives the empty text when that character is
    a quote.  A longer text loses its first and last character when both
    are quotes, of the same kind or not, and fails the assertion
    otherwise. *)
Theorem X9_remove_quotes_cases :
  _remove_quotes "" = Raise IndexError
  /\ (forall c,
        _remove_quotes (String c "")
        = if is_quote c then Ok "" else Raise AssertionError)
  /\ (forall c body c',
        _remove_quotes (String c (body +:+ String c' ""))
        = if is_quote c && is_quote c' then Ok body else Raise AssertionError).
Proof.
  split; [done|]. split.
  - intros c. unfold _remove_quotes. simpl. by destruct (is_quote c).
  - apply _remove_quotes_between.
Qed.

End QuoteFacts.

Section LexerLiterals.

Import Lexer Text.


(** X6.  The text of a STRING token of [tokenize] is a quote, a body in
    which that quote does not occur, and the same quote again; the string
    literal node on that token lowers to the one instruction
    [IR_MAKE_STRING] of the body.  The assertion of [_remove_quotes]
    cannot fail on a token of the lexer. *)
Theorem X6_string_tokens_lower code :
  Forall (fun t =>
            type t = TOKEN_STRING ->
            exists q body,
              IRGenerator.is_quote q = true
              /\ occurs q body = false
              /\ value t = String q (body +:+ String q "")
              /\ IRGenerator._generate_string_literal
                   (Node NODE_STRING_LITERAL (OTok t))
                 = Ok [IR_MAKE_STRING body])
    (tokenize code).
Proof.
  apply tokenize_Forall. intros i l pre c s _ _ _. cbn [type value].
  intros Hstr. apply _find_token_string in Hstr as (q & body & Hq & Hocc & Hv).
  exists q, body. split; [done|]. split; [done|]. split; [done|].
  unfold IRGenerator._generate_string_literal, IRGenerator.value_of.
  cbn [value res_bind]. rewrite Hv.
  by rewrite _remove_quotes_between, Hq.
Qed.

Lemma drop_all s : drop (String.length s) s = "".
Proof. induction s as [|c s IH]; [done|]. exact IH. Qed.

Lemma scan_nil fuel ln : scan fuel ln "" = [].
Proof. by destruct fuel. Qed.

Lemma scan_unknown_last fuel ln l l1 t l2 :
  scan fuel ln l = l1 ++ t :: l2 -> type t = TOKEN_UNKNOWN -> l2 = [].
Proof.
  revert l l1. induction fuel as [|fuel IH]; intros l l1 Heq Hty.
  { destruct l, l1; discriminate Heq. }
  destruct l as [|c s]; [by destruct l1|]. cbn [scan] in Heq.
  pose proof (_find_token_unknown c s) as Hunk.
  destruct (_find_token (String c s)) as [token_type token_value].
  cbn [fst snd] in Hunk.
  case_bool_decide as Hskip; [by eapply IH|].
  destruct l1 as [|t0 l1].
  - injection Heq as <- <-. cbn [type] in Hty.
    rewrite (Hunk Hty), drop_all. apply scan_nil.
  - injection Heq as _ Heq. by eapply IH.
Qed.

Lemma scan_lines_unknown ln lines l1 t l2 :
  scan_lines ln lines = l1 ++ t :: l2 -> type t = TOKEN_UNKNOWN ->
  Forall (fun t' => line t < line t') l2.
Proof.
  revert ln l1. induction lines as [|l lines IH]; intros ln l1 Heq Hty.
  { by destruct l1. }
  cbn [scan_lines] in Heq.
  apply app_eq_inv in Heq as [(k & Hscan & Hrest)|(k & -> & Hrest)].
  - destruct k as [|t0 k].
    + rewrite app_nil_l in Hrest. eapply (IH (ln + 1) []); [|done].
      by rewrite <- Hrest.
    + rewrite <- app_comm_cons in Hrest. injection Hrest as <- ->.
      assert (t ∈ scan (String.length l) ln l) as Hin.
      { rewrite Hscan. apply elem_of_app. right. by left. }
      apply scan_elem in Hin as (? & ? & ? & _ & Ht0 & _).
      apply scan_unknown_last in Hscan as ->; [|done].
      rewrite app_nil_l.
      eapply Forall_impl; [apply (scan_lines_lines (ln + 1) lines)|].
      intros t' Ht'. simpl in Ht'. rewrite Ht0. simpl. lia.
  - by eapply IH.
Qed.

(** X7.  A token of the type UNKNOWN takes the rest of its line: its
    text is what is left of the line from where no pattern matches, and
    every token after it is on a later line. *)
Theorem X7_unknown_token_ends_line code l1 t l2 :
  tokenize code = l1 ++ t :: l2 -> type t = TOKEN_UNKNOWN ->
  (exists (i : nat) pre,
     line t = Z.of_nat i + 1
     /\ split_lines "" code !! i = Some (pre +:+ value t))
  /\ Forall (fun t' => line t < line t') l2.
Proof.
  intros Heq Hty. split; [|by eapply scan_lines_unknown].
  assert (t ∈ tokenize code) as Hin.
  { rewrite Heq. apply elem_of_app. right. by left. }
  apply tokenize_elem in Hin as (i & l & pre & c & s & Hl & Hpre & -> & _).
  cbn [type] in Hty. cbn [line value].
  exists i, pre. split; [done|].
  by rewrite (_find_token_unknown c s Hty), <- Hpre.
Qed.

Lemma X7_unknown_token_ends_line_witness :
  let code := "x @ y" +:+ String "010"%char "z" in
  let t := mkToken TOKEN_UNKNOWN "@ y" 1 in
  tokenize code
  = [mkToken TOKEN_IDENTIFIER "x" 1] ++ t :: [mkToken TOKEN_IDENTIFIER "z" 2]
  /\ (exists (i : nat) pre,
        line t = Z.of_nat i + 1
        /\ split_lines "" code !! i = Some (pre +:+ value t))
  /\ Forall (fun t' => line t < line t') [mkToken TOKEN_IDENTIFIER "z" 2].
Proof.
  intros code t. split; [vm_compute; reflexivity|].
  apply (X7_unknown_token_ends_line code [mkToken TOKEN_IDENTIFIER "x" 1] t
           [mkToken TOKEN_IDENTIFIER "z" 2]);
    vm_compute; reflexivity.
Defined.

Lemma split_lines_app cur a b :
  split_lines cur (a +:+ String "010"%char b)
  = split_lines cur a ++ split_lines "" b.
Proof.
  revert cur. induction a as [|c a IH]; intros cur.
  { rewrite app_nil_s. cbn [split_lines].
    by rewrite bool_decide_eq_true_2. }
  rewrite app_cons_s. cbn [split_lines].
  case_bool_decide; by rewrite IH.
Qed.

Lemma scan_shift fuel ln k l :
  scan fuel (ln + k) l = map (shift k) (scan fuel ln l).
Proof.
  revert l. induction fuel as [|fuel IH]; intros l; [by destruct l|].
  destruct l as [|c s]; [done|]. cbn [scan].
  destruct (_find_token (String c s)) as [token_type token_value].
  rewrite IH. case_bool_decide; [done|]. cbn [map]. f_equal.
  unfold shift. cbn. f_equal. lia.
Qed.

Lemma scan_lines_shift ln k lines :
  scan_lines (ln + k) lines = map (shift k) (scan_lines ln lines).
Proof.
  revert ln. induction lines as [|l lines IH]; intros ln; [done|].
  cbn [scan_lines]. rewrite map_app, scan_shift.
  replace (ln + k + 1) with (ln + 1 + k) by lia. by rewrite IH.
Qed.

Lemma scan_lines_app ln l1 l2 :
  scan_lines ln (l1 ++ l2)
  = scan_lines ln l1 ++ scan_lines (ln + Z.of_nat (length l1)) l2.
Proof.
  revert ln. induction l1 as [|l l1 IH]; intros ln.
  { simpl. by rewrite Z.add_0_r. }
  cbn [app scan_lines length]. rewrite IH, <- app_assoc. do 3 f_equal. lia.
Qed.

Lemma tokenize_shift a b :
  tokenize (a +:+ String "010"%char b)
  = tokenize a
    ++ map (shift (Z.of_nat (length (split_lines "" a)))) (tokenize b).
Proof.
  unfold tokenize. rewrite split_lines_app, scan_lines_app.
  by rewrite Z.add_0_l, <- (Z.add_0_l (Z.of_nat _)), scan_lines_shift.
Qed.

(** X8.  The tokens of two texts joined by a newline are the tokens of
    the first followed by the tokens of the second, the lines of the
    latter moved up by the number of lines of the first.  No token spans
    a newline. *)
Theorem X8_tokenize_newline a b :
  tokenize (a +:+ String "010"%char b)
  = tokenize a
    ++ map (fun t =>
              mkToken (type t) (value t)
                (line t + Z.of_nat (length (split_lines "" a))))
         (tokenize b).
Proof. exact (tokenize_shift a b). Qed.

End LexerLiterals.

Section Relex.

Import Lexer Text.

Lemma take_while_all p s : take_while p (take_while p s) = take_while p s.
Proof.
  induction s as [|c s IH]; [done|]. simpl.
  destruct (p c) eqn:Hc; [|done]. simpl. by rewrite Hc, IH.
Qed.

Lemma stable_plus p : stable (match_plus p).
Proof.
  intros v post. unfold match_plus. split.
  - destruct v as [|c v]; [done|]. rewrite app_cons_s. simpl.
    by destruct (p c).
  - intros H.
    assert (take_while p (v +:+ post) = v) as Hv.
    { destruct (take_while p (v +:+ post)); [done|]. by injection H. }
    rewrite <- Hv at 1. rewrite take_while_all, Hv.
    destruct v; [|done]. rewrite Hv in H. done.
Qed.

Lemma stable_comment : stable match_comment.
Proof.
  intros v post. unfold match_comment. split.
  - destruct v as [|c v]; [done|]. rewrite app_cons_s. intros H.
    repeat case_match; simplify_eq; done.
  - destruct v as [|c v]; [by destruct post; repeat case_match|].
    rewrite app_cons_s. intros H. repeat case_match; simplify_eq; done.
Qed.

Lemma upto_quote_prefix_none q v post :
  upto_quote q (v +:+ post) = None -> upto_quote q v = None.
Proof.
  induction v as [|c v IH]; [done|]. rewrite app_cons_s. cbn [upto_quote].
  case_bool_decide; [done|].
  destruct (upto_quote q (v +:+ post)); [done|]. intros _. by rewrite IH.
Qed.

Lemma upto_quote_self q s m : upto_quote q s = Some m -> upto_quote q m = Some m.
Proof.
  revert m. induction s as [|c s IH]; intros m H; [done|].
  cbn [upto_quote] in H. case_bool_decide as Hc.
  - injection H as <-. cbn. by rewrite bool_decide_eq_true_2.
  - destruct (upto_quote q s) as [m'|]; [|done]. injection H as <-.
    cbn [upto_quote]. rewrite bool_decide_eq_false_2 by done.
    by rewrite (IH m').
Qed.

Lemma stable_quoted q : stable (match_quoted q).
Proof.
  intros v post. unfold match_quoted. split.
  - destruct v as [|c v]; [done|]. rewrite app_cons_s.
    case_bool_decide; [|done].
    destruct (upto_quote q (v +:+ post)) eqn:Hq; [done|]. intros _.
    by rewrite (upto_quote_prefix_none _ _ _ Hq).
  - destruct v as [|c v].
    { rewrite app_nil_s. destruct post; [done|]. case_bool_decide; [|done].
      by destruct (upto_quote q post). }
    rewrite app_cons_s. case_bool_decide; [|done].
    destruct (upto_quote q (v +:+ post)) as [m|] eqn:Hq; [|done].
    intros [= ->]. by rewrite (upto_quote_self _ _ _ Hq).
Qed.

Lemma stable_identifier : stable match_identifier.
Proof.
  intros v post. unfold match_identifier. split.
  - destruct v as [|c v]; [done|]. rewrite app_cons_s. by destruct (is_ident_start c).
  - destruct v as [|c v].
    { rewrite app_nil_s. destruct post; [done|]. by case_match. }
    rewrite app_cons_s. destruct (is_ident_start c); [|done].
    intros [= Hv]. rewrite <- Hv at 1. by rewrite take_while_all, Hv.
Qed.

Lemma is_prefix_app p v post :
  is_prefix p v = true -> is_prefix p (v +:+ post) = true.
Proof.
  revert v. induction p as [|a p IH]; intros v H; [done|].
  destruct v as [|b v]; [done|]. rewrite app_cons_s. cbn [is_prefix] in *.
  apply andb_true_iff in H as [-> H]. by rewrite IH.
Qed.

Lemma is_prefix_refl p : is_prefix p p = true.
Proof.
  induction p as [|a p IH]; [done|]. cbn. by rewrite bool_decide_eq_true_2, IH.
Qed.

Lemma stable_lit lit : stable (match_lit lit).
Proof.
  intros v post. unfold match_lit. split.
  - destruct (is_prefix lit v) eqn:Hp; [|done].
    by rewrite (is_prefix_app _ _ _ Hp).
  - destruct (is_prefix lit (v +:+ post)); [|done]. intros [= ->].
    by rewrite is_prefix_refl.
Qed.

Lemma stable_PATTERNS : Forall (fun r => stable r.1) PATTERNS.
Proof.
  unfold PATTERNS.
  repeat (constructor;
          [first [apply stable_plus | apply stable_comment | apply stable_quoted
                 | apply stable_identifier | apply stable_lit]|]).
  constructor.
Qed.

Lemma find_in_stable rules v post ty :
  Forall (fun r => stable r.1) rules ->
  find_in rules (v +:+ post) = (ty, v) ->
  find_in rules v = (ty, v).
Proof.
  intros Hst. induction Hst as [|[rule ty'] rules Hrule _ IH]; cbn [find_in].
  - by intros [= <- _].
  - destruct (Hrule v post) as [Hnone Hsome]. cbn [fst] in *.
    destruct (rule (v +:+ post)) as [m|] eqn:Hm.
    + intros H.
      assert (m = v) as -> by (by case_bool_decide; injection H).
      by rewrite (Hsome eq_refl).
    + rewrite (Hnone eq_refl). exact IH.
Qed.

Lemma _find_token_value c s :
  _find_token (_find_token (String c s)).2 = _find_token (String c s).
Proof.
  destruct (_find_token_prefix c s) as [post Hpost].
  destruct (_find_token (String c s)) as [ty v] eqn:Hfind. cbn [snd] in *.
  unfold _find_token in *. apply (find_in_stable _ _ post); [apply stable_PATTERNS|].
  by rewrite <- Hpost.
Qed.

Lemma occurs_app c a b : occurs c (a +:+ b) = occurs c a || occurs c b.
Proof.
  induction a as [|x a IH]; [done|]. rewrite app_cons_s. cbn [occurs].
  by rewrite IH, orb_assoc.
Qed.

Lemma rev_app_s s acc : String.rev_app s acc = String.rev s +:+ acc.
Proof.
  unfold String.rev. revert acc.
  induction s as [|c s IH]; intros acc; [done|]. cbn [String.rev_app].
  rewrite IH, (IH (String c "")). by rewrite app_assoc_s.
Qed.

Lemma rev_cons_s c s : String.rev (String c s) = String.rev s +:+ String c "".
Proof. unfold String.rev at 1. cbn [String.rev_app]. apply rev_app_s. Qed.

Lemma occurs_rev c s : occurs c (String.rev s) = occurs c s.
Proof.
  induction s as [|x s IH]; [done|]. rewrite rev_cons_s, occurs_app, IH.
  cbn [occurs]. by rewrite orb_false_r, orb_comm.
Qed.

Lemma split_lines_plain cur s :
  occurs "010"%char cur = false ->
  Forall (fun l => occurs "010"%char l = false) (split_lines cur s).
Proof.
  revert cur. induction s as [|c s IH]; intros cur Hcur; cbn [split_lines].
  { constructor; [by rewrite occurs_rev|constructor]. }
  case_bool_decide as Hc.
  - constructor; [by rewrite occurs_rev|]. by apply IH.
  - apply IH. cbn [occurs]. rewrite Hcur.
    by rewrite bool_decide_eq_false_2.
Qed.

Lemma split_lines_one cur s :
  occurs "010"%char s = false -> split_lines cur s = [String.rev cur +:+ s].
Proof.
  revert cur. induction s as [|c s IH]; intros cur Hs; cbn [split_lines].
  { by rewrite <- app_nil_r_s. }
  cbn [occurs] in Hs. apply orb_false_iff in Hs as [Hc Hs].
  rewrite Hc. rewrite IH by done. by rewrite rev_cons_s, app_assoc_s.
Qed.

(** X4.  The text of a token of [tokenize], lexed on its own, is that
    one token again, with the same type, on line 1. *)
Theorem X4_token_relexes code :
  Forall (fun t => tokenize (value t) = [mkToken (type t) (value t) 1])
    (tokenize code).
Proof.
  apply tokenize_Forall. intros i l pre c s Hl Heq Hskip. cbn [type value].
  pose proof (split_lines_plain "" code eq_refl) as Hplain.
  rewrite Forall_forall in Hplain.
  assert (occurs "010"%char l = false) as Hline.
  { apply Hplain. by eapply list_elem_of_lookup_2. }
  destruct (_find_token_prefix c s) as [post Hpost].
  pose proof (_find_token_value c s) as Hvalue.
  pose proof (_find_token_nonempty c s) as Hne.
  destruct (_find_token (String c s)) as [ty v]. cbn [fst snd] in *.
  assert (occurs "010"%char v = false) as Hv.
  { rewrite Heq, Hpost, !occurs_app in Hline.
    apply orb_false_iff in Hline as [_ Hline].
    by apply orb_false_iff in Hline as [Hline _]. }
  unfold tokenize. rewrite split_lines_one by done.
  change (String.rev "" +:+ v) with v. cbn [scan_lines].
  rewrite app_nil_r. destruct v as [|c' v']; [done|].
  cbn [String.length scan]. rewrite Hvalue.
  rewrite bool_decide_eq_false_2 by done.
  change (drop (S (String.length v')) (String c' v'))
    with (drop (String.length (String c' v')) (String c' v')).
  by rewrite drop_all, scan_nil.
Qed.

End Relex.

(** ** Lowering *)

Section Counts.

Import IRGenerator.

Ltac binds :=
  repeat match goal with
  | H : res_bind ?m _ = Ok _ |- _ => destruct m eqn:?; simplify_eq/=
  end.

Lemma expression_one node ir :
  _generate_expression node = Ok ir -> length ir = 1%nat.
Proof.
  destruct node as [|ty c| |]; try done.
  destruct ty; try done; cbn [_generate_expression node_eq]; cbn [bool_decide decide_rel];
    intros H.
  all: unfold _generate_identity, _generate_string_literal,
    _generate_number_literal, _generate_boolean, _generate_extern,
    _generate_function_call_, _generate_function_ in H.
  all: repeat (first [ progress simplify_eq/=
                     | case_match
                     | match goal with
                       | H : res_bind ?m _ = Ok _ |- _ => destruct m eqn:?
                       end ]); done.
Qed.

Lemma args_length items args :
  generate_args _generate_expression items = Ok args ->
  length args = length items.
Proof.
  revert args. induction items as [|item items IH]; intros args H.
  { by injection H as <-. }
  cbn [generate_args] in H. destruct item as [|ty c| |]; try done.
  binds. rewrite length_app. cbn [length].
  erewrite expression_one, IH by done. done.
Qed.

Lemma statement_count node ir :
  _generate_statement node = Ok ir -> (1 <= length ir <= 2)%nat.
Proof.
  destruct node as [|ty s| |]; try done.
  unfold _generate_statement, _generate_statement_.
  destruct (node_eq s NODE_ASSIGNMENT) eqn:Ha.
  { intros H. unfold _generate_assignment_ in H.
    repeat case_match; simplify_eq; binds;
      rewrite length_app; erewrite expression_one by done; simpl; lia. }
  destruct (node_eq s NODE_FUNCTION_CALL) eqn:Hc.
  { intros H. unfold _generate_function_call_ in H.
    repeat case_match; simplify_eq; binds; simpl; lia. }
  intros H. apply expression_one in H. lia.
Qed.

Lemma program_count ast ir :
  _generate_program ast = Ok ir ->
  (length ast <= length ir <= 2 * length ast)%nat.
Proof.
  revert ir. induction ast as [|s ast IH]; intros ir H.
  { injection H as <-. simpl. lia. }
  change (_generate_program (s :: ast))
    with (res_bind (_generate_statement s) (fun statement_ir =>
          res_bind (_generate_program ast) (fun ir =>
          Ok (statement_ir ++ ir)))) in H.
  destruct (_generate_statement s) as [ir_s|] eqn:Hs; [|done].
  destruct (_generate_program ast) as [ir_p|] eqn:Hp; [|done].
  cbn [res_bind] in H. injection H as <-. rewrite length_app. cbn [length].
  apply statement_count in Hs. specialize (IH _ eq_refl). lia.
Qed.

(** X10.  The size of what lowering returns.  An expression lowers to
    exactly one instruction, the arguments of a call to one instruction
    each, a statement to one or two instructions (two for an assignment:
    the value, then [IR_SET_NAME]), and a program of [n] statements to
    between [n] and [2 * n] instructions. *)
Theorem X10_lowering_counts :
  (forall node ir, _generate_expression node = Ok ir -> length ir = 1%nat)
  /\ (forall items args,
        generate_args _generate_expression items = Ok args ->
        length args = length items)
  /\ (forall node ir,
        _generate_statement node = Ok ir -> (1 <= length ir <= 2)%nat)
  /\ (forall ast instrs,
        ir ast = Ok instrs ->
        (length ast <= length instrs <= 2 * length ast)%nat).
Proof.
  split; [apply expression_one|]. split; [apply args_length|].
  split; [apply statement_count|apply program_count].
Qed.

End Counts.

Section References.

Import IRGenerator Generator.

(** X11.  A bare name lowers to [(IR_PUSH_REFERENCE, name)], the name
    itself in the place of the tuple of arguments, and [compile] spreads
    it into its characters.  So [compile] of that instruction raises
    [TypeError], and leaves the generator as it was, exactly when the
    name is not one character long; for a name of one character it is
    [push_reference] of the name. *)
Theorem X11_reference_of_long_name (t : Token) (g : GeneratorX86_64Linux) :
  _generate_expression
    (Node NODE_IDENTITY (OList [OList [OTok t; OList []]]))
  = Ok [IR_PUSH_REFERENCE (value t)]
  /\ ((compile [IR_PUSH_REFERENCE (value t)] g).1 = Raise TypeError
      <-> String.length (value t) ≠ 1%nat)
  /\ (String.length (value t) ≠ 1%nat ->
      compile [IR_PUSH_REFERENCE (value t)] g = (Raise TypeError, g))
  /\ (String.length (value t) = 1%nat ->
      compile [IR_PUSH_REFERENCE (value t)] g
      = bind (push_reference (value t)) (fun _ => ret tt) g).
Proof.
  split; [done|].
  change (compile [IR_PUSH_REFERENCE (value t)])
    with (bind (compile_instr (IR_PUSH_REFERENCE (value t))) (fun _ => ret tt)).
  cbn [compile_instr].
  destruct (value t) as [|c [|c' x]]; cbn [String.length].
  - split; [done|]. split; [done|]. intros [=].
  - split; [|split; [done|done]].
    split; [|done]. intros H. exfalso. revert H.
    unfold bind at 1. unfold push_reference, bind, position_of.
    destruct (get_position _ _) as [p|e] eqn:Hp; cbn.
    + case_bool_decide; [|done].
      unfold append, append_to, set_functions, with_context, raise.
      repeat case_match; simplify_eq/=; try done.
      all: repeat match goal with
           | H : (let (_, _) := ?x in _) = _ |- _ => destruct x eqn:?
           end; simplify_eq/=; done.
    + unfold get_position in Hp. repeat case_match; by simplify_eq.
  - split; [done|]. split; [done|]. intros [=].
Qed.

End References.

(** ** Runs of the generator *)

Section Moves.

Import Generator Run.
Local Open Scope gen_scope.

Lemma steps_refl g : steps g g.
Proof.
  constructor; try done.
  - exists 0%nat. lia.
  - exists []. rewrite app_nil_r. split; [done|]. split; [constructor|].
    by intros x Hx%elem_of_nil.
  - intros x p Hx. by left.
Qed.

Lemma steps_trans g1 g2 g3 : steps g1 g2 -> steps g2 g3 -> steps g1 g3.
Proof.
  intros [Hg Hn Hp [k Hk] Hl (a & Ha & Hnd & Hfresh) Hv Hf Hd]
         [Hg' Hn' Hp' [k' Hk'] Hl' (a' & Ha' & Hnd' & Hfresh') Hv' Hf' Hd'].
  constructor; try congruence.
  - exists (k + k')%nat. lia.
  - intros prefix. specialize (Hl prefix). specialize (Hl' prefix). lia.
  - exists (a ++ a'). split; [by rewrite Ha', Ha, app_assoc|].
    split.
    { apply NoDup_app. split; [done|]. split; [|done].
      intros x Hx Hx'. apply (Hfresh' x Hx'). rewrite Ha.
      apply elem_of_app. by right. }
    intros x [Hx|Hx]%elem_of_app; [by apply Hfresh|].
    intros Hin. apply (Hfresh' x Hx). rewrite Ha. apply elem_of_app. by left.
  - intros x p Hx. destruct (Hv' _ _ Hx) as [Hold|Hrange].
    + destruct (Hv _ _ Hold) as [?|?]; [by left|right; lia].
    + right. lia.
  - intros key Hkey. by apply Hf', Hf.
  - intros key Hkey. by apply Hd', Hd.
Qed.

Lemma moves_ret {A} (a : A) : moves (ret a).
Proof. intros g. apply steps_refl. Qed.

Lemma moves_raise {A} e : moves (raise (A := A) e).
Proof. intros g. apply steps_refl. Qed.

Lemma moves_bind {A B} (m : G A) (k : A -> G B) :
  moves m -> (forall a, moves (k a)) -> moves (bind m k).
Proof.
  intros Hm Hk g. unfold bind. specialize (Hm g).
  destruct (m g) as [[a|e] g1]; [|done].
  eapply steps_trans; [exact Hm|apply Hk].
Qed.

Lemma moves_when b (m : G unit) : moves m -> moves (when b m).
Proof. destruct b; [done|]. intros _. apply moves_ret. Qed.

Ltac same :=
  constructor; cbn;
  [ try done | try done | try done
  | try (exists 0%nat; lia)
  | try (intros ?; unfold Spec.counter; cbn; lia)
  | try (exists []; rewrite app_nil_r; split; [done|]; split; [constructor|];
         by intros ? ?%elem_of_nil)
  | try (intros ? ? ?; by left)
  | try done | try done ].

Lemma moves_move : moves (with_context move_stack_pointer).
Proof.
  intros g. same. exists 1%nat. lia.
Qed.

Lemma moves_set_name x : moves (set_name x).
Proof.
  intros g. same. intros y p.
  destruct (decide (y = x)) as [->|Hne].
  - rewrite lookup_insert_eq. intros [= <-]. right. lia.
  - rewrite lookup_insert_ne by done. by left.
Qed.

Lemma moves_append_to key line : moves (append_to key line).
Proof.
  intros g. unfold append_to.
  destruct (dict_get key (_functions g)); [|apply steps_refl].
  same. intros k Hk. by apply dict_get_set_is_Some.
Qed.

Lemma moves_append line : moves (append line).
Proof.
  intros g. unfold append. destruct (name (_context g)); [|apply steps_refl].
  apply moves_append_to.
Qed.

Lemma moves_set_label label stream :
  moves (fun self =>
           set_functions (dict_set label stream (_functions self)) self).
Proof. intros g. same. intros k Hk. by apply dict_get_set_is_Some. Qed.

Lemma moves_next_label prefix : moves (_next_label prefix).
Proof.
  intros g. same. intros q.
  change (Spec.counter g q
          <= Spec.counter (_next_label prefix g).2 q)%N.
  rewrite _next_label_counter. case_decide; subst; lia.
Qed.

Lemma moves_set_data label line : moves (set_data label line).
Proof. intros g. same. intros k Hk. by apply dict_get_set_is_Some. Qed.

Lemma moves_position_of x : moves (position_of x).
Proof. intros g. apply steps_refl. Qed.

Create HintDb moves.
Hint Resolve moves_ret moves_raise moves_move moves_set_name
  moves_append_to moves_append moves_set_label moves_next_label
  moves_set_data moves_position_of : moves.

Ltac walk :=
  repeat first
    [ apply moves_bind; [|intros ?]
    | apply moves_when
    | case_bool_decide
    | solve [auto with moves] ].

Lemma moves_make_number v : moves (make_number v).
Proof. unfold make_number. walk. Qed.

Lemma moves_push_reference x : moves (push_reference x).
Proof. unfold push_reference. walk. Qed.

Lemma moves_extern x n : moves (extern x n).
Proof.
  intros g. unfold extern.
  case_bool_decide; [apply steps_refl|].
  case_bool_decide as Hx; [apply steps_refl|].
  unfold bind at 1. unfold _next_label at 1. cbv beta iota.
  unfold bind at 1. cbv beta iota.
  cbn [_global _extern _functions _data _labels _context].
  match goal with
  | |- steps g (?m ?g2).2 =>
      apply (steps_trans g g2); [|generalize g2; change (moves m)]
  end.
  - same.
    + intros q.
      change (Spec.counter g q
              <= Spec.counter (_next_label "f" g).2 q)%N.
      rewrite _next_label_counter. case_decide; subst; lia.
    + exists [x]. split; [done|]. split; [apply NoDup_singleton|].
      by intros y ->%list_elem_of_singleton.
  - walk.
Qed.

Lemma moves_call_function_ (run : list instr -> G unit) f args :
  moves (run args) -> moves (call_function_ run f args).
Proof. intros Hrun. unfold call_function_. walk. Qed.

Lemma moves_make_string_ (run : list instr -> G unit) v :
  moves (run [IR_NOP]) -> moves (make_string_ run v).
Proof.
  intros Hrun. unfold make_string_. walk;
    first [apply moves_extern | apply moves_make_number
          | by apply moves_call_function_].
Qed.

Lemma instr_induction (P : instr -> Prop) :
  (forall i,
     match i with
     | IR_MAKE_FUNCTION _ ir | IR_CALL_FUNCTION _ ir => Forall P ir
     | _ => True
     end -> P i) ->
  forall i, P i.
Proof.
  intros step. fix IH 1. intros i. apply step.
  destruct i as [| | | | |args block|f args| |]; try exact I.
  - induction block as [|i block IHb]; constructor; [apply IH|exact IHb].
  - induction args as [|i args IHa]; constructor; [apply IH|exact IHa].
Qed.

Lemma moves_compile_ (run : instr -> G unit) ir :
  Forall (fun i => moves (run i)) ir -> moves (compile_ run ir).
Proof.
  induction 1 as [|i ir Hi _ IH]; [apply moves_ret|].
  cbn [compile_]. apply moves_bind; [done|]. intros _. exact IH.
Qed.

Lemma moves_compile_instr i : moves (compile_instr i).
Proof.
  induction i as [i IH] using instr_induction.
  destruct i as [x|x|v|v|b|args block|f args|x n|]; cbn [compile_instr].
  - apply moves_set_name.
  - destruct x as [|c [|c' x]]; first [apply moves_raise|apply moves_push_reference].
  - apply moves_make_string_. apply moves_ret.
  - apply moves_make_number.
  - apply moves_raise.
  - apply moves_raise.
  - apply moves_call_function_. by apply moves_compile_.
  - apply moves_extern.
  - apply moves_ret.
Qed.

Lemma moves_compile ir : moves (compile ir).
Proof.
  apply moves_compile_. apply Forall_forall. intros i _.
  apply moves_compile_instr.
Qed.

End Moves.

Section Sound.

Import Generator Run.
Local Open Scope gen_scope.

Lemma grows_refl g : grows g g.
Proof.
  split; [done|]. intros k s Hs. exists []. by rewrite app_nil_r.
Qed.

Lemma grows_same g g' :
  name (_context g') = name (_context g) -> _functions g' = _functions g ->
  grows g g'.
Proof.
  intros Hn Hf. split; [done|]. intros k s Hs. exists [].
  by rewrite Hf, app_nil_r.
Qed.

Lemma grows_trans g1 g2 g3 : grows g1 g2 -> grows g2 g3 -> grows g1 g3.
Proof.
  intros [Hn H12] [Hn' H23]. split; [congruence|].
  intros k s Hs. destruct (H12 _ _ Hs) as (s1 & Hs1 & Hk1).
  destruct (H23 _ _ Hs1) as (s2 & Hs2 & Hk2).
  exists (s1 ++ s2). rewrite app_assoc. split; [done|].
  intros Hne. rewrite Hk1 by done. rewrite Hk2 by (by rewrite Hn). done.
Qed.

Lemma sound_ret {A} (Q : A -> Prop) a : Q a -> sound Q (ret a).
Proof. intros HQ g Hg. split; [done|]. split; [apply grows_refl|done]. Qed.

Lemma sound_raise {A} (Q : A -> Prop) e : expected e -> sound Q (raise e).
Proof. intros He g Hg. split; [done|]. split; [apply grows_refl|done]. Qed.

Lemma sound_bind {A B} (Q : A -> Prop) (R : B -> Prop) (m : G A) (k : A -> G B) :
  sound Q m -> (forall a, Q a -> sound R (k a)) -> sound R (bind m k).
Proof.
  intros Hm Hk g Hg. unfold bind. destruct (Hm g Hg) as (Hr & Hgr & Hres).
  destruct (m g) as [[a|e] g1]; [|done]. cbn [fst snd] in *.
  destruct (Hk a Hres g1 Hr) as (Hr' & Hgr' & Hres').
  split; [done|]. split; [by eapply grows_trans|done].
Qed.

Lemma sound_move : sound (fun _ => True) (with_context move_stack_pointer).
Proof.
  intros g (Hkey & Hpos & Hvars & Hfresh).
  split; [|split; [by apply grows_same|done]].
  split; [done|]. split; [cbn; lia|]. done.
Qed.

Lemma sound_set_name x : sound (fun _ => True) (set_name x).
Proof.
  intros g (Hkey & Hpos & Hvars & Hfresh).
  split; [|split; [by apply grows_same|done]].
  split; [done|]. split; [done|]. split; [|done].
  intros y p. cbn. destruct (decide (y = x)) as [->|Hne].
  - rewrite lookup_insert_eq. intros [= <-]. done.
  - rewrite lookup_insert_ne by done. apply Hvars.
Qed.

Lemma dict_get_set_None {V} k k' (v v' : V) d :
  dict_get k' d = Some v' -> dict_get k d = None ->
  dict_get k (dict_set k' v d) = None.
Proof.
  intros Hk' Hk. rewrite dict_get_set_ne; [done|]. congruence.
Qed.

Lemma sound_append line : sound (fun _ => True) (append line).
Proof.
  intros g ((key & Hkey & [stream Hstream]) & Hpos & Hvars & Hfresh).
  unfold append, append_to. rewrite Hkey, Hstream.
  unfold set_functions. cbn [fst snd].
  split; [|split; [|done]]; unfold ready, grows;
    cbn [_global _extern _functions _data _labels _context].
  - split.
    { exists key. split; [done|]. rewrite dict_get_set_eq. by eexists. }
    split; [done|]. split; [done|].
    intros n Hn. eapply dict_get_set_None; [done|]. by apply Hfresh.
  - split; [done|]. intros k s Hs. cbn.
    destruct (decide (k = key)) as [->|Hne].
    + exists [line]. rewrite dict_get_set_eq. split; [congruence|].
      intros Hk. by rewrite Hkey in Hk.
    + exists []. rewrite dict_get_set_ne by done. by rewrite app_nil_r.
Qed.

Lemma sound_next_label prefix : sound (fun _ => True) (_next_label prefix).
Proof.
  intros g (Hkey & Hpos & Hvars & Hfresh).
  split; [|split; [by apply grows_same|done]].
  split; [done|]. split; [done|]. split; [done|].
  intros n Hn. apply Hfresh.
  change (Spec.counter (_next_label prefix g).2 "f" <= n)%N in Hn.
  rewrite _next_label_counter in Hn. case_decide; subst; lia.
Qed.

Lemma sound_set_data label line : sound (fun _ => True) (set_data label line).
Proof. intros g Hg. split; [done|]. split; [by apply grows_same|done]. Qed.

Lemma sound_position_of x : sound (fun p => p <= 0) (position_of x).
Proof.
  intros g Hg. split; [done|]. split; [apply grows_refl|].
  unfold position_of, get_position. cbn [fst].
  destruct (_variables (_context g) !! x) as [p|] eqn:Hp.
  - case_bool_decide; [right; right; right; right; by eexists|].
    by apply Hg in Hp.
  - right; right; right; right; by eexists.
Qed.

Lemma sound_extern x n : sound (fun _ => True) (extern x n).
Proof.
  intros g Hg. destruct (decide (n > 4)) as [Hn|Hn].
  { rewrite extern_over_budget by done.
    split; [done|]. split; [apply grows_refl|by left]. }
  destruct (decide (x ∈ _extern g)) as [Hx|Hx].
  { rewrite extern_declared by (done || lia).
    split; [done|]. split; [apply grows_refl|done]. }
  destruct Hg as ((key & Hkey & [stream Hstream]) & Hpos & Hvars & Hfresh).
  rewrite (extern_fresh g x n key stream) by (done || lia).
  cbn [fst snd].
  assert (dict_get (Spec.next_label_of "f" g) (_functions g) = None) as Hnew.
  { apply Hfresh. lia. }
  assert (Spec.next_label_of "f" g ≠ key) as Hne by congruence.
  generalize (Spec.thunk x n). intros body.
  split; [|split; [|done]]; unfold ready, grows;
    cbn [_global _extern _functions _data _labels _context].
  - split.
    { exists key. split; [done|].
      rewrite dict_get_set_ne, dict_get_set_eq by done. by eexists. }
    split; [cbn; lia|]. split; [done|].
    intros m Hm.
    assert (Spec.counter g "f" + 1 <= m)%N as Hm'.
    { unfold Spec.counter in *. cbn [_labels] in Hm.
      by rewrite lookup_insert_eq in Hm. }
    rewrite dict_get_set_ne.
    + eapply dict_get_set_None; [done|]. apply Hfresh. lia.
    + intros Heq. apply label_inj in Heq as [_ Heq]. lia.
  - split; [done|]. intros k s Hs.
    assert (k ≠ Spec.next_label_of "f" g) as Hk by congruence.
    rewrite dict_get_set_ne by done.
    destruct (decide (k = key)) as [->|Hkk].
    + assert (s = stream) as -> by congruence.
      eexists. rewrite dict_get_set_eq. split; [reflexivity|].
      intros Hkey'. by rewrite Hkey in Hkey'.
    + exists []. rewrite dict_get_set_ne by done. by rewrite app_nil_r.
Qed.

Lemma sound_make_number v : sound (fun _ => True) (make_number v).
Proof.
  unfold make_number.
  eapply sound_bind; [apply sound_append|]. intros _ _. apply sound_move.
Qed.

Ltac stride :=
  repeat first
    [ apply sound_move | apply sound_append | apply sound_set_data
    | apply sound_set_name | apply sound_extern | apply sound_make_number
    | by apply sound_ret
    | eapply (sound_bind (fun _ => True));
        [first [apply sound_append | apply sound_next_label
               | apply sound_set_data | apply sound_set_name
               | apply sound_extern | apply sound_make_number]
        | intros ? _] ].

Lemma sound_push_reference x : sound (fun _ => True) (push_reference x).
Proof.
  unfold push_reference.
  eapply sound_bind; [apply sound_position_of|]. intros p Hp.
  rewrite bool_decide_eq_true_2 by done. stride.
Qed.

Lemma sound_call_function_ (run : list instr -> G unit) f args :
  sound (fun _ => True) (run args) ->
  sound (fun _ => True) (call_function_ run f args).
Proof.
  intros Hrun. unfold call_function_.
  eapply sound_bind; [exact Hrun|]. intros _ _.
  eapply sound_bind; [apply sound_position_of|]. intros p Hp.
  rewrite bool_decide_eq_true_2 by done. stride.
Qed.

Lemma sound_make_string_ (run : list instr -> G unit) v :
  sound (fun _ => True) (run [IR_NOP]) ->
  sound (fun _ => True) (make_string_ run v).
Proof.
  intros Hrun. unfold make_string_. stride.
  eapply sound_bind; [by apply sound_call_function_|]. intros _ _.
  stride.
Qed.

Lemma sound_compile_ (run : instr -> G unit) ir :
  Forall (fun i => sound (fun _ => True) (run i)) ir ->
  sound (fun _ => True) (compile_ run ir).
Proof.
  induction 1 as [|i ir Hi _ IH]; [by apply sound_ret|].
  cbn [compile_]. eapply sound_bind; [exact Hi|]. intros _ _. exact IH.
Qed.

Lemma sound_compile_instr i : sound (fun _ => True) (compile_instr i).
Proof.
  induction i as [i IH] using instr_induction.
  destruct i as [x|x|v|v|b|args block|f args|x n|]; cbn [compile_instr].
  - apply sound_set_name.
  - destruct x as [|c [|c' x]];
      first [apply sound_push_reference
            |apply sound_raise; right; by left].
  - apply sound_make_string_. by apply sound_ret.
  - apply sound_make_number.
  - apply sound_raise. right. right. by left.
  - apply sound_raise. right. right. right. by left.
  - apply sound_call_function_. by apply sound_compile_.
  - apply sound_extern.
  - by apply sound_ret.
Qed.

Lemma sound_compile ir : sound (fun _ => True) (compile ir).
Proof.
  apply sound_compile_. apply Forall_forall. intros i _.
  apply sound_compile_instr.
Qed.

Lemma ready_init : ready init.
Proof.
  split; [exists "main"; split; [done|by eexists]|].
  split; [done|]. split; [by intros x p Hx|].
  intros n _. cbn.
  rewrite app_cons_s.
  rewrite bool_decide_eq_false_2 by discriminate.
  by rewrite bool_decide_eq_false_2 by discriminate.
Qed.

End Sound.

Section CompileRuns.

Import Generator.

(** X14.  [compile] of any instructions on any generator, returning or
    raising, leaves the name of the global function, the name of the
    current function and the parent scope as they were. *)
Theorem X14_compile_keeps_scope ir g :
  let g' := (compile ir g).2 in
  _global g' = _global g
  /\ name (_context g') = name (_context g)
  /\ _parent (_context g') = _parent (_context g).
Proof. intros g'. by destruct (moves_compile ir g). Qed.

(** X15.  [compile], returning or raising, moves the stack position
    down by a multiple of 8, never up; a name bound afterwards is bound
    as before or at an offset between the new and the old position. *)
Theorem X15_compile_moves_offset_down ir g :
  let g' := (compile ir g).2 in
  (exists k : nat,
     _position (_context g') = _position (_context g) - 8 * Z.of_nat k)
  /\ (forall x p,
        _variables (_context g') !! x = Some p ->
        _variables (_context g) !! x = Some p
        \/ _position (_context g') <= p <= _position (_context g)).
Proof. intros g'. by destruct (moves_compile ir g). Qed.

(** X16.  [compile], returning or raising, only appends to the list of
    extern declarations, and what it appends are names that were not
    declared, each once.  A list without a repeated name stays so. *)
Theorem X16_compile_declares_once ir g :
  let g' := (compile ir g).2 in
  (exists added,
     _extern g' = _extern g ++ added
     /\ NoDup added
     /\ forall x, x ∈ added -> x ∉ _extern g)
  /\ (NoDup (_extern g) -> NoDup (_extern g')).
Proof.
  intros g'. destruct (moves_compile ir g) as [_ _ _ _ _ Hext _ _ _].
  split; [exact Hext|]. destruct Hext as (added & Heq & Hnd & Hfresh).
  intros Hg. fold g' in Heq. rewrite Heq. apply NoDup_app.
  split; [done|]. split; [|done]. intros x Hx Hx'. by apply (Hfresh x).
Qed.

(** X17.  [compile], returning or raising, never lowers a label
    counter and never removes a function or a data entry. *)
Theorem X17_compile_never_drops ir g :
  let g' := (compile ir g).2 in
  (forall prefix, (Spec.counter g prefix <= Spec.counter g' prefix)%N)
  /\ (forall k, is_Some (dict_get k (_functions g)) ->
                is_Some (dict_get k (_functions g')))
  /\ (forall k, is_Some (dict_get k (_data g)) ->
                is_Some (dict_get k (_data g'))).
Proof. intros g'. by destruct (moves_compile ir g). Qed.

Lemma ready_reached ir : Run.ready (compile ir init).2.
Proof. by destruct (sound_compile ir init ready_init). Qed.

Lemma compile_expected ir1 ir2 :
  match (compile ir2 (compile ir1 init).2).1 with
  | Ok _ => True
  | Raise e => Run.expected e
  end.
Proof.
  destruct (sound_compile ir2 _ (ready_reached ir1)) as (_ & _ & H).
  by destruct (compile ir2 _).1.
Qed.


(** X19.  In a generator that started fresh and has compiled any
    instructions, a further [compile], returning or raising, only appends
    to the stream of a function, and to no stream but that of [main]:
    the [exit] function and the thunks of the externs stay as they were
    written. *)
Theorem X19_compile_only_appends ir1 ir2 :
  let g := (compile ir1 init).2 in
  let g' := (compile ir2 g).2 in
  forall k s,
    dict_get k (_functions g) = Some s ->
    exists s',
      dict_get k (_functions g') = Some (s ++ s')
      /\ (k ≠ "main" -> s' = []).
Proof.
  intros g g' k s Hs.
  destruct (sound_compile ir2 _ (ready_reached ir1)) as (_ & [_ Hgr] & _).
  destruct (Hgr k s Hs) as (s' & Hs' & Hk). exists s'. split; [done|].
  intros Hne. apply Hk.
  destruct (moves_compile ir1 init) as [_ Hname _ _ _ _ _ _ _].
  unfold g. rewrite Hname. cbn. congruence.
Qed.

Lemma X19_compile_only_appends_witness :
  dict_get "exit" (_functions (compile [IR_MAKE_NUMBER 1] init).2)
  = Some [("", "mov", "rax, 60"); ("", "mov", "rdi, [rsp+8]");
          ("", "syscall", "")]
  /\ exists s',
       dict_get "exit"
         (_functions
            (compile [IR_EXTERN "puts" 1]
               (compile [IR_MAKE_NUMBER 1] init).2).2)
       = Some ([("", "mov", "rax, 60"); ("", "mov", "rdi, [rsp+8]");
                ("", "syscall", "")] ++ s')
       /\ ("exit" ≠ "main" -> s' = []).
Proof.
  split; [reflexivity|].
  apply (X19_compile_only_appends [IR_MAKE_NUMBER 1] [IR_EXTERN "puts" 1]
           "exit").
  reflexivity.
Defined.

(** X20.  [compile] of a list of instructions in one call is
    [compile] of its first part followed, on the generator that leaves,
    by [compile] of the rest; the error of the first part, if any, is the
    error of the whole, and the rest is not run. *)
Theorem X20_compile_concat l1 l2 g :
  compile (l1 ++ l2) g
  = match compile l1 g with
    | (Ok _, g1) => compile l2 g1
    | (Raise e, g1) => (Raise e, g1)
    end.
Proof.
  rewrite compile_app. unfold bind. by destruct (compile l1 g) as [[[]|e] g1].
Qed.

End CompileRuns.

Section Streams.
Import Generator.
Local Open Scope gen_scope.

(** [append] on a generator whose current function is [key]. *)
Lemma append_at key line gl ex fs stream da lb nm vars par pos :
  nm = Some key -> dict_get key fs = Some stream ->
  append line (mkGenerator gl ex fs da lb (mkContext nm vars par pos))
  = (Ok tt, mkGenerator gl ex (dict_set key (stream ++ [line]) fs) da lb
              (mkContext nm vars par pos)).
Proof.
  intros -> Hstream. unfold append, append_to. cbn [_context name _functions].
  by rewrite Hstream.
Qed.

Lemma append_at_set key line gl ex fs stream da lb nm vars par pos :
  nm = Some key ->
  append line
    (mkGenerator gl ex (dict_set key stream fs) da lb (mkContext nm vars par pos))
  = (Ok tt, mkGenerator gl ex (dict_set key (stream ++ [line]) fs) da lb
              (mkContext nm vars par pos)).
Proof.
  intros Hnm. erewrite append_at; [|done|apply dict_get_set_eq].
  by rewrite dict_set_set.
Qed.



End Streams.

Section Strings.

Import Generator.
Local Open Scope gen_scope.

(** One more call of the chain, on the generator as the calls before it
    left it. *)
Ltac next :=
  unfold bind at 1;
  cbn [_global _extern _functions _data _labels _context
       name _variables _parent _position].


(** X22.  [make_string] in a generator that has declared [malloc]
    already and holds something on its stack (position below 0).  The
    call of [extern] returns early and pushes nothing, yet [set_name]
    binds [malloc] to the current position: the name now stands for what
    was on top of the stack, and the emitted [call] goes through that
    slot.  The sixteen lines appended, the data entry and the new
    position (two slots down) are as stated. *)
Theorem X22_make_string_rebinds_malloc g key stream v :
  "malloc" ∈ _extern g ->
  name (_context g) = Some key ->
  dict_get key (_functions g) = Some stream ->
  _position (_context g) < 0 ->
  let p := _position (_context g) in
  let n := Z.of_nat (String.length v) + 1 in
  let s := Spec.next_label_of "s" g in
  let l := Spec.next_label_of "l" g in
  let e := Spec.next_label_of "e" g in
  exists g',
    make_string v g = (Ok tt, g')
    /\ _variables (_context g') !! "malloc" = Some p
    /\ _position (_context g') = p - 16
    /\ _extern g' = _extern g
    /\ dict_get s (_data g') = Some ("", "db", quoted v +:+ ", 0")
    /\ dict_get key (_functions g')
       = Some (stream
               ++ [("", "push", pretty n);
                   ("", "call", "[rbp-" +:+ pretty (- p) +:+ "]");
                   ("", "add", "rsp, 8");
                   ("", "push", "rax");
                   ("", "mov", "rdi, " +:+ s);
                   ("", "mov", "rcx, " +:+ pretty n);
                   ("", "xor", "rbx, rbx");
                   (l +:+ ":", "mov", "bl, byte [rdi]");
                   ("", "mov", "byte [rax], bl");
                   ("", "inc", "rax");
                   ("", "inc", "rdi");
                   ("", "dec", "rcx");
                   ("", "cmp", "rcx, byte 0");
                   ("", "je", e);
                   ("", "jmp", l);
                   (e +:+ ":", "", "")]).
Proof.
  intros Hdeclared Hnm Hstream Hneg p n s l e.
  unfold make_string, make_string_. fold n.
  unfold bind at 1. rewrite extern_declared by (done || lia).
  unfold s, l, e, p, Spec.next_label_of, Spec.counter. clear s l e p.
  destruct g as [gl ex fs da lb [nm vars par pos]].
  cbn [_context name _functions _position _extern _labels _data _variables]
    in *.
  unfold set_name, make_number, call_function_, with_context,
    move_stack_pointer, add_variable, position_of, get_position, set_data,
    _next_label, ret.

  next. next. next. erewrite (append_at key); [|done|exact Hstream].
  next. next.
  change (compile [IR_NOP]) with (fun self : GeneratorX86_64Linux => (Ok tt, self)).
  cbv beta iota. next.
  cbn [_global _extern _functions _data _labels _context
         name _variables _parent _position].
  rewrite lookup_insert_eq.
  rewrite bool_decide_eq_false_2 by lia.
  rewrite bool_decide_eq_true_2 by lia.
  do 2 (next; rewrite (append_at_set key) by done).
  rewrite (append_at_set key) by done.
  next. next. next. rewrite !lookup_insert_ne by done.
  next.
  do 12 (next; rewrite (append_at_set key) by done).
  cbn [_global _extern _functions _data _labels _context
       name _variables _parent _position].
  eexists. split; [reflexivity|].
  cbn [_global _extern _functions _data _labels _context
       name _variables _parent _position].
  split; [apply lookup_insert_eq|]. split; [lia|]. split; [done|].
  split; [apply dict_get_set_eq|].
  rewrite dict_get_set_eq. rewrite <- !app_assoc. cbn [app length].
  reflexivity.
Qed.

Lemma X22_make_string_rebinds_malloc_witness :
  let g := (compile [IR_MAKE_STRING "a"] init).2 in
  "malloc" ∈ _extern g
  /\ name (_context g) = Some "main"
  /\ _position (_context g) = -24
  /\ exists g',
       make_string "b" g = (Ok tt, g')
       /\ _variables (_context g') !! "malloc" = Some (-24)
       /\ _position (_context g') = -40
       /\ _extern g' = ["malloc"].
Proof.
  intros g.
  assert (exists stream, dict_get "main" (_functions g) = Some stream)
    as [stream Hstream] by (eexists; vm_compute; reflexivity).
  assert ("malloc" ∈ _extern g) as Hdeclared by (vm_compute; left).
  assert (name (_context g) = Some "main") as Hname
    by (vm_compute; reflexivity).
  assert (_position (_context g) = -24) as Hposition
    by (vm_compute; reflexivity).
  assert (_position (_context g) < 0) as Hbelow by (rewrite Hposition; lia).
  split; [exact Hdeclared|]. split; [exact Hname|]. split; [exact Hposition|].
  pose proof (X22_make_string_rebinds_malloc g "main" stream "b" Hdeclared
                Hname Hstream Hbelow) as H.
  cbv zeta in H. destruct H as (g' & Hrun & Hbound & Hpos & Hext & _).
  exists g'. rewrite Hposition in *. split; [exact Hrun|].
  split; [exact Hbound|]. split; [exact Hpos|]. rewrite Hext. reflexivity.
Defined.

End Strings.

Section Asm.

Import Generator Generator.
Local Open Scope gen_scope.

Lemma join_app_length {A} (f : A -> string) (xs ys : list A) :
  String.length (join f (xs ++ ys))
  = (String.length (join f xs) + String.length (join f ys))%nat.
Proof.
  induction xs as [|x xs IH]; [done|].
  cbn [app join]. rewrite !length_app_s, IH. lia.
Qed.

Lemma join_set_length (F : list asm_line -> string) k s extra
    (fs : dict (list asm_line)) :
  String.length
    (join (fun '(name, function) =>
             _format_line (name +:+ ":", "", "") +:+ join _format_line function)
       (dict_set k (s ++ extra) fs))
  = (String.length
       (join (fun '(name, function) =>
                _format_line (name +:+ ":", "", "")
                +:+ join _format_line function)
          (dict_set k s fs))
     + String.length (join _format_line extra))%nat.
Proof.
  induction fs as [|[k' v'] fs IH]; cbn [dict_set].
  - cbn [join]. rewrite !length_app_s, join_app_length. simpl. lia.
  - case_bool_decide; cbn [join]; rewrite !length_app_s.
    + rewrite join_app_length. lia.
    + rewrite IH. lia.
Qed.

Lemma asm_at gl ex fs da lb cx stream :
  dict_get gl fs = Some stream ->
  asm (mkGenerator gl ex fs da lb cx)
  = (Ok (text_of
           (mkGenerator gl ex
              (dict_set gl
                 (stream ++ [("", "push", "0"); ("", "call", "exit")]) fs)
              da lb cx)),
     mkGenerator gl ex
       (dict_set gl (stream ++ [("", "push", "0"); ("", "call", "exit")]) fs)
       da lb cx).
Proof.
  intros Hstream. unfold asm. unfold bind at 1. cbn [_global].
  unfold append_to at 1. cbn [_functions]. rewrite Hstream.
  unfold set_functions. cbn [_global _extern _functions _data _labels _context].
  unfold bind at 1. cbn [_global]. rewrite append_to_set.
  by rewrite <- app_assoc.
Qed.

(** X23.  Reading the property [asm] changes the generator: each read
    appends [push 0] and [call exit] to the stream of the global
    function.  A second read returns a text with the exit sequence twice,
    66 characters (two lines of 33) longer than the first. *)
Theorem X23_asm_appends_exit g stream :
  dict_get (_global g) (_functions g) = Some stream ->
  let exit_sequence := [("", "push", "0"); ("", "call", "exit")] in
  exists text g1 text' g2,
    asm g = (Ok text, g1)
    /\ dict_get (_global g) (_functions g1) = Some (stream ++ exit_sequence)
    /\ asm g1 = (Ok text', g2)
    /\ dict_get (_global g) (_functions g2)
       = Some (stream ++ exit_sequence ++ exit_sequence)
    /\ String.length text' = (String.length text + 66)%nat.
Proof.
  intros Hstream exit_sequence. unfold exit_sequence. clear exit_sequence.
  destruct g as [gl ex fs da lb cx]. cbn [_global _functions] in *.
  eexists _, _, _, _. split; [by apply asm_at|].
  cbn [_global _functions].
  split; [by rewrite dict_get_set_eq|].
  split; [apply asm_at, dict_get_set_eq|].
  cbn [_global _functions].
  rewrite dict_set_set. split; [by rewrite dict_get_set_eq, <- app_assoc|].
  unfold text_of. cbn [_global _extern _functions _data].
  rewrite !length_app_s.
  rewrite (join_set_length (join _format_line)). simpl. lia.
Qed.

Lemma X23_asm_appends_exit_witness :
  dict_get (_global init) (_functions init) = Some [("", "mov", "rbp, rsp")]
  /\ exists text g1 text' g2,
       asm init = (Ok text, g1)
       /\ dict_get "main" (_functions g1)
          = Some [("", "mov", "rbp, rsp"); ("", "push", "0");
                  ("", "call", "exit")]
       /\ asm g1 = (Ok text', g2)
       /\ dict_get "main" (_functions g2)
          = Some [("", "mov", "rbp, rsp"); ("", "push", "0");
                  ("", "call", "exit"); ("", "push", "0");
                  ("", "call", "exit")]
       /\ String.length text' = (String.length text + 66)%nat.
Proof.
  split; [reflexivity|].
  apply (X23_asm_appends_exit init [("", "mov", "rbp, rsp")]). reflexivity.
Defined.

Lemma asm_returns g :
  is_Some (dict_get (_global g) (_functions g)) ->
  exists text g', asm g = (Ok text, g').
Proof.
  intros [stream Hstream]. destruct g as [gl ex fs da lb cx].
  eexists _, _. by apply asm_at.
Qed.

End Asm.

(** ** From the lexer to the generator *)

Section TreeLowering.

Import IRGenerator Spec Tree.

Lemma lowers_bind (m : res (list instr)) (k : list instr -> res (list instr)) :
  lowers m -> (forall ir, lowers (k ir)) -> lowers (res_bind m k).
Proof. destruct m; [intros _ Hk; apply Hk|by intros]. Qed.

Lemma args_lower (n : nat) :
  (forall e, (size e < n)%nat -> wf e = true ->
             lowers (_generate_expression e)) ->
  forall args,
    (list_sum (map size args) < n)%nat -> args_ok wf args = true ->
    lowers (generate_args _generate_expression args).
Proof.
  intros IH. unfold list_sum.
  induction args as [|arg args IHargs]; intros Hsize Hok; [done|].
  destruct arg as [|[] a| |]; try done.
  cbn in Hsize. apply andb_true_iff in Hok as [Ha Hargs].
  cbn [generate_args]. apply lowers_bind; [apply IH; [lia|done]|].
  intros ir. apply lowers_bind; [apply IHargs; [lia|done]|]. done.
Qed.

Lemma names_of_identities args :
  args_ok wf args = true -> all_identity args = Some true ->
  exists names, names_of_args args = Ok names.
Proof.
  induction args as [|arg args IH]; intros Hok Hid; [by exists []|].
  destruct arg as [|[] a| |]; try done.
  apply andb_true_iff in Hok as [Ha Hargs]. cbn [all_identity] in Hid.
  destruct (node_eq a NODE_IDENTITY) eqn:Hty; [|done].
  destruct (IH Hargs Hid) as [names Hnames].
  destruct a as [|ty c| |]; try done.
  cbn in Hty. apply bool_decide_eq_true_1 in Hty as ->.
  destruct c as [| |[|[| |[|[t| | |] [|[| |keys|] [|]]]|] [|]]|]; try done.
  eexists. cbn. rewrite Hnames. done.
Qed.

Lemma all_identity_args args :
  args_ok wf args = true -> all_identity args ≠ None.
Proof.
  induction args as [|arg args IH]; intros Hok; [done|].
  destruct arg as [|[] a| |]; try done.
  apply andb_true_iff in Hok as [Ha Hargs]. cbn [all_identity].
  destruct (node_eq a NODE_IDENTITY); [by apply IH|done].
Qed.

Lemma call_lowers (n : nat) t keys args :
  (forall e, (size e < n)%nat -> wf e = true ->
             lowers (_generate_expression e)) ->
  (list_sum (map size args) < n)%nat -> args_ok wf args = true ->
  lowers (_generate_function_call
            (Node NODE_FUNCTION_CALL
               (OList [OList [OTok t; OList keys]; OList args]))).
Proof.
  intros IH Hsize Hok. cbn.
  apply lowers_bind; [by apply (args_lower n)|]. done.
Qed.

Lemma statement_lowers (n : nat) s :
  (forall e, (size e < n)%nat -> wf e = true ->
             lowers (_generate_expression e)) ->
  (size s < n)%nat -> wf s = true ->
  lowers (_generate_statement (Node NODE_STATEMENT s)).
Proof.
  intros IH Hsize Hok.
  destruct s as [|ty c| |]; try done.
  destruct ty; try (by apply IH).
  - (* an assignment *)
    destruct c as [| |[|[| |[|[t| | |] [|[| |keys|] [|]]]|] [|e [|]]]|];
      try done.
    cbn in Hok. cbn [_generate_statement _generate_statement_ node_eq].
    rewrite bool_decide_eq_true_2 by done.
    cbn [_generate_assignment_].
    apply lowers_bind.
    { apply IH; [|done]. cbn in Hsize. unfold list_sum in *. cbn in Hsize. lia. }
    intros ir. destruct (truthy (OList keys)); [by left|done].
  - (* a call *)
    destruct c as [| |[|[| |[|[t| | |] [|[| |keys|] [|]]]|] [|[| |args|] [|]]]|];
      try done.
    cbn in Hok. apply (call_lowers n); [done| |done].
    cbn in Hsize. unfold list_sum in *. cbn in Hsize. lia.
Qed.

Lemma statements_lower (n : nat) :
  (forall e, (size e < n)%nat -> wf e = true ->
             lowers (_generate_expression e)) ->
  forall statements,
    (list_sum (map size statements) < n)%nat ->
    statements_ok wf statements = true ->
    lowers (_generate_program statements).
Proof.
  intros IH. unfold list_sum.
  induction statements as [|s statements IHs]; intros Hsize Hok; [done|].
  destruct s as [|[] s| |]; try done.
  cbn in Hsize. apply andb_true_iff in Hok as [Hs Hrest].
  change (_generate_program (Node NODE_STATEMENT s :: statements))
    with (res_bind (_generate_statement (Node NODE_STATEMENT s))
            (fun statement_ir =>
             res_bind (_generate_program statements) (fun ir =>
             Ok (statement_ir ++ ir)))).
  apply lowers_bind; [apply (statement_lowers n); [done|lia|done]|].
  intros ir. apply lowers_bind; [apply IHs; [lia|done]|]. done.
Qed.

Lemma expression_lowers (n : nat) :
  forall e, (size e < n)%nat -> wf e = true ->
            lowers (_generate_expression e).
Proof.
  induction n as [|n IH]; intros e Hsize Hok; [lia|].
  destruct e as [|ty c| |]; try done.
  destruct ty; try (by left).
  - (* an identity *)
    destruct c as [| |[|[| |[|[t| | |] [|[| |keys|] [|]]]|] [|]]|]; try done.
    cbn. destruct keys; [done|by left].
  - (* a string *)
    destruct c as [t| | |]; try done. cbn in Hok.
    apply quoted_text_Ok in Hok as [u Hu]. cbn. by rewrite Hu.
  - (* a number *)
    destruct c as [t| | |]; try done. cbn in Hok.
    cbn. by rewrite int_number_text.
  - (* a call *)
    destruct c as [| |[|[| |[|[t| | |] [|[| |keys|] [|]]]|] [|[| |args|] [|]]]|];
      try done.
    cbn in Hok.
    change (lowers (_generate_function_call
              (Node NODE_FUNCTION_CALL
                 (OList [OList [OTok t; OList keys]; OList args])))).
    apply (call_lowers n); [done| |done].
    cbn in Hsize. unfold list_sum in *. cbn in Hsize. lia.
  - (* a function *)
    destruct c as [| |[|[| |args|] [|[|[] [| |statements|]| |] [|]]]|];
      try done.
    cbn in Hok. apply andb_true_iff in Hok as [Hargs Hstatements].
    change (lowers (_generate_function
              (Node NODE_FUNCTION
                 (OList [OList args; Node NODE_BLOCK (OList statements)])))).
    unfold _generate_function, _generate_function_.
    pose proof (all_identity_args args Hargs) as Hsome.
    destruct (all_identity args) as [[|]|] eqn:Hid; [|by right|done].
    destruct (names_of_identities args Hargs Hid) as [names ->].
    cbn [res_bind].
    fold _generate_program.
    assert (lowers (_generate_program statements)) as Hblock.
    { apply (statements_lower n); [done| |done].
      cbn in Hsize. unfold list_sum in *. cbn in Hsize. lia. }
    by destruct (_generate_program statements).
  - (* a boolean *)
    destruct c as [t| | |]; try done.
  - (* an extern *)
    destruct c as [| | |[|[s| | |] [|[k| | |] [|]]]]; try done.
    cbn in Hok. apply andb_true_iff in Hok as [Hs Hk].
    apply quoted_text_Ok in Hs as [u Hu].
    cbn. by rewrite Hu, int_number_text.
Qed.

Lemma program_lowers ast :
  statements_ok wf ast = true -> lowers (ir ast).
Proof.
  intros Hok. apply (statements_lower (S (list_sum (map size ast)))); [|lia|done].
  intros e _ He. apply (expression_lowers (S (size e))); [lia|done].
Qed.

End TreeLowering.

Section SafeFacts.

Import Parser Tree Safe.

Lemma good_nil : ~ good [].
Proof. by intros [(eof & Hlast & _) _]. Qed.

Lemma good_tail t ts :
  type t ≠ TOKEN_EOF -> good (t :: ts) -> tok_ok t = true /\ good ts.
Proof.
  intros Ht [(eof & Hlast & Heof) Hall].
  apply Forall_cons_1 in Hall as [Hok Hall]. split; [done|].
  split; [|done]. exists eof. split; [|done].
  destruct ts as [|t' ts]; [|by rewrite last_cons_cons in Hlast].
  simpl in Hlast. congruence.
Qed.

Lemma syntax_ParseError t : syntax (ParseError t).
Proof.
  unfold ParseError. destruct (tok_eq t TOKEN_EOF); [right; by left|].
  right. right. by eexists.
Qed.

Lemma safe_ret {A} (shape : A -> bool) a :
  shape a = true -> safe shape (ret a).
Proof. by intros Ha ts Hts. Qed.

Lemma safe_raise {A} (shape : A -> bool) e : syntax e -> safe shape (raise e).
Proof. by intros He ts Hts. Qed.

Lemma safe_bind {A B} (shape : A -> bool) (shape' : B -> bool)
    (m : P A) (k : A -> P B) :
  safe shape m -> (forall a, shape a = true -> safe shape' (k a)) ->
  safe shape' (bind m k).
Proof.
  intros Hm Hk ts Hts. unfold bind. specialize (Hm ts Hts).
  destruct (m ts) as [[[a ts']|e]|]; [|done..].
  destruct Hm as [Ha Hts']. by apply Hk.
Qed.

(** [peek]: on a list closed by the end-of-input token there is a token to
    look at. *)
Lemma safe_peek {B} (shape' : B -> bool) (k : Token -> P B) :
  (forall t ts, good (t :: ts) -> tok_ok t = true ->
                outcome shape' (k t (t :: ts))) ->
  safe shape' (bind peek k).
Proof.
  intros Hk [|t ts] Hts; [by apply good_nil in Hts|].
  unfold bind, peek. apply Hk; [done|].
  destruct Hts as [_ Hall]. by apply Forall_cons_1 in Hall as [? _].
Qed.

(** [pop0] of the token just looked at, which the test it passed shows
    not to be the end of input. *)
Lemma outcome_pop {B} (shape' : B -> bool) (k : Token -> P B) t ts :
  type t ≠ TOKEN_EOF -> good (t :: ts) ->
  (tok_ok t = true -> safe shape' (k t)) ->
  outcome shape' (bind pop0 k (t :: ts)).
Proof.
  intros Ht Hts Hk. destruct (good_tail t ts Ht Hts) as [Hok Hts'].
  unfold bind, pop0. by apply Hk.
Qed.

(** [pop0] of a token tested afterwards: the end-of-input token fails the
    test. *)
Lemma safe_pop {B} (shape' : B -> bool) (k : Token -> P B) :
  (forall t ts, type t = TOKEN_EOF ->
                exists e, k t ts = Some (Raise e) /\ syntax e) ->
  (forall t, type t ≠ TOKEN_EOF -> tok_ok t = true -> safe shape' (k t)) ->
  safe shape' (bind pop0 k).
Proof.
  intros Heof Hk [|t ts] Hts; [by apply good_nil in Hts|].
  unfold bind, pop0. destruct (decide (type t = TOKEN_EOF)) as [Ht|Ht].
  - destruct (Heof t ts Ht) as (e & -> & He). exact He.
  - destruct (good_tail t ts Ht Hts) as [Hok Hts']. by apply Hk.
Qed.

Lemma safe_outcome {A} (shape : A -> bool) (m : P A) ts :
  safe shape m -> good ts -> outcome shape (m ts).
Proof. intros Hm Hts. by apply Hm. Qed.

End SafeFacts.

Section SafeParse.

Import Parser Tree Safe.

(** The token that passed the test is not the end of input. *)
Ltac passed :=
  let Heq := fresh in
  intros Heq;
  unfold first_statements, first_expression, kw, tok_eq, tok_in, value_in in *;
  repeat match goal with
  | H : context [type ?t] |- _ =>
      lazymatch type of Heq with type t = _ => idtac end;
      tryif constr_eq H Heq then fail else (rewrite Heq in H; cbn in H)
  end;
  done.

(** The end-of-input token fails the test that follows its pop. *)
Ltac failed Ht :=
  unfold tok_eq; rewrite Ht;
  rewrite ?bool_decide_eq_false_2 by done; cbn [negb orb andb];
  eexists; split; [reflexivity|];
  first [apply syntax_ParseError | by left].

Ltac shape :=
  cbn [statements_ok Spec.args_ok arg_ok block_ok cont_ok identity_ok
       comparison_ok any] in *;
  repeat match goal with
  | H : _ = true |- _ => rewrite H
  end;
  first [done | reflexivity].

(** What the tests say of the types of the tokens, and so of their
    texts. *)
Ltac typed :=
  repeat match goal with
  | H : negb (tok_eq ?t ?X) = false |- _ =>
      apply negb_false_iff, bool_decide_eq_true_1 in H
  | H : tok_eq ?t ?X = true |- _ => apply bool_decide_eq_true_1 in H
  | H : type ?t = _, Hok : tok_ok ?t = true |- _ =>
      unfold tok_ok in Hok; rewrite H in Hok
  end.

Ltac branch :=
  match goal with
  | |- outcome _ ((if ?b then _ else _) _) => destruct b eqn:?
  | |- safe _ (if ?b then _ else _) => destruct b eqn:?
  end.

Ltac close :=
  first
    [ apply safe_raise; first [apply syntax_ParseError | by left]
    | apply safe_ret; shape
    | apply (safe_outcome _ (raise _)); [|assumption];
      apply safe_raise; first [apply syntax_ParseError | by left]
    | apply (safe_outcome _ (ret _)); [|assumption]; apply safe_ret; shape ].

Section Descent.

Variable n : nat.
Hypothesis IH : descent_safe n.

Lemma safe_parse_extern : safe wf parse_extern.
Proof.
  unfold parse_extern. apply safe_peek. intros t ts Hts Ht.
  branch; [|close].
  apply outcome_pop; [passed|done|]. intros _.
  apply safe_pop; [intros lb ? Hlb; failed Hlb|]. intros lb _ _.
  branch; [close|].
  apply safe_pop; [intros s ? Hs; failed Hs|]. intros s _ Hs.
  branch; [close|].
  apply safe_pop; [intros c ? Hc; failed Hc|]. intros c _ _.
  branch; [close|].
  apply safe_pop; [intros k ? Hk; failed Hk|]. intros k _ Hk.
  branch; [close|].
  apply safe_pop; [intros rb ? Hrb; failed Hrb|]. intros rb _ _.
  branch; [close|].
  apply safe_ret. cbn [wf]. typed. by rewrite Hs, Hk.
Qed.

Lemma safe_parse_import : safe wf parse_import.
Proof.
  unfold parse_import. apply safe_peek. intros t ts Hts Ht.
  branch; [|close].
  apply outcome_pop; [passed|done|]. intros _.
  apply safe_pop; [intros m ? Hm; failed Hm|]. intros m _ _.
  branch; close.
Qed.

Lemma safe_parse_identity_cont : safe cont_ok parse_identity_cont.
Proof.
  unfold parse_identity_cont. apply safe_peek. intros t ts Hts Ht.
  branch; close.
Qed.

Lemma safe_parse_boolean : safe wf parse_boolean.
Proof.
  unfold parse_boolean. apply safe_peek. intros t ts Hts Ht.
  branch; [|close].
  apply outcome_pop; [passed|done|]. intros _. close.
Qed.

Lemma safe_with_comparison node comparison :
  wf node = true -> comparison_ok comparison = true ->
  safe wf (with_comparison node comparison).
Proof.
  intros Hnode Hc. unfold with_comparison.
  destruct comparison as [|ty [| |content|]|[|]|]; try done; cbn [truthy];
    by apply safe_ret.
Qed.

Lemma identity_ok_inv o :
  identity_ok o = true ->
  exists t keys, o = Node NODE_IDENTITY (OList [OTok t; OList keys]).
Proof.
  destruct o as [|[] [| |[|[t| | |] [|[| |keys|] [|]]]|]| |]; try done.
  intros _. by exists t, keys.
Qed.

Lemma cont_ok_inv o t keys :
  cont_ok o = true ->
  exists ty content,
    o = Node ty (OList content)
    /\ wf (Node ty (OList (OList [OTok t; OList keys] :: content))) = true.
Proof.
  destruct o as [|ty c| |]; try done.
  destruct c as [| |content|]; try (by destruct ty).
  intros Hok. exists ty, content. split; [done|].
  by destruct ty.
Qed.

Ltac ih :=
  destruct IH as (Hstatements & Hstatement & Hfree & Hfor & Hreturn_cont
                  & Hassignment_or & Hassignment_cont & Hidentity & Hkeys
                  & Hkey & Hexpression & Hidentity_or & Hfunction_call_cont
                  & Hargs & Hlater_args & Harg & Hfunction & Hblock
                  & Hdictionary & Hkey_values & Hlater_key_values
                  & Hkey_value & Hcomparison_cont).

Ltac call H := eapply safe_bind; [exact H|intros ? ?].
Ltac here := apply safe_outcome; [|done].
Ltac pop_first := apply outcome_pop; [passed|done|]; intros ?.
Ltac pop_test :=
  apply safe_pop;
    [let Ht := fresh in intros ? ? Ht; failed Ht|intros ? ? ?].
Ltac compared H := call H; apply safe_with_comparison; [|done].

Lemma safe_parse_statements : safe (statements_ok wf) (parse_statements (S n)).
Proof.
  ih. cbn [parse_statements]. apply safe_peek. intros t ts Hts Ht.
  branch.
  - here. call Hstatement. pop_test. branch; [close|].
    call Hstatements. close.
  - branch; close.
Qed.

Lemma safe_parse_statement : safe wf (parse_statement (S n)).
Proof.
  ih. cbn [parse_statement]. apply safe_peek. intros t ts Hts Ht.
  branch; [by apply Hexpression|].
  branch; [by apply Hfor|].
  branch; [pop_first; exact Hreturn_cont|].
  branch; [by apply safe_parse_import|].
  branch; [by apply Hfree|close].
Qed.

Lemma safe_parse_free : safe wf (parse_free (S n)).
Proof.
  ih. cbn [parse_free]. apply safe_peek. intros t ts Hts Ht.
  branch; [|close]. pop_first. pop_test. branch; [close|].
  call Hidentity. pop_test. branch; close.
Qed.

Lemma safe_parse_for : safe wf (parse_for (S n)).
Proof.
  ih. cbn [parse_for]. apply safe_peek. intros t ts Hts Ht.
  branch; [|close]. pop_first. call Hidentity. pop_test. branch; [close|].
  call Hidentity. call Hblock. close.
Qed.

Lemma safe_parse_return_cont : safe wf (parse_return_cont (S n)).
Proof.
  ih. cbn [parse_return_cont]. apply safe_peek. intros t ts Hts Ht.
  branch; [here; call Hexpression; close|].
  branch; close.
Qed.

Lemma safe_parse_assignment_or :
  safe cont_ok (parse_assignment_or_identity_or_function_call (S n)).
Proof.
  ih. cbn [parse_assignment_or_identity_or_function_call].
  apply safe_peek. intros t ts Hts Ht.
  branch; [by apply Hassignment_cont|].
  branch; [by apply Hidentity_or|close].
Qed.

Lemma safe_parse_assignment_cont : safe cont_ok (parse_assignment_cont (S n)).
Proof.
  ih. cbn [parse_assignment_cont]. apply safe_peek. intros t ts Hts Ht.
  branch; [|close]. pop_first. call Hexpression. close.
Qed.

Lemma safe_parse_identity : safe identity_ok (parse_identity (S n)).
Proof.
  ih. cbn [parse_identity]. apply safe_peek. intros t ts Hts Ht.
  branch; [|close]. pop_first. call Hkeys. close.
Qed.

Lemma safe_parse_keys : safe any (parse_keys (S n)).
Proof.
  ih. cbn [parse_keys]. apply safe_peek. intros t ts Hts Ht.
  branch; [here; call Hkey; call Hkeys; close|].
  branch; close.
Qed.

Lemma safe_parse_key : safe any (parse_key (S n)).
Proof.
  ih. cbn [parse_key]. apply safe_peek. intros t ts Hts Ht.
  branch; [|close]. pop_first. call Hexpression. pop_test. branch; close.
Qed.

Lemma safe_parse_expression : safe wf (parse_expression (S n)).
Proof.
  ih. cbn [parse_expression]. apply safe_peek. intros t ts Hts Ht.
  branch.
  { pop_first. compared Hcomparison_cont. cbn [wf]. typed. done. }
  branch.
  { pop_first. compared Hcomparison_cont. cbn [wf]. typed. done. }
  branch.
  { here. call Hidentity. call Hassignment_or.
    match goal with
    | Hi : identity_ok ?i = true, Hc : cont_ok ?c = true |- _ =>
        apply identity_ok_inv in Hi as (tok & keys & ->);
        apply (cont_ok_inv _ tok keys) in Hc as (ty & content & -> & Hwf)
    end.
    compared Hcomparison_cont. exact Hwf. }
  branch.
  { pop_first. call Hexpression. pop_test. branch; [close|].
    compared Hcomparison_cont. done. }
  branch; [here; call Hfunction; compared Hcomparison_cont; done|].
  branch; [here; call Hdictionary; compared Hcomparison_cont; done|].
  branch; [here; call safe_parse_boolean; compared Hcomparison_cont; done|].
  branch; [by apply safe_parse_extern|close].
Qed.

Lemma safe_parse_identity_or :
  safe cont_ok (parse_identity_or_function_call (S n)).
Proof.
  ih. cbn [parse_identity_or_function_call].
  apply safe_peek. intros t ts Hts Ht.
  branch; [by apply Hfunction_call_cont|].
  branch; [by apply safe_parse_identity_cont|close].
Qed.

Lemma safe_parse_function_call_cont :
  safe cont_ok (parse_function_call_cont (S n)).
Proof.
  ih. cbn [parse_function_call_cont]. apply safe_peek. intros t ts Hts Ht.
  branch; [|close]. pop_first. call Hargs. pop_test. branch; close.
Qed.

Lemma safe_parse_args : safe (Spec.args_ok wf) (parse_args (S n)).
Proof.
  ih. cbn [parse_args]. apply safe_peek. intros t ts Hts Ht.
  branch.
  - here. call Harg. call Hlater_args.
    match goal with
    | Ha : arg_ok ?a = true |- _ => destruct a as [|[] e| |]; try done
    end.
    close.
  - branch; close.
Qed.

Lemma safe_parse_later_args : safe (Spec.args_ok wf) (parse_later_args (S n)).
Proof.
  ih. cbn [parse_later_args]. apply safe_peek. intros t ts Hts Ht.
  branch; [pop_first; call Hargs; close|].
  branch; close.
Qed.

Lemma safe_parse_arg : safe arg_ok (parse_arg (S n)).
Proof.
  ih. cbn [parse_arg]. apply safe_peek. intros t ts Hts Ht.
  branch; [here; call Hexpression; close|close].
Qed.

Lemma safe_parse_function : safe wf (parse_function (S n)).
Proof.
  ih. cbn [parse_function]. apply safe_peek. intros t ts Hts Ht.
  branch; [|close]. pop_first. pop_test. branch; [close|].
  call Hargs. pop_test. branch; [close|]. call Hblock.
  match goal with
  | Hb : block_ok ?b = true |- _ =>
      destruct b as [|[] [| |statements|]| |]; try done
  end.
  apply safe_ret. cbn [wf]. cbn [block_ok] in *. shape.
Qed.

Lemma safe_parse_block : safe block_ok (parse_block (S n)).
Proof.
  ih. cbn [parse_block]. apply safe_peek. intros t ts Hts Ht.
  branch; [|close]. pop_first. call Hstatements. pop_test. branch; close.
Qed.

Lemma safe_parse_dictionary : safe wf (parse_dictionary (S n)).
Proof.
  ih. cbn [parse_dictionary]. apply safe_peek. intros t ts Hts Ht.
  branch; [|close]. pop_first. call Hkey_values. pop_test. branch; close.
Qed.

Lemma safe_parse_key_values : safe any (parse_key_values (S n)).
Proof.
  ih. cbn [parse_key_values]. apply safe_peek. intros t ts Hts Ht.
  branch; [here; call Hkey_value; call Hlater_key_values; close|].
  branch; close.
Qed.

Lemma safe_parse_later_key_values : safe any (parse_later_key_values (S n)).
Proof.
  ih. cbn [parse_later_key_values]. apply safe_peek. intros t ts Hts Ht.
  branch; [pop_first; call Hkey_values; close|].
  branch; close.
Qed.

Lemma safe_parse_key_value : safe any (parse_key_value (S n)).
Proof.
  ih. cbn [parse_key_value]. apply safe_peek. intros t ts Hts Ht.
  branch; [|close]. here. call Hexpression. pop_test. branch; [close|].
  call Hexpression. close.
Qed.

Lemma safe_parse_comparison_cont :
  safe comparison_ok (parse_comparison_cont (S n)).
Proof.
  ih. cbn [parse_comparison_cont]. apply safe_peek. intros t ts Hts Ht.
  branch; [pop_first; call Hexpression; close|].
  branch; [pop_first; call Hexpression; close|].
  branch; [pop_first; call Hexpression; close|].
  branch; close.
Qed.

End Descent.

Lemma descent_safe_all n : descent_safe n.
Proof.
  induction n as [|n IH].
  { unfold descent_safe. repeat match goal with |- _ /\ _ => split end;
      by intros ts Hts. }
  unfold descent_safe.
  repeat match goal with |- _ /\ _ => split end.
  - by apply safe_parse_statements.
  - by apply safe_parse_statement.
  - by apply safe_parse_free.
  - by apply safe_parse_for.
  - by apply safe_parse_return_cont.
  - by apply safe_parse_assignment_or.
  - by apply safe_parse_assignment_cont.
  - by apply safe_parse_identity.
  - by apply safe_parse_keys.
  - by apply safe_parse_key.
  - by apply safe_parse_expression.
  - by apply safe_parse_identity_or.
  - by apply safe_parse_function_call_cont.
  - by apply safe_parse_args.
  - by apply safe_parse_later_args.
  - by apply safe_parse_arg.
  - by apply safe_parse_function.
  - by apply safe_parse_block.
  - by apply safe_parse_dictionary.
  - by apply safe_parse_key_values.
  - by apply safe_parse_later_key_values.
  - by apply safe_parse_key_value.
  - by apply safe_parse_comparison_cont.
Qed.

Lemma safe_parse_program n : safe (statements_ok wf) (parse_program n).
Proof.
  destruct (descent_safe_all n) as (Hstatements & _).
  unfold parse_program. apply safe_peek. intros t ts Hts Ht.
  branch; [by apply Hstatements|close].
Qed.

(** A program that parses has a first statement. *)
Lemma parse_program_nonempty n ts ast ts' :
  parse_program n ts = Some (Ok (ast, ts')) -> ast ≠ [].
Proof.
  unfold parse_program, bind, peek. destruct ts as [|t ts]; [done|].
  destruct (first_statements t) eqn:Hfirst; [|done].
  destruct n as [|n]; [done|]. cbn [parse_statements].
  unfold bind at 1, peek. rewrite Hfirst.
  unfold bind, pop0, ret, raise. intros Hrun.
  repeat (case_match; simplify_eq; try done).
Qed.

Lemma good_buffer tokens line :
  Forall (fun t => tok_ok t = true) tokens ->
  good (tokens ++ [mkToken TOKEN_EOF "$" line]).
Proof.
  intros Hall. split.
  - eexists. by rewrite last_snoc.
  - apply Forall_app. split; [done|]. by repeat constructor.
Qed.

Lemma parse_safe self :
  Forall (fun t => tok_ok t = true) (_tokens self) ->
  match parse self with
  | Some (Ok (flag, self')) =>
      flag = true /\ _tokens self' = [] /\ ast self' ≠ []
      /\ statements_ok wf (ast self') = true
  | Some (Raise e) => syntax e
  | None => False
  end.
Proof.
  intros Hall. pose proof (parse_total self) as Htotal.
  destruct (parse self) as [[[flag self']|e]|] eqn:Hparse; [| |done].
  - pose proof (parse_returns_true _ _ _ Hparse) as ->.
    unfold parse in Hparse.
    set (tokens := _tokens self ++ [_]) in Hparse.
    pose proof (safe_parse_program (parse_fuel tokens) tokens
                  (good_buffer _ _ Hall)) as Hsafe.
    destruct (parse_program _ tokens) as [[[tree rest]|e]|] eqn:Hrun;
      [|done..].
    apply parse_program_nonempty in Hrun. destruct Hsafe as [Hshape _].
    destruct (pop_last rest) as [[final ?]|]; [|done].
    destruct (tok_eq final TOKEN_EOF); [|done].
    injection Hparse as <-. done.
  - unfold parse in Hparse.
    set (tokens := _tokens self ++ [_]) in Hparse.
    pose proof (safe_parse_program (parse_fuel tokens) tokens
                  (good_buffer _ _ Hall)) as Hsafe.
    pose proof (parse_program_advances (parse_fuel tokens)) as Hadv.
    destruct (parse_program _ tokens) as [[[tree rest]|e']|] eqn:Hrun;
      [|by injection Hparse as <-|done].
    exfalso. destruct (Hadv _ _ _ Hrun) as [Hkeeps _].
    specialize (Hkeeps (mkToken TOKEN_EOF "$" (line_range self).2)).
    unfold tokens in Hkeeps. rewrite last_snoc in Hkeeps.
    unfold pop_last in Hparse. rewrite Hkeeps in Hparse by done.
    by destruct (tok_eq _ _).
Qed.

End SafeParse.

Section LexedTokens.

Import Lexer Tree Safe.

Lemma tokenize_tok_ok code :
  Forall (fun t => tok_ok t = true) (tokenize code).
Proof.
  apply tokenize_Forall. intros i l pre c s _ _ _. unfold tok_ok.
  cbn [type value].
  pose proof (_find_token_number c s) as Hnum.
  pose proof (_find_token_string c s) as Hstr.
  destruct (_find_token (String c s)).1; try done.
  - by apply Hnum.
  - destruct Hstr as (q & body & Hq & _ & ->); [done|].
    unfold Spec.quoted_text.
    by rewrite _remove_quotes_between, Hq.
Qed.

Lemma tokenize_all_tok_ok codes :
  Forall (fun t => tok_ok t = true) (concat (map tokenize codes)).
Proof.
  induction codes as [|code codes IH]; [constructor|].
  cbn. apply Forall_app. split; [apply tokenize_tok_ok|done].
Qed.

End LexedTokens.

Section Pipeline.

Import Parser Tree Safe.

Lemma parse_of_lexed (codes : list string) :
  match Uro.parse_tokens (concat (map Lexer.tokenize codes)) with
  | Some (Ok (flag, self)) =>
      flag = true /\ _tokens self = [] /\ ast self ≠ []
      /\ statements_ok wf (ast self) = true
  | Some (Raise e) => syntax e
  | None => False
  end.
Proof.
  unfold Uro.parse_tokens. apply parse_safe.
  unfold add_tokens, init. cbn [_tokens app]. apply tokenize_all_tok_ok.
Qed.



End Pipeline.

Section ReplFacts.

Import Parser Tree Generator Repl.


End ReplFacts.

(** ** The layout of the text *)

(** The parser reads the type and the text of a token, never its line. *)

Section LayoutParse.

Import Parser Layout.

Lemma sim_ret {A} (f : A -> A) a b : a = f b -> sim f (ret a) (ret b).
Proof. by intros -> tokens. Qed.

Lemma sim_raise {A} (f : A -> A) e1 e2 :
  e1 = erase_exn e2 -> sim f (raise e1) (raise e2).
Proof. by intros -> tokens. Qed.

Lemma sim_out_of_fuel {A} (f : A -> A) : sim f out_of_fuel out_of_fuel.
Proof. by intros tokens. Qed.

Lemma sim_bind {A B} (f : A -> A) (g : B -> B) m1 m2 (k1 k2 : A -> P B) :
  sim f m1 m2 -> (forall a, sim g (k1 (f a)) (k2 a)) ->
  sim g (bind m1 k1) (bind m2 k2).
Proof.
  intros Hm Hk tokens. unfold bind. rewrite Hm.
  destruct (m2 tokens) as [[[a tokens']|e]|]; [|done..]. apply Hk.
Qed.

Lemma sim_peek : sim unline peek peek.
Proof. by intros [|t tokens]. Qed.

Lemma sim_pop0 : sim unline pop0 pop0.
Proof. by intros [|t tokens]. Qed.

Lemma tok_eq_unline t ty : tok_eq (unline t) ty = tok_eq t ty.
Proof. done. Qed.

Lemma tok_in_unline t tys : tok_in (unline t) tys = tok_in t tys.
Proof. done. Qed.

Lemma value_in_unline t vs : value_in (unline t) vs = value_in t vs.
Proof. done. Qed.

Lemma kw_unline t v : kw (unline t) v = kw t v.
Proof. done. Qed.

Lemma first_statements_unline t :
  first_statements (unline t) = first_statements t.
Proof. done. Qed.

Lemma first_expression_unline t :
  first_expression (unline t) = first_expression t.
Proof. done. Qed.

Lemma ParseError_unline t : ParseError (unline t) = erase_exn (ParseError t).
Proof. unfold ParseError. rewrite tok_eq_unline. by destruct (tok_eq t _). Qed.

Lemma truthy_erase o : truthy (erase o) = truthy o.
Proof. by destruct o as [| |[|]|[|]]. Qed.

Lemma sim_with_comparison node comparison :
  sim erase (with_comparison (erase node) (erase comparison))
    (with_comparison node comparison).
Proof.
  unfold with_comparison. rewrite truthy_erase.
  destruct comparison as [|ty [| |l|l]|l|l]; try done.
  all: by destruct l.
Qed.


Lemma sim_compared node' node comparison :
  node' = erase node ->
  sim erase (with_comparison node' (erase comparison))
    (with_comparison node comparison).
Proof. intros ->. apply sim_with_comparison. Qed.

Lemma value_unline t : value (unline t) = value t.
Proof. done. Qed.

(** One step of a function of the descent, the same on both sides. *)
Ltac sim_call :=
  first [ apply sim_peek | apply sim_pop0 | eassumption ].

Ltac sim_step :=
  cbv beta zeta;
  rewrite ?tok_eq_unline, ?tok_in_unline, ?value_in_unline, ?kw_unline,
    ?first_statements_unline, ?first_expression_unline, ?value_unline;
  lazymatch goal with
  | |- sim _ (if ?b then _ else _) (if ?b then _ else _) => destruct b
  | |- sim _ (bind _ _) (bind _ _) => eapply sim_bind; [sim_call|intros ?]
  | |- sim _ (ret _) (ret _) => apply sim_ret; reflexivity
  | |- sim _ (raise _) (raise _) =>
      apply sim_raise; first [apply ParseError_unline | reflexivity]
  | |- sim _ (with_comparison _ _) (with_comparison _ _) =>
      apply sim_compared; reflexivity
  | |- sim _ out_of_fuel out_of_fuel => apply sim_out_of_fuel
  | |- sim _ match erase ?a with _ => _ end match ?a with _ => _ end =>
      destruct a; cbn [erase]
  | |- sim _ _ _ => eassumption
  end.

Lemma sim_parse_extern : sim erase parse_extern parse_extern.
Proof. unfold parse_extern. repeat sim_step. Qed.

Lemma sim_parse_import : sim erase parse_import parse_import.
Proof. unfold parse_import. repeat sim_step. Qed.

Lemma sim_parse_identity_cont :
  sim erase parse_identity_cont parse_identity_cont.
Proof. unfold parse_identity_cont. repeat sim_step. Qed.

Lemma sim_parse_boolean : sim erase parse_boolean parse_boolean.
Proof. unfold parse_boolean. repeat sim_step. Qed.

Lemma descent_sim_all n : descent_sim n.
Proof.
  induction n as [|n IH].
  { unfold descent_sim. repeat split; apply sim_out_of_fuel. }
  pose proof sim_parse_extern. pose proof sim_parse_import.
  pose proof sim_parse_identity_cont. pose proof sim_parse_boolean.
  destruct IH as (? & ? & ? & ? & ? & ? & ? & ? & ? & ? & ? & ? & ? & ? & ?
                  & ? & ? & ? & ? & ? & ? & ? & ?).
  unfold descent_sim. repeat match goal with |- _ /\ _ => split end.
  all: match goal with |- sim _ (?f (S _)) _ => cbn [f] end.
  all: repeat sim_step.
Qed.

Lemma sim_parse_program n :
  sim (map erase) (parse_program n) (parse_program n).
Proof.
  destruct (descent_sim_all n) as [Hstatements _].
  unfold parse_program. repeat sim_step.
Qed.

End LayoutParse.

(** Lowering reads the texts of the tokens in the tree. *)

Section LayoutLowering.

Import IRGenerator Spec Layout.

Lemma node_eq_erase o ty : node_eq (erase o) ty = node_eq o ty.
Proof. by destruct o. Qed.

Lemma value_of_erase o : value_of (erase o) = value_of o.
Proof. by destruct o. Qed.

(** The parts of a node that a lowering function looks at, one after the
    other. *)
Ltac parts :=
  repeat (match goal with
          | |- context [match erase ?a with _ => _ end] =>
              is_var a; destruct a; cbn [erase map]
          | |- context [match map erase ?l with _ => _ end] =>
              is_var l; destruct l; cbn [erase map]
          end; try done);
  rewrite ?truthy_erase, ?node_eq_erase, ?value_of_erase;
  try done.

Lemma _generate_identity_erase node :
  _generate_identity (erase node) = _generate_identity node.
Proof. unfold _generate_identity. parts. Qed.

Lemma _generate_string_literal_erase node :
  _generate_string_literal (erase node) = _generate_string_literal node.
Proof. destruct node; try done. cbn. by rewrite value_of_erase. Qed.

Lemma _generate_number_literal_erase node :
  _generate_number_literal (erase node) = _generate_number_literal node.
Proof. destruct node; try done. cbn. by rewrite value_of_erase. Qed.

Lemma _generate_boolean_erase node :
  _generate_boolean (erase node) = _generate_boolean node.
Proof. destruct node; try done. cbn. by rewrite value_of_erase. Qed.

Lemma _generate_extern_erase node :
  _generate_extern (erase node) = _generate_extern node.
Proof. unfold _generate_extern. parts. Qed.

Lemma names_of_pairs_erase pairs :
  names_of_pairs (map erase pairs) = names_of_pairs pairs.
Proof.
  induction pairs as [|pair pairs IH]; [done|]. cbn [map names_of_pairs].
  parts. all: by rewrite IH.
Qed.

Lemma names_of_args_erase args :
  names_of_args (map erase args) = names_of_args args.
Proof.
  induction args as [|arg args IH]; [done|]. cbn [map names_of_args].
  parts. all: by rewrite names_of_pairs_erase, IH.
Qed.

Lemma all_identity_erase args :
  all_identity (map erase args) = all_identity args.
Proof.
  induction args as [|arg args IH]; [done|]. cbn [map all_identity].
  parts. by rewrite IH.
Qed.

Section Step.

Variable n : nat.
Hypothesis IH :
  forall e, (size e < n)%nat ->
            _generate_expression (erase e) = _generate_expression e.

Lemma generate_args_erase args :
  (list_sum (map size args) <= n)%nat ->
  generate_args _generate_expression (map erase args)
  = generate_args _generate_expression args.
Proof.
  unfold list_sum.
  induction args as [|arg args IHargs]; intros Hsize; [done|].
  cbn [map generate_args]. destruct arg; cbn [erase]; try done.
  cbn in Hsize. rewrite IH by lia. by rewrite IHargs by lia.
Qed.

Ltac sized H :=
  cbn [size map] in H; unfold list_sum in H; cbn [fold_right] in H.

Lemma _generate_assignment_erase node :
  (size node <= n)%nat ->
  _generate_assignment_ _generate_expression (erase node)
  = _generate_assignment_ _generate_expression node.
Proof.
  intros Hsize. unfold _generate_assignment_.
  destruct node as [|ty c| |]; cbn [erase]; try done.
  destruct c as [| |[|i [|e [|]]]|[|i [|e [|]]]]; cbn [erase map]; try done.
  all: sized Hsize.
  all: destruct i as [| |[|t [|k [|]]]|[|t [|k [|]]]]; cbn [erase map];
    try done.
  all: rewrite IH by lia; by rewrite truthy_erase, value_of_erase.
Qed.

Lemma _generate_function_call_erase node :
  (size node <= n)%nat ->
  _generate_function_call_ _generate_expression (erase node)
  = _generate_function_call_ _generate_expression node.
Proof.
  intros Hsize. unfold _generate_function_call_.
  destruct node as [|ty c| |]; cbn [erase]; try done.
  destruct c as [| |[|i [|a [|]]]|[|i [|a [|]]]]; cbn [erase map]; try done.
  all: sized Hsize.
  all: destruct i as [| |[|first ?]|[|first ?]]; cbn [erase map]; try done.
  all: rewrite value_of_erase.
  all: destruct a as [| |items|items]; cbn [erase]; try done.
  all: sized Hsize; fold (list_sum (map size items)) in Hsize.
  all: by rewrite generate_args_erase by lia.
Qed.

Lemma _generate_statement_erase node :
  (size node <= n)%nat ->
  _generate_statement_ _generate_expression (erase node)
  = _generate_statement_ _generate_expression node.
Proof.
  intros Hsize. unfold _generate_statement_.
  destruct node as [|ty statement| |]; cbn [erase]; try done.
  sized Hsize. rewrite !node_eq_erase.
  rewrite _generate_assignment_erase, _generate_function_call_erase by lia.
  by rewrite IH by lia.
Qed.

Lemma _generate_program_erase root :
  (list_sum (map size root) <= n)%nat ->
  _generate_program_ _generate_expression (map erase root)
  = _generate_program_ _generate_expression root.
Proof.
  unfold list_sum.
  induction root as [|node root IHroot]; intros Hsize; [done|].
  cbn [map _generate_program_]. cbn in Hsize.
  rewrite _generate_statement_erase by lia. by rewrite IHroot by lia.
Qed.

Lemma _generate_function_erase node :
  (size node <= n)%nat ->
  _generate_function_ _generate_expression (erase node)
  = _generate_function_ _generate_expression node.
Proof.
  intros Hsize. unfold _generate_function_.
  destruct node as [|ty c| |]; cbn [erase]; try done.
  destruct c as [| |[|a [|b [|]]]|[|a [|b [|]]]]; cbn [erase map]; try done.
  all: sized Hsize.
  all: destruct a as [| |items|items]; cbn [erase]; try done.
  all: rewrite all_identity_erase, names_of_args_erase.
  all: destruct (all_identity items) as [[|]|]; try done.
  all: destruct (names_of_args items); try done; cbn [res_bind].
  all: destruct b as [|? [| |statements|statements]| |]; cbn [erase];
    try done.
  all: sized Hsize; fold (list_sum (map size statements)) in Hsize.
  all: by rewrite _generate_program_erase by lia.
Qed.

End Step.

Lemma _generate_expression_erase_below n :
  forall e, (size e < n)%nat ->
            _generate_expression (erase e) = _generate_expression e.
Proof.
  induction n as [|n IH]; intros e Hsize; [lia|].
  destruct e as [|ty c| |]; try done.
  change (erase (Node ty c)) with (Node ty (erase c)).
  cbn [size] in Hsize.
  destruct ty; try done.
  - exact (_generate_identity_erase (Node NODE_IDENTITY c)).
  - exact (_generate_string_literal_erase (Node NODE_STRING_LITERAL c)).
  - exact (_generate_number_literal_erase (Node NODE_NUMBER_LITERAL c)).
  - apply (_generate_function_call_erase n IH (Node NODE_FUNCTION_CALL c)).
    cbn [size]. lia.
  - apply (_generate_function_erase n IH (Node NODE_FUNCTION c)).
    cbn [size]. lia.
  - exact (_generate_boolean_erase (Node NODE_BOOLEAN c)).
  - exact (_generate_extern_erase (Node NODE_EXTERN c)).
Qed.

Lemma ir_erase ast : ir (map erase ast) = ir ast.
Proof.
  apply (_generate_program_erase (list_sum (map size ast))); [|lia].
  apply _generate_expression_erase_below.
Qed.

End LayoutLowering.

Section LayoutPipeline.

Import Lexer Text Parser Layout.

Lemma last_unline tokens : last (map unline tokens) = unline <$> last tokens.
Proof.
  induction tokens as [|t [|t' tokens] IH]; [done..|].
  exact IH.
Qed.

Lemma line_range_unline tokens tree :
  (line_range (mkParser (map unline tokens) tree)).2 = 0.
Proof.
  unfold line_range. cbn [_tokens]. rewrite last_unline.
  destruct tokens as [|t tokens]; [done|]. cbn [map].
  by destruct (last (t :: tokens)).
Qed.

(** [parse] on a buffer without lines. *)
Lemma parse_unline tokens tree tree' :
  match parse (mkParser tokens tree) with
  | Some (Ok (flag, self')) =>
      parse (mkParser (map unline tokens) tree')
      = Some (Ok (true, mkParser [] (map erase (ast self'))))
  | Some (Raise e) =>
      parse (mkParser (map unline tokens) tree')
      = Some (Raise (erase_exn e))
  | None => False
  end.
Proof.
  pose proof (parse_total (mkParser tokens tree)) as Htotal.
  destruct (parse (mkParser tokens tree)) as [[[flag self']|e]|] eqn:Hparse;
    [| |done].
  - pose proof (parse_returns_true _ _ _ Hparse) as ->.
    revert Hparse. unfold parse. rewrite line_range_unline.
    cbn [_tokens].
    set (eof := mkToken TOKEN_EOF "$" _).
    change (mkToken TOKEN_EOF "$" 0) with (unline eof).
    change [unline eof] with (map unline [eof]). rewrite <- map_app.
    replace (parse_fuel (map unline (tokens ++ [eof])))
      with (parse_fuel (tokens ++ [eof]))
      by (unfold parse_fuel; by rewrite length_map).
    rewrite sim_parse_program.
    destruct (parse_program _ (tokens ++ [eof])) as [[[tree0 rest]|?]|];
      [|done..].
    cbn [erased]. unfold pop_last. rewrite last_unline.
    destruct (last rest) as [final|]; [|done]. cbn [fmap option_fmap option_map].
    rewrite tok_eq_unline. destruct (tok_eq final TOKEN_EOF); [|done].
    by intros [= <-].
  - revert Hparse. unfold parse. rewrite line_range_unline.
    cbn [_tokens].
    set (eof := mkToken TOKEN_EOF "$" _).
    change (mkToken TOKEN_EOF "$" 0) with (unline eof).
    change [unline eof] with (map unline [eof]). rewrite <- map_app.
    replace (parse_fuel (map unline (tokens ++ [eof])))
      with (parse_fuel (tokens ++ [eof]))
      by (unfold parse_fuel; by rewrite length_map).
    rewrite sim_parse_program.
    destruct (parse_program _ (tokens ++ [eof])) as [[[tree0 rest]|?]|];
      [| |done].
    + cbn [erased]. unfold pop_last. rewrite last_unline.
      destruct (last rest) as [final|]; [|by intros [= <-]].
      cbn [fmap option_fmap option_map].
      rewrite tok_eq_unline. by destruct (tok_eq final TOKEN_EOF).
    + by intros [= <-].
Qed.

(** What [parse] makes of two buffers that differ in the lines of their
    tokens only. *)
Lemma parse_layout tokens1 tokens2 tree1 tree2 :
  map unline tokens1 = map unline tokens2 ->
  match parse (mkParser tokens1 tree1), parse (mkParser tokens2 tree2) with
  | Some (Ok (flag1, self1)), Some (Ok (flag2, self2)) =>
      flag1 = true /\ flag2 = true
      /\ IRGenerator.ir (ast self1) = IRGenerator.ir (ast self2)
  | Some (Raise e1), Some (Raise e2) => erase_exn e1 = erase_exn e2
  | _, _ => False
  end.
Proof.
  intros Hsame.
  pose proof (parse_unline tokens1 tree1 []) as H1.
  pose proof (parse_unline tokens2 tree2 []) as H2.
  rewrite Hsame in H1.
  destruct (parse (mkParser tokens1 tree1)) as [[[flag1 self1]|e1]|] eqn:Hp1;
    [| |done].
  - pose proof (parse_returns_true _ _ _ Hp1) as ->.
    destruct (parse (mkParser tokens2 tree2)) as [[[flag2 self2]|e2]|] eqn:Hp2;
      [| |done].
    + pose proof (parse_returns_true _ _ _ Hp2) as ->.
      split; [done|]. split; [done|].
      rewrite H1 in H2. injection H2 as H2.
      by rewrite <- (ir_erase (ast self1)), H2, ir_erase.
    + by rewrite H1 in H2.
  - destruct (parse (mkParser tokens2 tree2)) as [[[flag2 self2]|e2]|];
      [| |done].
    + by rewrite H1 in H2.
    + rewrite H1 in H2. by injection H2.
Qed.

Lemma unline_shift k tokens :
  map unline (map (shift k) tokens) = map unline tokens.
Proof. rewrite map_map. by apply map_ext. Qed.

Lemma tokenize_unlines lines :
  map unline (tokenize (unlines lines))
  = map unline (concat (map tokenize lines)).
Proof.
  induction lines as [|l [|l' lines] IH]; [done| |].
  - cbn. by rewrite app_nil_r.
  - change (unlines (l :: l' :: lines))
      with (l +:+ String "010"%char (unlines (l' :: lines))).
    rewrite tokenize_shift, map_app, unline_shift, IH.
    cbn [map concat]. by rewrite !map_app.
Qed.

End LayoutPipeline.

Section LayoutFacts.

Import Lexer Parser Generator Repl Layout.

Lemma erase_exn_same e1 e2 :
  erase_exn e1 = erase_exn e2 ->
  match e1 with
  | ParseError_ _ => exists t, e2 = ParseError_ t
  | _ => e2 = e1
  end.
Proof. destruct e1, e2; try done. by eexists. Qed.

(** X25.  Lowering and compiling do not depend on the layout of the text.
    Two texts whose tokens agree in type and text, whatever their lines,
    blanks and comments, lower to the same instructions and compile to the
    same generator, or raise the same exception, up to the line of the
    token a [ParseError] carries. *)
Theorem X25_lowering_ignores_layout a b :
  map unline (tokenize a) = map unline (tokenize b) ->
  match Uro.lower a, Uro.lower b with
  | Some (Ok ir1), Some (Ok ir2) => ir1 = ir2
  | Some (Raise e1), Some (Raise e2) => erase_exn e1 = erase_exn e2
  | _, _ => False
  end
  /\ match Uro.main a, Uro.main b with
     | Some (Ok gen1), Some (Ok gen2) => gen1 = gen2
     | Some (Raise e1), Some (Raise e2) => erase_exn e1 = erase_exn e2
     | _, _ => False
     end.
Proof.
  intros Hsame.
  assert (match Uro.lower a, Uro.lower b with
          | Some r1, Some r2 =>
              match r1, r2 with
              | Ok ir1, Ok ir2 => ir1 = ir2
              | Raise e1, Raise e2 => erase_exn e1 = erase_exn e2
              | _, _ => False
              end
          | _, _ => False
          end) as Hlower.
  { unfold Uro.lower, Uro.parse_source, Uro.parse_tokens.
    change (add_tokens (tokenize a) Parser.init)
      with (mkParser (tokenize a) []).
    change (add_tokens (tokenize b) Parser.init)
      with (mkParser (tokenize b) []).
    pose proof (parse_layout _ _ [] [] Hsame) as Hparse.
    destruct (parse (mkParser (tokenize a) [])) as [[[flag1 self1]|e1]|];
      destruct (parse (mkParser (tokenize b) [])) as [[[flag2 self2]|e2]|];
      try done.
    destruct Hparse as (-> & -> & Hir). cbn beta iota. rewrite Hir.
    by destruct (IRGenerator.ir (ast self2)). }
  split.
  { destruct (Uro.lower a) as [[ir1|e1]|], (Uro.lower b) as [[ir2|e2]|];
      done. }
  unfold Uro.main.
  destruct (Uro.lower a) as [[ir1|e1]|], (Uro.lower b) as [[ir2|e2]|];
    try done.
  subst ir2. by destruct (compile ir1 Generator.init) as [[[]|e] gen].
Qed.

Lemma X25_lowering_ignores_layout_witness :
  let a := "x = 1;" in
  let b := "x =" +:+ String "010"%char "  1 ;  # one" in
  map unline (tokenize a) = map unline (tokenize b)
  /\ Uro.lower a = Some (Ok [IR_MAKE_NUMBER 1; IR_SET_NAME "x"])
  /\ Uro.lower b = Some (Ok [IR_MAKE_NUMBER 1; IR_SET_NAME "x"]).
Proof.
  intros a b.
  assert (map unline (tokenize a) = map unline (tokenize b)) as Hsame
    by (vm_compute; reflexivity).
  split; [exact Hsame|].
  destruct (X25_lowering_ignores_layout a b Hsame) as [Hlower _].
  assert (Uro.lower a = Some (Ok [IR_MAKE_NUMBER 1; IR_SET_NAME "x"])) as Ha
    by (vm_compute; reflexivity).
  split; [exact Ha|]. rewrite Ha in Hlower.
  destruct (Uro.lower b) as [[ir2|e2]|]; [|done..]. by rewrite Hlower.
Defined.


End LayoutFacts.
